(** * The GROUP statement compiler of edb.pgsql.compiler.group

    A shallow embedding of [edb/pgsql/compiler/group.py]: the analyzer
    [FindAggregatingUses], the grouping-element compiler, the
    grouping-value synthesizer and the orchestrator [_compile_group]. *)

From Stdlib Require Import List ZArith Bool String Ascii Lia PeanoNat Btauto.
From Stdlib Require Import DecimalString DecimalN Permutation.
Import ListNotations.
Open Scope string_scope.

(** Nested induction: the IR nests nodes in lists, options and the record
    of a statement's fields. *)
Scheme All for list.
Scheme All for option.

(** ** qltypes *)

Module qltypes.

Inductive TypeModifier : Type :=
| SetOfType
| OptionalType
| SingletonType.

Definition eqb (a b : TypeModifier) : bool :=
  match a, b with
  | SetOfType, SetOfType => true
  | OptionalType, OptionalType => true
  | SingletonType, SingletonType => true
  | _, _ => false
  end.

End qltypes.

(** ** The intermediate representation (edb.ir.ast)

    Python's IR nodes are dynamically typed objects; [visit] dispatches on
    the class of the node it is handed.  The embedding keeps one sort of
    nodes with one constructor per class the analyzer distinguishes. *)

Module irast.

Definition PathId := nat.

Inductive StmtKind : Type :=
| SelectStmt
| GroupStmt
| InsertStmt
| UpdateStmt
| DeleteStmt.

(** The fields of a statement that hold IR nodes.  [subject] is the
    subject of a mutating or GROUP statement; [others] stands for the
    remaining visible fields of the concrete class (for a nested GROUP
    its [using] values and bindings). *)
Record StmtFields (A : Type) : Type := MkStmtFields {
  bindings : list A;
  iterator_stmt : option A;
  subject : option A;
  result : A;
  where_ : option A;
  orderby : list A;
  offset : option A;
  limit : option A;
  materialized_sets : list A;
  others : list A
}.

Scheme All for StmtFields.

Arguments MkStmtFields {A}.
Arguments bindings {A}.
Arguments iterator_stmt {A}.
Arguments subject {A}.
Arguments result {A}.
Arguments where_ {A}.
Arguments orderby {A}.
Arguments offset {A}.
Arguments limit {A}.
Arguments materialized_sets {A}.
Arguments others {A}.

(** [Set_ uid path_id rptr shape expr]: [uid] is the identity of the
    Python object, which is what a Python set of [irast.Set] hashes and
    compares on.  [Other children] is any other node: the generic visit
    only walks its child nodes. *)
Inductive Base : Type :=
| Set_ (uid : nat) (path_id : PathId)
       (rptr : option Base) (shape : list Base) (expr : option Base)
| Pointer (source : Base)
| FunctionCall (func_sql_function : option string)
               (typemod : qltypes.TypeModifier)
               (args : list Base)
               (params_typemods : list qltypes.TypeModifier)
| OperatorCall (typemod : qltypes.TypeModifier)
               (args : list Base)
               (params_typemods : list qltypes.TypeModifier)
| CallArg (expr : Base)
| Stmt (kind : StmtKind) (fields : StmtFields Base)
| Other (children : list Base).

Definition is_SelectStmt (k : StmtKind) : bool :=
  match k with SelectStmt => true | _ => false end.

Definition is_MutatingStmt (k : StmtKind) : bool :=
  match k with
  | InsertStmt | UpdateStmt | DeleteStmt => true
  | _ => false
  end.

(** [node.path_id] and the object identity of a node; only [Set_] nodes
    are ever asked for them. *)
Definition path_id_of (n : Base) : PathId :=
  match n with Set_ _ p _ _ _ => p | _ => 0 end.

Definition uid_of (n : Base) : nat :=
  match n with Set_ u _ _ _ _ => u | _ => 0 end.

End irast.

(** ** Python truthiness of the values the code tests *)

Definition truthy_list {A : Type} (l : list A) : bool :=
  match l with [] => false | _ :: _ => true end.

Definition truthy_opt {A : Type} (o : option A) : bool :=
  match o with Some _ => true | None => false end.

Definition truthy_str (o : option string) : bool :=
  match o with
  | Some s => negb (String.eqb s "")
  | None => false
  end.

(** ** FindAggregatingUses *)

Module FindAggregatingUses.
Import irast.

Definition Context := option Base.

(** The visitor object: [self.target], [self.to_skip],
    [self.aggregate], [self.sightings]. *)
Record t : Type := Mk {
  target : PathId;
  to_skip : list PathId;
  aggregate : Context;
  sightings : list Context
}.

(** [FindAggregatingUses(target, to_skip)] *)
Definition init (target : PathId) (to_skip : list PathId) : t :=
  Mk target to_skip None [].

Definition set_aggregate (a : Context) (v : t) : t :=
  Mk (target v) (to_skip v) a (sightings v).

(** Equality of two members of [sightings]: [None] or the same object. *)
Definition same_context (a b : Context) : bool :=
  match a, b with
  | None, None => true
  | Some x, Some y => Nat.eqb (uid_of x) (uid_of y)
  | _, _ => false
  end.

(** [c in s] *)
Definition mem (c : Context) (s : list Context) : bool :=
  existsb (same_context c) s.

(** [s.add(c)] *)
Definition add (c : Context) (s : list Context) : list Context :=
  if mem c s then s else s ++ [c].

(** [self.sightings.add(self.aggregate)] *)
Definition record_sighting (v : t) : t :=
  Mk (target v) (to_skip v) (aggregate v) (add (aggregate v) (sightings v)).

Definition in_to_skip (p : PathId) (v : t) : bool :=
  existsb (Nat.eqb p) (to_skip v).

(** Modelled from the spec: [NodeVisitor.visit] of edb.common.ast is not
    in the sources.  The analyzer is a single-pass tree walk; on a
    container [visit] walks the elements in order. *)
Definition container_visit (visit : Base -> t -> t) (l : list Base) (v : t) : t :=
  fold_left (fun v n => visit n v) l v.

(** Modelled from the spec: [NodeVisitor.visit] is not in the sources; on
    [None], which is no node of the tree, the walk does nothing. *)
Definition visit_optional (visit : Base -> t -> t) (o : option Base) (v : t) : t :=
  match o with
  | Some n => visit n v
  | None => v
  end.

(** Modelled from the spec: [NodeVisitor.generic_visit] on a statement
    walks every visible field; the analyzer declares
    [extra_skips = {'materialized_sets'}], so that field is left out. *)
Definition generic_visit_Stmt (visit : Base -> t -> t)
           (f : StmtFields Base) (v : t) : t :=
  let v := visit (result f) v in
  let v := visit_optional visit (iterator_stmt f) v in
  let v := container_visit visit (bindings f) v in
  let v := visit_optional visit (subject f) v in
  let v := visit_optional visit (where_ f) v in
  let v := container_visit visit (orderby f) v in
  let v := visit_optional visit (offset f) v in
  let v := visit_optional visit (limit f) v in
  container_visit visit (others f) v.

(** The test of [visit_Stmt] that resets the context. *)
Definition resets_context (kind : StmtKind) (f : StmtFields Base) : bool :=
  is_SelectStmt kind
  && (truthy_list (orderby f) || truthy_opt (limit f)
      || truthy_opt (offset f) || truthy_list (materialized_sets f)).

(** The context in force while one argument of a call is visited
    (the [if returns_set ... elif ...] of [process_call]). *)
Definition argument_context (returns_set calls_sql_func : bool)
           (typemod : qltypes.TypeModifier) (ir_set : Base) (old : Context)
  : Context :=
  if returns_set then None
  else if calls_sql_func && qltypes.eqb typemod qltypes.SetOfType
       then Some ir_set
       else old.

(** [process_call]: the loop over [zip(node.args, node.params_typemods)]. *)
Definition process_call (visit : Base -> t -> t)
           (returns_set calls_sql_func : bool) (ir_set : Base)
  : list Base -> list qltypes.TypeModifier -> t -> t :=
  fix loop (args : list Base) (typemods : list qltypes.TypeModifier) (v : t) : t :=
    match args, typemods with
    | arg :: args', typemod :: typemods' =>
        let old := aggregate v in
        let v := set_aggregate
                   (argument_context returns_set calls_sql_func typemod ir_set old) v in
        let v := visit arg v in
        let v := set_aggregate old v in
        loop args' typemods' v
    | _, _ => v
    end.

Definition returns_set_of (typemod : qltypes.TypeModifier) : bool :=
  qltypes.eqb typemod qltypes.SetOfType.

(** [visit_Set] and [visit_Stmt], with [self.visit] as a parameter. *)
Definition visit_Set (visit : Base -> t -> t) (node : Base) (v : t) : t :=
  match node with
  | Set_ _ path_id rptr shape expr =>
      if in_to_skip path_id v then v
      else if Nat.eqb path_id (target v) then record_sighting v
      else
        let v := visit_optional visit rptr v in
        let v := container_visit visit shape v in
        match expr with
        | Some (FunctionCall func_sql_function typemod args params_typemods) =>
            process_call visit (returns_set_of typemod)
                         (truthy_str func_sql_function) node
                         args params_typemods v
        | Some (OperatorCall typemod args params_typemods) =>
            process_call visit (returns_set_of typemod) false node
                         args params_typemods v
        | Some e => visit e v
        | None => v
        end
  | _ => v
  end.

Definition visit_Stmt (visit : Base -> t -> t) (stmt : Base) (v : t) : t :=
  match stmt with
  | Stmt kind f =>
      let old := aggregate v in
      let v := if resets_context kind f then set_aggregate None v else v in
      let v := container_visit visit (bindings f) v in
      let v := visit_optional visit (iterator_stmt f) v in
      let v := if is_MutatingStmt kind
               then visit_optional visit (subject f) v else v in
      let v := visit (result f) v in
      let v := generic_visit_Stmt visit f v in
      set_aggregate old v
  | _ => v
  end.

(** [visit]: dispatch on the class of the node to [visit_Set],
    [visit_Stmt] or the generic visit of the children. *)
Fixpoint visit (node : Base) (v : t) {struct node} : t :=
  match node with
  | Set_ _ _ _ _ _ => visit_Set visit node v
  | Stmt _ _ => visit_Stmt visit node v
  | Pointer source => visit source v
  | CallArg expr => visit expr v
  | FunctionCall _ _ args _ => container_visit visit args v
  | OperatorCall _ args _ => container_visit visit args v
  | Other children => container_visit visit children v
  end.

End FindAggregatingUses.

(** ** The grouping elements of the source language (edb.edgeql.ast) *)

Module qlast.

(** [OtherAtom] and [OtherElement] stand for an object of any other
    class that reaches the compiler in the place of an atom or of a
    grouping element. *)
Inductive GroupingAtom : Type :=
| ObjectRef (name : string)
| GroupingIdentList (elements : list GroupingAtom)
| OtherAtom.

Inductive GroupingElement : Type :=
| GroupingSimple (element : GroupingAtom)
| GroupingSets (sets : list GroupingElement)
| GroupingOperation (oper : string) (elements : list GroupingAtom)
| OtherElement.

End qlast.

(** ** The GROUP statement (irast.GroupStmt) *)

Module GroupStmt.

Inductive Cardinality : Type :=
| UNKNOWN | AT_MOST_ONE | ONE | MANY | AT_LEAST_ONE.

(** [using_] is the insertion-ordered dict from alias to bound value. *)
Record t : Type := Mk {
  subject : irast.Base;
  using_ : list (string * irast.Base);
  by_ : list qlast.GroupingElement;
  result : irast.Base;
  group_binding : irast.Base;
  grouping_binding : option irast.Base;
  where_ : option irast.Base;
  where_card : Cardinality;
  orderby : option (list irast.Base);
  materialized_sets : list irast.Base
}.

(** [stmt.using.values()] *)
Definition using_values (stmt : t) : list irast.Base :=
  map snd (using_ stmt).

End GroupStmt.

(** ** Relations under construction and compiler contexts *)

Module context.
Import irast.

(** A relation object is known by where it comes from: the scope that
    created it, or the collaborator call that returned it. *)
Inductive Rel : Type :=
| ScopeRel (serial : nat)
| SubqueryOf (ir_set : Base) (scope : Rel)
| ArrayOf (path_id : PathId) (query : Rel).

Inductive OutputFormat : Type :=
| NATIVE | JSON | JSONB | JSON_ELEMENTS | NONE | SCRIPT.

(** A member of [ctx.materializing]: [None] or a statement. *)
Inductive Materializing : Type :=
| Unscoped
| Statement (stmt : GroupStmt.t).

Definition is_Unscoped (m : Materializing) : bool :=
  match m with Unscoped => true | Statement _ => false end.

(** [path_scope] is a chain of dicts, innermost first. *)
Definition ChainMap := list (list (PathId * option Rel)).

Record CompilerContextLevel : Type := MkLevel {
  stmt : Rel;
  rel : Rel;
  path_scope : ChainMap;
  expr_exposed : option bool;
  materializing : list Materializing;
  output_format : option OutputFormat
}.

Definition with_rel (r : Rel) (c : CompilerContextLevel) :=
  MkLevel (stmt c) r (path_scope c) (expr_exposed c) (materializing c)
          (output_format c).
Definition with_stmt (r : Rel) (c : CompilerContextLevel) :=
  MkLevel r (rel c) (path_scope c) (expr_exposed c) (materializing c)
          (output_format c).
Definition with_path_scope (p : ChainMap) (c : CompilerContextLevel) :=
  MkLevel (stmt c) (rel c) p (expr_exposed c) (materializing c)
          (output_format c).
Definition with_expr_exposed (b : bool) (c : CompilerContextLevel) :=
  MkLevel (stmt c) (rel c) (path_scope c) (Some b) (materializing c)
          (output_format c).
Definition with_materializing (m : list Materializing)
           (c : CompilerContextLevel) :=
  MkLevel (stmt c) (rel c) (path_scope c) (expr_exposed c) m
          (output_format c).
Definition with_output_format (f : OutputFormat) (c : CompilerContextLevel) :=
  MkLevel (stmt c) (rel c) (path_scope c) (expr_exposed c) (materializing c)
          (Some f).

(** [scope.new_child()] and [scope[path_id] = value] *)
Definition new_child (p : ChainMap) : ChainMap := [] :: p.

Definition dict_set {V : Type} (k : PathId) (v : V) (d : list (PathId * V))
  : list (PathId * V) :=
  (k, v) :: filter (fun kv => negb (Nat.eqb (fst kv) k)) d.

Definition chain_set (k : PathId) (v : option Rel) (p : ChainMap) : ChainMap :=
  match p with
  | [] => [[(k, v)]]
  | d :: rest => dict_set k v d :: rest
  end.

End context.

(** ** The relational tree (edb.pgsql.ast) *)

Module pgast.
Import irast context.

Inductive Aspect : Type := value | source | identity | serialized.
Inductive Flavor : Type := normal | packed.
Inductive ExprKind : Type := OP.

(** A name is a string of the code or an alias drawn from
    [ctx.env.aliases]. *)
Inductive Name : Type :=
| Str (s : string)
| Generated (hint : string) (serial : nat).

Definition Name_eqb (a b : Name) : bool :=
  match a, b with
  | Str x, Str y => String.eqb x y
  | Generated h n, Generated h' n' => String.eqb h h' && Nat.eqb n n'
  | _, _ => false
  end.

(** The node classes the compiler builds, and the values it gets back
    from its collaborators, which it only passes on: [RelRef] (a
    relation), [PathVar] (pathctx.get_path_var), [WhereClauseOf]
    (the present [where_clause] of a relation), [FilterClause] and
    [OrderbyClause] (the clause compilers), [ExtendBinop]
    (astutils.extend_binop). *)
Inductive Base : Type :=
| GroupingOperation (operation : option string) (args : list Base)
| ArrayExpr (elements : list Base)
| StringConstant (val : string)
| NullConstant
| LiteralExpr (expr : string)
| ColumnRef (name : list Name) (is_packed_multi : bool)
| FuncCall (name : list string) (args : list Base)
| Expr (kind : ExprKind) (name : string) (lexpr rexpr : Base)
| CaseWhen (expr result : Base)
| CaseExpr (arg : Base) (args : list Base) (defresult : Base)
| ResTarget (name : option Name) (val : Base)
| Alias (aliasname : Name)
| RangeSubselect (subquery : Base) (alias : Base)
| SelectStmt (target_list : list Base) (from_clause : list Base)
| RelRef (r : Rel)
| PathVar (r : Rel) (path_id : PathId) (aspect : Aspect)
| WhereClauseOf (r : Rel)
| FilterClause (where_ : irast.Base) (where_card : GroupStmt.Cardinality)
               (ctx : CompilerContextLevel)
| OrderbyClause (orderby : list irast.Base) (ctx : CompilerContextLevel)
| ExtendBinop (lexpr rexpr : Base).

(** The range variable [relctx.rvar_for_rel] makes for a relation. *)
Inductive Rvar : Type :=
| RvarForRel (r : Rel) (lateral : bool).

End pgast.

(** ** The compiler monad

    The compiler raises Python exceptions, draws aliases from the shared
    [ctx.env.aliases], opens scopes, and acts on relations through its
    collaborators (pathctx, relctx, relgen, dispatch, clauses), none of
    which is part of this file.  A computation threads the environment
    and yields, in order, the collaborator calls and the assignments to
    relations it has made; an exception keeps what was done before it was
    raised. *)

Module compiler.
Import context.

Inductive Exception : Type :=
| AssertionError (msg : string)
| KeyError (key : string).

(** One constructor per collaborator function called, with the
    arguments of the call; [assign_*] are assignments to a field of a
    relation. *)
Inductive Effect : Type :=
| put_path_id_map (r : Rel) (outer_path_id inner_path_id : irast.PathId)
| dispatch_visit (ir : irast.Base) (ctx : CompilerContextLevel)
| rvar_for_rel (r : Rel) (ctx : CompilerContextLevel) (lateral : bool)
| include_rvar (r : Rel) (rvar : pgast.Rvar) (path_id : irast.PathId)
               (flavor : pgast.Flavor) (update_mask pull_namespace : bool)
               (aspects : option (list pgast.Aspect))
               (ctx : CompilerContextLevel)
| process_set_as_agg_expr_inner (ir_set : irast.Base) (r : Rel)
               (aspect : pgast.Aspect) (for_group_by : bool)
               (ctx : CompilerContextLevel)
| get_path_value_output (r : Rel) (path_id : irast.PathId)
| put_path_value_var (r : Rel) (path_id : irast.PathId) (var : pgast.Base)
| set_as_subquery (ir_set : irast.Base) (as_value : bool)
                  (ctx : CompilerContextLevel)
| set_to_array (path_id : irast.PathId) (for_group_by : bool) (query : Rel)
               (ctx : CompilerContextLevel)
| put_path_packed_output (r : Rel) (path_id : irast.PathId) (ref : pgast.Base)
| put_path_var (r : Rel) (path_id : irast.PathId) (var : pgast.Base)
               (aspect : pgast.Aspect) (flavor : pgast.Flavor)
| get_path_var (r : Rel) (path_id : irast.PathId) (aspect : pgast.Aspect)
| rel_join (query : Rel) (rvar : pgast.Rvar) (ctx : CompilerContextLevel)
| put_path_rvar (query : Rel) (path_id : irast.PathId) (rvar : pgast.Rvar)
                (aspect : pgast.Aspect)
| compile_materialized_exprs (query : Rel) (stmt : GroupStmt.t)
                             (ctx : CompilerContextLevel)
| compile_output (ir : irast.Base) (ctx : CompilerContextLevel)
| setup_iterator_volatility (ir : irast.Base) (ctx : CompilerContextLevel)
| compile_filter_clause (ir : irast.Base) (card : GroupStmt.Cardinality)
                        (ctx : CompilerContextLevel)
| compile_orderby_clause (irs : list irast.Base) (ctx : CompilerContextLevel)
| assign_target_name (query : Rel) (name : pgast.Name)
| assign_group_clause (r : Rel) (clause : list pgast.Base)
| assign_where_clause (query : Rel) (clause : pgast.Base)
| assign_sort_clause (query : Rel) (clause : pgast.Base).

(** [aliases]: the counter behind [ctx.env.aliases]; [scopes]: how many
    relations the scope manager has created. *)
Record Env : Type := MkEnv {
  aliases : nat;
  scopes : nat
}.

Record Outcome (A : Type) : Type := MkOutcome {
  outcome : Exception + A;
  env_after : Env;
  effects : list Effect
}.

Arguments MkOutcome {A}.
Arguments outcome {A}.
Arguments env_after {A}.
Arguments effects {A}.

Definition M (A : Type) : Type := Env -> Outcome A.

Definition ret {A : Type} (a : A) : M A := fun e => MkOutcome (inr a) e [].

Definition raise {A : Type} (x : Exception) : M A :=
  fun e => MkOutcome (inl x) e [].

Definition bind {A B : Type} (m : M A) (k : A -> M B) : M B :=
  fun e =>
    let o := m e in
    match outcome o with
    | inr a =>
        let o' := k a (env_after o) in
        MkOutcome (outcome o') (env_after o') (effects o ++ effects o')
    | inl x => MkOutcome (inl x) (env_after o) (effects o)
    end.

Declare Scope compiler_scope.
Delimit Scope compiler_scope with compiler.
Notation "x <- m ;; k" := (bind m (fun x => k))
  (at level 61, m at next level, right associativity) : compiler_scope.
Notation "m ;; k" := (bind m (fun _ => k))
  (at level 61, right associativity) : compiler_scope.
Open Scope compiler_scope.

(** A call whose result the compiler does not use, or an assignment. *)
Definition call (c : Effect) : M unit :=
  fun e => MkOutcome (inr tt) e [c].

(** Modelled from the spec: [ctx.env.aliases.get(hint)] is not in the
    sources.  The generator is a counter shared by every scope; its
    advances are never rolled back. *)
Definition aliases_get (hint : string) : M pgast.Name :=
  fun e => MkOutcome (inr (pgast.Generated hint (aliases e)))
                     (MkEnv (S (aliases e)) (scopes e)) [].

(** Modelled from the spec: the scope manager of the compiler context is
    not in the sources.  [ctx.new()] opens a level with the same
    relation and statement. *)
Definition new (ctx : CompilerContextLevel) : M CompilerContextLevel :=
  ret ctx.

(** Modelled from the spec: the scope manager is not in the sources.
    [ctx.subrel()] opens a nested sub-relation scope, a level with a
    relation of its own. *)
Definition subrel (ctx : CompilerContextLevel) : M CompilerContextLevel :=
  fun e => MkOutcome (inr (with_rel (ScopeRel (scopes e)) ctx))
                     (MkEnv (aliases e) (S (scopes e))) [].

(** Modelled from the spec: the scope manager is not in the sources.
    [ctx.substmt()] opens a level whose statement is a new relation. *)
Definition substmt (ctx : CompilerContextLevel) : M CompilerContextLevel :=
  fun e => MkOutcome (inr (with_stmt (ScopeRel (scopes e))
                                     (with_rel (ScopeRel (scopes e)) ctx)))
                     (MkEnv (aliases e) (S (scopes e))) [].

(** [for x in l: body(x)] and [[f(x) for x in l]] *)
Definition for_each {A : Type} (body : A -> M unit) : list A -> M unit :=
  fix loop (l : list A) : M unit :=
    match l with
    | [] => ret tt
    | x :: l' => body x ;; loop l'
    end.

Definition comprehension {A B : Type} (f : A -> M B) : list A -> M (list B) :=
  fix loop (l : list A) : M (list B) :=
    match l with
    | [] => ret []
    | x :: l' => y <- f x ;; ys <- loop l' ;; ret (y :: ys)
    end.

(** [d[key]] on a dict with string keys *)
Fixpoint dict_lookup {V : Type} (d : list (string * V)) (key : string)
  : option V :=
  match d with
  | [] => None
  | (k, v) :: d' => if String.eqb k key then Some v else dict_lookup d' key
  end.

Definition dict_get {V : Type} (d : list (string * V)) (key : string) : M V :=
  match dict_lookup d key with
  | Some v => ret v
  | None => raise (KeyError key)
  end.

(** [d[key] = v]: a new key goes last, a known key keeps its place. *)
Fixpoint dict_put {V : Type} (d : list (string * V)) (key : string) (v : V)
  : list (string * V) :=
  match d with
  | [] => [(key, v)]
  | (k, w) :: d' =>
      if String.eqb k key then (k, v) :: d' else (k, w) :: dict_put d' key v
  end.

(** [pathctx.get_path_var]: the call is recorded and its result is the
    reference [pgast.PathVar]. *)
Definition path_var (r : Rel) (path_id : irast.PathId) (aspect : pgast.Aspect)
  : M pgast.Base :=
  call (get_path_var r path_id aspect) ;;
  ret (pgast.PathVar r path_id aspect).

(** *** compile_grouping_atom, compile_grouping_el *)

Fixpoint compile_grouping_atom (el : qlast.GroupingAtom) (stmt : GroupStmt.t)
         (ctx : CompilerContextLevel) {struct el} : M pgast.Base :=
  match el with
  | qlast.GroupingIdentList elements =>
      args <- comprehension
                (fun at_ => compile_grouping_atom at_ stmt ctx) elements ;;
      ret (pgast.GroupingOperation None args)
  | qlast.ObjectRef name =>
      alias_set <- dict_get (GroupStmt.using_ stmt) name ;;
      path_var (rel ctx) (irast.path_id_of alias_set) pgast.value
  | qlast.OtherAtom =>
      (* assert isinstance(el, qlast.ObjectRef) *)
      raise (AssertionError "")
  end.

Fixpoint compile_grouping_el (el : qlast.GroupingElement) (stmt : GroupStmt.t)
         (ctx : CompilerContextLevel) {struct el} : M pgast.Base :=
  match el with
  | qlast.GroupingSets sets =>
      args <- comprehension
                (fun sub => compile_grouping_el sub stmt ctx) sets ;;
      ret (pgast.GroupingOperation (Some "GROUPING SETS") args)
  | qlast.GroupingOperation oper elements =>
      args <- comprehension
                (fun at_ => compile_grouping_atom at_ stmt ctx) elements ;;
      ret (pgast.GroupingOperation (Some oper) args)
  | qlast.GroupingSimple element =>
      compile_grouping_atom element stmt ctx
  | qlast.OtherElement =>
      raise (AssertionError "Unknown GroupingElement")
  end.

(** *** _compile_grouping_value *)

(** Adding to an ordered set of names. *)
Definition ordered_add (name : string) (atoms : list string) : list string :=
  if existsb (String.eqb name) atoms then atoms else atoms ++ [name].

(** Modelled from the spec: [desugar_group.collect_grouping_atoms] is
    not in the sources.  It collects the set of keys actually referenced
    by the [by] elements; here, the keys under one atom, each once, in
    the order met. *)
Fixpoint collect_atom (el : qlast.GroupingAtom) (atoms : list string)
         {struct el} : list string :=
  match el with
  | qlast.ObjectRef name => ordered_add name atoms
  | qlast.GroupingIdentList elements =>
      fold_left (fun acc at_ => collect_atom at_ acc) elements atoms
  | qlast.OtherAtom => atoms
  end.

(** Modelled from the spec: as [collect_atom], for the keys under one
    grouping element. *)
Fixpoint collect_el (el : qlast.GroupingElement) (atoms : list string)
         {struct el} : list string :=
  match el with
  | qlast.GroupingSets sets =>
      fold_left (fun acc sub => collect_el sub acc) sets atoms
  | qlast.GroupingOperation _ elements =>
      fold_left (fun acc at_ => collect_atom at_ acc) elements atoms
  | qlast.GroupingSimple element => collect_atom element atoms
  | qlast.OtherElement => atoms
  end.

(** Modelled from the spec: [desugar_group.collect_grouping_atoms], not
    in the sources: the set of keys actually referenced by the [by]
    elements, each once, in the order met. *)
Definition collect_grouping_atoms (els : list qlast.GroupingElement)
  : list string :=
  fold_left (fun acc el => collect_el el acc) els [].

(** [name.split('~')[0]] *)
Fixpoint split_head (sep : ascii) (s : string) : string :=
  match s with
  | EmptyString => EmptyString
  | String c s' =>
      if Ascii.eqb c sep then EmptyString else String c (split_head sep s')
  end.

Definition tilde : ascii := "~"%char.

(** [str(mask)] of a non-negative integer *)
Definition str (n : N) : string := NilEmpty.string_of_uint (N.to_uint n).

(** [enumerate(l)] *)
Fixpoint enumerate_from {A : Type} (i : nat) (l : list A) : list (nat * A) :=
  match l with
  | [] => []
  | x :: l' => (i, x) :: enumerate_from (S i) l'
  end.

Definition enumerate {A : Type} (l : list A) : list (nat * A) :=
  enumerate_from 0 l.

(** [{k: stmt.using[k] for k in used_args}] *)
Definition used_bindings (stmt : GroupStmt.t)
  : list string -> list (string * irast.Base) -> M (list (string * irast.Base)) :=
  fix loop (used_args : list string) (acc : list (string * irast.Base)) :=
    match used_args with
    | [] => ret acc
    | k :: rest =>
        v <- dict_get (GroupStmt.using_ stmt) k ;;
        loop rest (dict_put acc k v)
    end.

(** [1 << (len(using) - i - 1)] *)
Definition mask_of (len i : nat) : N :=
  N.shiftl 1 (N.of_nat (len - i - 1)).

(** The body of the loop that fills [els]:
    [(CASE (g & mask) WHEN 0 THEN 'name' ELSE NULL END)]. *)
Definition grouping_case (grouping_ref : pgast.Base) (len : nat)
           (i : nat) (name : string) : pgast.Base :=
  let name := split_head tilde name in
  let mask := mask_of len i in
  pgast.CaseExpr
    (pgast.Expr pgast.OP "&" grouping_ref (pgast.LiteralExpr (str mask)))
    [pgast.CaseWhen (pgast.LiteralExpr "0") (pgast.StringConstant name)]
    pgast.NullConstant.

Definition _compile_grouping_value (stmt : GroupStmt.t)
           (ctx : CompilerContextLevel) : M pgast.Base :=
  if negb (truthy_opt (GroupStmt.grouping_binding stmt))
  then raise (AssertionError "")
  else
    let grouprel := rel ctx in
    let used_args := collect_grouping_atoms (GroupStmt.by_ stmt) in
    match used_args with
    | [name] =>
        (* len(used_args) == 1 *)
        ret (pgast.ArrayExpr [pgast.StringConstant (split_head tilde name)])
    | _ =>
        using_ <- used_bindings stmt used_args [] ;;
        args <- comprehension
                  (fun alias_set =>
                     path_var grouprel (irast.path_id_of alias_set) pgast.value)
                  (map snd using_) ;;
        grouping_alias <- aliases_get "g" ;;
        let grouping_call := pgast.FuncCall ["grouping"] args in
        let subq :=
          pgast.SelectStmt
            [pgast.ResTarget (Some grouping_alias) grouping_call] [] in
        subq_alias <- aliases_get "" ;;
        let from_clause :=
          [pgast.RangeSubselect subq (pgast.Alias subq_alias)] in
        let grouping_ref := pgast.ColumnRef [grouping_alias] false in
        let els :=
          map (fun '(i, name) =>
                 grouping_case grouping_ref (List.length using_) i name)
              (enumerate (map fst using_)) in
        let val :=
          pgast.FuncCall ["array_remove"]
                         [pgast.ArrayExpr els; pgast.NullConstant] in
        ret (pgast.SelectStmt [pgast.ResTarget None val] from_clause)
    end.

Definition _compile_grouping_binding (stmt : GroupStmt.t)
           (ctx : CompilerContextLevel) : M unit :=
  match GroupStmt.grouping_binding stmt with
  | None => raise (AssertionError "")
  | Some grouping_binding =>
      var <- _compile_grouping_value stmt ctx ;;
      call (put_path_var (rel ctx) (irast.path_id_of grouping_binding) var
                         pgast.value pgast.normal)
  end.

(** *** _compile_group *)

Section Orchestrator.

(** The name [relctx.set_to_array] has given to the first target of
    the query it returns, if any. *)
Variable first_target_name : Rel -> option pgast.Name.

Definition truthy_name (o : option pgast.Name) : bool :=
  match o with
  | Some (pgast.Str s) => negb (String.eqb s "")
  | Some (pgast.Generated _ _) => true
  | None => false
  end.

(** The analysis at the head of [_compile_group]:
    [visitor.visit(stmt.result)], then [visitor.sightings].  The set is
    held as the list of its members, in the order they were recorded;
    Python walks a set in an order of its own, so what is stated of the
    two loops over [group_uses] is stated up to the order of its
    members. *)
Definition group_uses_of (stmt : GroupStmt.t)
  : list FindAggregatingUses.Context :=
  let visitor :=
    FindAggregatingUses.init
      (irast.path_id_of (GroupStmt.group_binding stmt))
      (map irast.path_id_of (GroupStmt.using_values stmt)) in
  let visitor := FindAggregatingUses.visit (GroupStmt.result stmt) visitor in
  FindAggregatingUses.sightings visitor.

(** [None in group_uses] *)
Definition has_ungrouped (group_uses : list FindAggregatingUses.Context)
  : bool :=
  FindAggregatingUses.mem None group_uses.

(** The body of [with groupctx.subrel() as subjctx:]; its value is
    [subjctx] as the block leaves it. *)
Definition compile_subject (stmt : GroupStmt.t)
           (groupctx : CompilerContextLevel) : M CompilerContextLevel :=
  subjctx <- subrel groupctx ;;
  let subjctx := with_path_scope (new_child (path_scope subjctx)) subjctx in
  let subjctx :=
    with_path_scope
      (chain_set (irast.path_id_of (GroupStmt.subject stmt)) None
                 (path_scope subjctx)) subjctx in
  let subjctx := with_expr_exposed false subjctx in
  call (put_path_id_map
          (rel subjctx)
          (irast.path_id_of (GroupStmt.group_binding stmt))
          (irast.path_id_of (GroupStmt.subject stmt))) ;;
  call (dispatch_visit (GroupStmt.subject stmt) subjctx) ;;
  ret subjctx.

(** The body of [for group_use in group_uses:]. *)
Definition hoist (grouprel : Rel) (groupctx : CompilerContextLevel)
           (group_use : FindAggregatingUses.Context) : M unit :=
  match group_use with
  | None => ret tt
  | Some group_use =>
      hoistctx <- subrel groupctx ;;
      call (process_set_as_agg_expr_inner
              group_use (rel hoistctx) pgast.value true hoistctx) ;;
      call (get_path_value_output
              (rel hoistctx) (irast.path_id_of group_use)) ;;
      call (put_path_value_var
              grouprel (irast.path_id_of group_use)
              (pgast.RelRef (rel hoistctx)))
  end.

(** The body of [if None in group_uses:] after [packed = True]. *)
Definition materialize (stmt : GroupStmt.t) (grouprel : Rel)
           (ctx : CompilerContextLevel) : M unit :=
  matctx <- new (with_output_format NATIVE ctx) ;;
  let matctx :=
    with_materializing (Statement stmt :: materializing matctx) matctx in
  let matctx := with_expr_exposed true matctx in
  let group_binding := GroupStmt.group_binding stmt in
  call (set_as_subquery group_binding true matctx) ;;
  let mat_qry := SubqueryOf group_binding (rel matctx) in
  call (set_to_array (irast.path_id_of group_binding) true mat_qry matctx) ;;
  let mat_qry := ArrayOf (irast.path_id_of group_binding) mat_qry in
  name <- (match first_target_name mat_qry with
           | Some n =>
               if truthy_name (Some n) then ret n
               else (a <- aliases_get "v" ;;
                     call (assign_target_name mat_qry a) ;; ret a)
           | None =>
               a <- aliases_get "v" ;;
               call (assign_target_name mat_qry a) ;; ret a
           end) ;;
  let ref := pgast.ColumnRef [name] true in
  call (put_path_packed_output
          mat_qry (irast.path_id_of group_binding) ref) ;;
  call (put_path_var grouprel (irast.path_id_of group_binding)
                     (pgast.RelRef mat_qry) pgast.value pgast.packed).

(** The body of [with ctx.subrel() as groupctx:]; its value is the
    local [packed]. *)
Definition compile_group_scope (stmt : GroupStmt.t)
           (group_uses : list FindAggregatingUses.Context)
           (ctx groupctx : CompilerContextLevel) : M bool :=
  let grouprel := rel groupctx in
  subjctx <- compile_subject stmt groupctx ;;
  call (rvar_for_rel (rel subjctx) groupctx true) ;;
  let subj_rvar := pgast.RvarForRel (rel subjctx) true in
  call (include_rvar
          grouprel subj_rvar
          (irast.path_id_of (GroupStmt.group_binding stmt))
          pgast.normal false true None groupctx) ;;
  call (include_rvar
          grouprel subj_rvar
          (irast.path_id_of (GroupStmt.subject stmt))
          pgast.normal false true None groupctx) ;;
  let groupctx :=
    with_path_scope (new_child (path_scope subjctx)) groupctx in
  for_each (fun value => call (dispatch_visit value groupctx))
           (GroupStmt.using_values stmt) ;;
  let groupctx :=
    with_materializing (Unscoped :: materializing groupctx) groupctx in
  for_each (hoist grouprel groupctx) group_uses ;;
  let groupctx :=
    with_materializing
      (filter (fun m => negb (is_Unscoped m)) (materializing groupctx))
      groupctx in
  packed <- (if has_ungrouped group_uses
             then materialize stmt grouprel ctx ;; ret true
             else ret false) ;;
  (if truthy_opt (GroupStmt.grouping_binding stmt)
   then _compile_grouping_binding stmt groupctx
   else ret tt) ;;
  group_clause <- comprehension
                    (fun el => compile_grouping_el el stmt groupctx)
                    (GroupStmt.by_ stmt) ;;
  call (assign_group_clause grouprel group_clause) ;;
  ret packed.

Definition _compile_group (stmt : GroupStmt.t)
           (ctx parent_ctx : CompilerContextLevel) : M pgast.Base :=
  let group_uses := group_uses_of stmt in
  let query := context.stmt ctx in
  groupctx <- subrel ctx ;;
  let grouprel := rel groupctx in
  packed <- compile_group_scope stmt group_uses ctx groupctx ;;
  call (rvar_for_rel grouprel ctx true) ;;
  let group_rvar := pgast.RvarForRel grouprel true in
  (if packed : bool
   then call (include_rvar
                query group_rvar
                (irast.path_id_of (GroupStmt.group_binding stmt))
                pgast.packed false false (Some [pgast.value]) ctx)
   else call (rel_join query group_rvar ctx)) ;;
  for_each
    (fun group_use : FindAggregatingUses.Context =>
       match group_use with
       | Some group_use =>
           call (put_path_rvar query (irast.path_id_of group_use)
                               group_rvar pgast.value)
       | None => ret tt
       end)
    (group_uses ++ map Some (GroupStmt.using_values stmt)
                ++ [GroupStmt.grouping_binding stmt]) ;;
  call (compile_materialized_exprs query stmt ctx) ;;
  call (compile_output (GroupStmt.result stmt) ctx) ;;
  ictx <- new ctx ;;
  call (setup_iterator_volatility (GroupStmt.result stmt) ictx) ;;
  (match GroupStmt.where_ stmt with
   | Some where_ =>
       call (compile_filter_clause where_ (GroupStmt.where_card stmt) ctx) ;;
       call (assign_where_clause
               query
               (pgast.ExtendBinop
                  (pgast.WhereClauseOf query)
                  (pgast.FilterClause where_ (GroupStmt.where_card stmt) ctx)))
   | None => ret tt
   end) ;;
  (match GroupStmt.orderby stmt with
   | Some orderby =>
       ictx <- new ctx ;;
       call (compile_orderby_clause orderby ictx) ;;
       call (assign_sort_clause query (pgast.OrderbyClause orderby ictx))
   | None => ret tt
   end) ;;
  ret (pgast.RelRef query).

Definition compile_group (stmt : GroupStmt.t) (ctx : CompilerContextLevel)
  : M pgast.Base :=
  sctx <- substmt ctx ;;
  _compile_group stmt sctx ctx.

End Orchestrator.

End compiler.

(** ** What the emitted grouping-value expression computes

    The target engine's reading of the few constructs
    [_compile_grouping_value] emits: integer and string literals, a
    column, the bitwise [&], the simple [CASE arg WHEN ... ELSE ... END],
    an array and [array_remove]. *)

Module sql.

Inductive Value : Type :=
| VNull
| VInt (z : Z)
| VText (s : string)
| VArray (items : list Value).

(** [a = b] as a [CASE] branch tests it: never true on a null. *)
Definition equal (a b : Value) : bool :=
  match a, b with
  | VInt x, VInt y => Z.eqb x y
  | VText x, VText y => String.eqb x y
  | _, _ => false
  end.

(** [a IS NOT DISTINCT FROM b], the test of [array_remove]. *)
Definition not_distinct (a b : Value) : bool :=
  match a, b with
  | VNull, VNull => true
  | _, _ => equal a b
  end.

Definition sequence (l : list (option Value)) : option (list Value) :=
  fold_right
    (fun o acc =>
       match o, acc with
       | Some v, Some vs => Some (v :: vs)
       | _, _ => None
       end)
    (Some []) l.

Definition is_name (name : list string) (s : string) : bool :=
  match name with
  | [n] => String.eqb n s
  | _ => false
  end.

(** [column] gives the value of the columns in scope.  An array
    constructor with no element is read as the array with no element;
    the engine wants such a constructor typed, so on that case the
    reading is this definition's own. *)
Fixpoint eval (column : pgast.Name -> option Value) (e : pgast.Base)
         {struct e} : option Value :=
  match e with
  | pgast.StringConstant val => Some (VText val)
  | pgast.NullConstant => Some VNull
  | pgast.LiteralExpr expr =>
      option_map (fun d => VInt (Z.of_uint d)) (NilEmpty.uint_of_string expr)
  | pgast.ColumnRef [n] _ => column n
  | pgast.Expr pgast.OP name lexpr rexpr =>
      if String.eqb name "&" then
        match eval column lexpr, eval column rexpr with
        | Some (VInt a), Some (VInt b) => Some (VInt (Z.land a b))
        | _, _ => None
        end
      else None
  | pgast.CaseExpr arg args defresult =>
      match eval column arg with
      | Some a =>
          (fix first (whens : list pgast.Base) : option Value :=
             match whens with
             | [] => eval column defresult
             | pgast.CaseWhen expr result :: rest =>
                 match eval column expr with
                 | Some c => if equal a c then eval column result
                             else first rest
                 | None => None
                 end
             | _ :: _ => None
             end) args
      | None => None
      end
  | pgast.ArrayExpr elements =>
      option_map VArray (sequence (map (eval column) elements))
  | pgast.FuncCall name [arr; x] =>
      if is_name name "array_remove" then
        match eval column arr, eval column x with
        | Some (VArray items), Some v =>
            Some (VArray (filter (fun i => negb (not_distinct i v)) items))
        | _, _ => None
        end
      else None
  | _ => None
  end.

(** The scope of the outer query of a grouping value: the one column of
    its sub-query, holding the grouping indicator. *)
Definition indicator_column (alias : pgast.Name) (indicator : Z)
  : pgast.Name -> option Value :=
  fun n => if pgast.Name_eqb n alias then Some (VInt indicator) else None.

End sql.

(** ** Vocabulary of the statements proved below *)

Module props.
Import irast context compiler FindAggregatingUses.

(** [ir_set] is a Set whose expression is a call backed by an SQL
    function, not returning a set, with a set-accepting parameter: the
    only Sets [process_call] installs as a context. *)
Definition is_aggregate_use (ir_set : Base) : bool :=
  match ir_set with
  | Set_ _ _ _ _ (Some (FunctionCall func_sql_function typemod _ params_typemods)) =>
      truthy_str func_sql_function
      && negb (FindAggregatingUses.returns_set_of typemod)
      && existsb (fun tm => qltypes.eqb tm qltypes.SetOfType) params_typemods
  | _ => false
  end.

Definition aggregate_context (c : FindAggregatingUses.Context) : Prop :=
  match c with
  | None => True
  | Some ir_set => is_aggregate_use ir_set = true
  end.

(** The visitor with the sightings forgotten: what a subtree is
    visited under, whatever was visited before. *)
Definition fresh (v : FindAggregatingUses.t) : FindAggregatingUses.t :=
  FindAggregatingUses.Mk (FindAggregatingUses.target v)
                         (FindAggregatingUses.to_skip v)
                         (FindAggregatingUses.aggregate v) [].

(** A context change around a sub-walk, undone afterwards. *)
Definition scoped (c : FindAggregatingUses.Context -> FindAggregatingUses.Context)
           (walk : FindAggregatingUses.t -> FindAggregatingUses.t)
  : FindAggregatingUses.t -> FindAggregatingUses.t :=
  fun v =>
    FindAggregatingUses.set_aggregate
      (FindAggregatingUses.aggregate v)
      (walk (FindAggregatingUses.set_aggregate
               (c (FindAggregatingUses.aggregate v)) v)).

(** The context changes [process_call] makes below a Set. *)
Inductive installs : Base -> (FindAggregatingUses.Context ->
                              FindAggregatingUses.Context) -> Prop :=
| installs_function uid path_id rptr shape fsf typemod args ptms tm :
    In tm ptms ->
    installs (Set_ uid path_id rptr shape
                   (Some (FunctionCall fsf typemod args ptms)))
             (FindAggregatingUses.argument_context
                (FindAggregatingUses.returns_set_of typemod)
                (truthy_str fsf) tm
                (Set_ uid path_id rptr shape
                      (Some (FunctionCall fsf typemod args ptms))))
| installs_operator uid path_id rptr shape typemod args ptms tm :
    In tm ptms ->
    installs (Set_ uid path_id rptr shape
                   (Some (OperatorCall typemod args ptms)))
             (FindAggregatingUses.argument_context
                (FindAggregatingUses.returns_set_of typemod)
                false tm
                (Set_ uid path_id rptr shape
                      (Some (OperatorCall typemod args ptms)))).

(** [any(f(a, b) for a, b in zip(l1, l2))] *)
Definition exists_zip {A B : Type} (f : A -> B -> bool)
  : list A -> list B -> bool :=
  fix loop (l1 : list A) (l2 : list B) : bool :=
    match l1, l2 with
    | a :: l1', b :: l2' => f a b || loop l1' l2'
    | _, _ => false
    end.

Definition exists_opt {A : Type} (f : A -> bool) (o : option A) : bool :=
  match o with Some a => f a | None => false end.

(** Does the group binding occur in [node], in a place the analyzer
    walks (not below a skipped path, not in the materialized sets of a
    statement)?  With [aware], an occurrence counts only when it lies
    outside every argument position where the call is backed by an SQL
    function, does not return a set, and the parameter accepts a set;
    [inside] tells that such a position encloses [node]. *)
Fixpoint occurs (aware : bool) (target : PathId) (to_skip : list PathId)
         (inside : bool) (node : Base) {struct node} : bool :=
  let go := occurs aware target to_skip in
  let go_args (calls_sql_func returns_set : bool) :=
    exists_zip
      (fun arg tm =>
         go (inside
             || (aware && calls_sql_func && negb returns_set
                 && qltypes.eqb tm qltypes.SetOfType)) arg) in
  match node with
  | Set_ _ path_id rptr shape expr =>
      if existsb (Nat.eqb path_id) to_skip then false
      else if Nat.eqb path_id target then negb inside
      else
        exists_opt (go inside) rptr
        || existsb (go inside) shape
        || match expr with
           | Some (FunctionCall fsf typemod args ptms) =>
               go_args (truthy_str fsf) (returns_set_of typemod) args ptms
           | Some (OperatorCall typemod args ptms) =>
               go_args false (returns_set_of typemod) args ptms
           | Some e => go inside e
           | None => false
           end
  | Stmt _ f =>
      existsb (go inside) (bindings f)
      || exists_opt (go inside) (iterator_stmt f)
      || exists_opt (go inside) (subject f)
      || go inside (result f)
      || exists_opt (go inside) (where_ f)
      || existsb (go inside) (orderby f)
      || exists_opt (go inside) (offset f)
      || exists_opt (go inside) (limit f)
      || existsb (go inside) (others f)
  | Pointer source => go inside source
  | CallArg expr => go inside expr
  | FunctionCall _ _ args _ => existsb (go inside) args
  | OperatorCall _ args _ => existsb (go inside) args
  | Other children => existsb (go inside) children
  end.

(** The analyzer reaches an occurrence of the group binding in [node]. *)
Definition reached (target : PathId) (to_skip : list PathId) (node : Base)
  : bool :=
  occurs false target to_skip false node.

(** Every occurrence of the group binding in the result lies inside
    such an argument position. *)
Definition only_in_aggregate_arguments (stmt : GroupStmt.t) : bool :=
  negb (occurs true
          (path_id_of (GroupStmt.group_binding stmt))
          (map path_id_of (GroupStmt.using_values stmt))
          false (GroupStmt.result stmt)).

(** Properties of a walk [f] of the analyzer: it leaves the target,
    the skip-set and the context as they were ([framed]); what it adds
    to the sightings does not depend on the sightings before
    ([adds_to]); it records nothing but the ungrouped context and
    aggregate calls ([keeps_aggregates]). *)
Definition frame (v v' : FindAggregatingUses.t) : Prop :=
  target v' = target v /\ to_skip v' = to_skip v /\ aggregate v' = aggregate v.

Definition framed (f : FindAggregatingUses.t -> FindAggregatingUses.t) : Prop :=
  forall v, frame v (f v).

Definition adds_to (f : FindAggregatingUses.t -> FindAggregatingUses.t) : Prop :=
  forall v c,
    mem c (sightings (f v))
    = mem c (sightings v) || mem c (sightings (f (fresh v))).

Definition independent (f : FindAggregatingUses.t -> FindAggregatingUses.t)
  : Prop :=
  framed f /\ adds_to f.

Definition keeps_aggregates (f : FindAggregatingUses.t -> FindAggregatingUses.t)
  : Prop :=
  framed f /\
  forall v, aggregate_context (aggregate v) ->
            Forall aggregate_context (sightings v) ->
            Forall aggregate_context (sightings (f v)).

(** An occurrence that the walk meets is recorded.  [found]: the
    sightings are not empty or, for the aware reading of [occurs], hold
    the ungrouped context; [home]: the visitor looks for [tgt], skips
    [skip] and, for the aware reading, is in the ungrouped context;
    [recorded]: visiting a node where the target occurs ends with a
    sighting found. *)
Definition home (aware : bool) (tgt : PathId) (skip : list PathId)
           (v : FindAggregatingUses.t) : Prop :=
  target v = tgt /\ to_skip v = skip /\ (aware = true -> aggregate v = None).

Definition found (aware : bool) (v : FindAggregatingUses.t) : Prop :=
  if aware then mem None (sightings v) = true else sightings v <> [].

Definition keeps_found (aware : bool)
           (f : FindAggregatingUses.t -> FindAggregatingUses.t) : Prop :=
  forall v, found aware v -> found aware (f v).

Definition recorded (aware : bool) (tgt : PathId) (skip : list PathId)
           (n : Base) : Prop :=
  forall v, home aware tgt skip v -> occurs aware tgt skip false n = true ->
            found aware (visit n v).

(** What one argument of a call records, visited after nothing else. *)
Definition argument_sightings (rs sql : bool) (ir_set : Base)
           (v : FindAggregatingUses.t) (c : Context)
           (pair : Base * qltypes.TypeModifier) : bool :=
  mem c (sightings
           (visit (fst pair)
                  (set_aggregate
                     (argument_context rs sql (snd pair) ir_set (aggregate v))
                     (fresh v)))).

(** [total m]: [m] raises nothing. *)
Definition total {A : Type} (m : M A) : Prop :=
  forall e, exists a, outcome (m e) = inr a.

(** [only P m]: every effect of [m] is in the class [P]. *)
Definition only {A : Type} (P : Effect -> bool) (m : M A) : Prop :=
  forall e, Forall (fun c => P c = true) (effects (m e)).

(** Classes of effects. *)
Definition is_set_to_array (c : Effect) : bool :=
  match c with set_to_array _ _ _ _ => true | _ => false end.

Definition is_packed_put_path_var (c : Effect) : bool :=
  match c with put_path_var _ _ _ _ pgast.packed => true | _ => false end.

Definition is_get_path_var (c : Effect) : bool :=
  match c with get_path_var _ _ _ => true | _ => false end.

(** What the set-up of the scopes, the hoisting of an aggregate, the
    grouping value and clause, and the compilation downstream of the
    group relation may emit. *)
Definition is_plumbing (c : Effect) : bool :=
  match c with
  | put_path_id_map _ _ _ | dispatch_visit _ _ | rvar_for_rel _ _ _ => true
  | _ => false
  end.

Definition is_hoist_effect (c : Effect) : bool :=
  match c with
  | process_set_as_agg_expr_inner _ _ _ _ _
  | get_path_value_output _ _
  | put_path_value_var _ _ _ => true
  | _ => false
  end.

Definition is_grouping_effect (c : Effect) : bool :=
  match c with
  | get_path_var _ _ _
  | put_path_var _ _ _ pgast.value pgast.normal
  | assign_group_clause _ _ => true
  | _ => false
  end.

Definition is_downstream_effect (c : Effect) : bool :=
  match c with
  | put_path_rvar _ _ _ _
  | compile_materialized_exprs _ _ _
  | compile_output _ _
  | setup_iterator_volatility _ _
  | compile_filter_clause _ _ _
  | compile_orderby_clause _ _
  | assign_where_clause _ _
  | assign_sort_clause _ _ => true
  | _ => false
  end.

(** An [include_rvar] of the range variable of the relation that the
    scope manager created as number [serial]. *)
Definition attaches_rvar_of (serial : nat) (c : Effect) : bool :=
  match c with
  | include_rvar _ (pgast.RvarForRel (ScopeRel n) _) _ _ _ _ _ _ =>
      Nat.eqb n serial
  | _ => false
  end.

(** How the group relation is joined into the parent query. *)
Definition is_parent_attachment (c : Effect) : bool :=
  match c with
  | include_rvar _ _ _ pgast.packed _ _ _ _ => true
  | rel_join _ _ _ => true
  | _ => false
  end.

Section Mask.
(** The masks of output columns, and what an attachment that updates the
    mask of a relation makes of it. *)
Variable Mask : Type.
Variable update : Rel -> irast.PathId -> Mask -> Mask.

(** Modelled from the spec: [relctx.include_rvar] is not in the sources.
    It attaches a relation-variable into a relation under a PathId; a
    flag suppresses the update of the relation's active output-column
    mask that the attachment makes otherwise.  No other call is taken to
    touch the mask. *)
Definition mask_after (m : Mask) (c : Effect) : Mask :=
  match c with
  | include_rvar r _ path_id _ true _ _ _ => update r path_id m
  | _ => m
  end.
End Mask.

(** A grouping element made of the recognized shapes only. *)
Fixpoint recognized_atom (el : qlast.GroupingAtom) : bool :=
  match el with
  | qlast.ObjectRef _ => true
  | qlast.GroupingIdentList elements => forallb recognized_atom elements
  | qlast.OtherAtom => false
  end.

Fixpoint recognized_el (el : qlast.GroupingElement) : bool :=
  match el with
  | qlast.GroupingSimple element => recognized_atom element
  | qlast.GroupingSets sets => forallb recognized_el sets
  | qlast.GroupingOperation _ elements => forallb recognized_atom elements
  | qlast.OtherElement => false
  end.

(** Every atom of the element is bound in [stmt.using]. *)
Fixpoint bound_atom (stmt : GroupStmt.t) (el : qlast.GroupingAtom) : bool :=
  match el with
  | qlast.ObjectRef name => truthy_opt (dict_lookup (GroupStmt.using_ stmt) name)
  | qlast.GroupingIdentList elements => forallb (bound_atom stmt) elements
  | qlast.OtherAtom => true
  end.

Fixpoint bound_el (stmt : GroupStmt.t) (el : qlast.GroupingElement) : bool :=
  match el with
  | qlast.GroupingSimple element => bound_atom stmt element
  | qlast.GroupingSets sets => forallb (bound_el stmt) sets
  | qlast.GroupingOperation _ elements => forallb (bound_atom stmt) elements
  | qlast.OtherElement => true
  end.

Definition is_AssertionError {A : Type} (o : Exception + A) : bool :=
  match o with
  | inl (AssertionError _) => true
  | _ => false
  end.

(** The names picked by the indicator: key [i] of [n] is kept when bit
    [n - 1 - i] of the indicator is clear. *)
Definition grouped_on (indicator : Z) (keys : list string) : list string :=
  map (fun '(i, name) => split_head tilde name)
      (filter (fun '(i, _) =>
                 Z.eqb (Z.land indicator (Z.of_N (mask_of (List.length keys) i))) 0)
              (enumerate keys)).

(** *** Vocabulary of the further properties *)

(** What the analyzer records, read off the tree: visiting [node] in the
    context [ctx] meets the group binding in the context [c]. *)
Fixpoint seen (target : PathId) (to_skip : list PathId) (c : Context)
         (ctx : Context) (node : Base) {struct node} : bool :=
  let go := seen target to_skip c in
  let go_args (returns_set calls_sql_func : bool) :=
    exists_zip
      (fun arg tm =>
         go (argument_context returns_set calls_sql_func tm node ctx) arg) in
  match node with
  | Set_ _ path_id rptr shape expr =>
      if existsb (Nat.eqb path_id) to_skip then false
      else if Nat.eqb path_id target then same_context c ctx
      else
        exists_opt (go ctx) rptr
        || existsb (go ctx) shape
        || match expr with
           | Some (FunctionCall fsf typemod args ptms) =>
               go_args (returns_set_of typemod) (truthy_str fsf) args ptms
           | Some (OperatorCall typemod args ptms) =>
               go_args (returns_set_of typemod) false args ptms
           | Some e => go ctx e
           | None => false
           end
  | Stmt kind f =>
      let ctx := if resets_context kind f then None else ctx in
      existsb (go ctx) (bindings f)
      || exists_opt (go ctx) (iterator_stmt f)
      || exists_opt (go ctx) (subject f)
      || go ctx (result f)
      || exists_opt (go ctx) (where_ f)
      || existsb (go ctx) (orderby f)
      || exists_opt (go ctx) (offset f)
      || exists_opt (go ctx) (limit f)
      || existsb (go ctx) (others f)
  | Pointer source => go ctx source
  | CallArg expr => go ctx expr
  | FunctionCall _ _ args _ => existsb (go ctx) args
  | OperatorCall _ args _ => existsb (go ctx) args
  | Other children => existsb (go ctx) children
  end.

(** The visitor looks for [tgt], skips [skip] and is in the context
    [ctx]. *)
Definition at_home (tgt : PathId) (skip : list PathId) (ctx : Context)
           (v : FindAggregatingUses.t) : Prop :=
  target v = tgt /\ to_skip v = skip /\ aggregate v = ctx.

(** The sightings after visiting [n] are those before and those [seen]
    tells. *)
Definition tells (tgt : PathId) (skip : list PathId) (c : Context)
           (n : Base) : Prop :=
  forall ctx v, at_home tgt skip ctx v ->
    mem c (sightings (visit n v))
    = mem c (sightings v) || seen tgt skip c ctx n.

(** Some node of the tree [node], [node] included, satisfies [P]. *)
Fixpoint within (P : Base -> bool) (node : Base) {struct node} : bool :=
  P node
  || match node with
     | Set_ _ _ rptr shape expr =>
         exists_opt (within P) rptr || existsb (within P) shape
         || exists_opt (within P) expr
     | Stmt _ f =>
         existsb (within P) (bindings f)
         || exists_opt (within P) (iterator_stmt f)
         || exists_opt (within P) (subject f)
         || within P (result f)
         || exists_opt (within P) (where_ f)
         || existsb (within P) (orderby f)
         || exists_opt (within P) (offset f)
         || exists_opt (within P) (limit f)
         || existsb (within P) (materialized_sets f)
         || existsb (within P) (others f)
     | Pointer source => within P source
     | CallArg expr => within P expr
     | FunctionCall _ _ args _ => existsb (within P) args
     | OperatorCall _ args _ => existsb (within P) args
     | Other children => existsb (within P) children
     end.

(** [node] is the object [s], an aggregate call (one backed by an SQL
    function, returning no set, with a set-accepting parameter) in which
    the analyzer reaches the group binding. *)
Definition aggregate_over (target : PathId) (to_skip : list PathId)
           (s : Base) (node : Base) : bool :=
  Nat.eqb (uid_of node) (uid_of s)
  && is_aggregate_use node
  && reached target to_skip node.

(** The key a set of contexts compares its members on. *)
Definition context_key (c : Context) : option nat := option_map uid_of c.

(** A context [Some s] seen in [n] is the context at entry or that of an
    aggregate call of [n]. *)
Definition enclosed (tgt : PathId) (skip : list PathId) (s : Base)
           (n : Base) : Prop :=
  forall ctx, seen tgt skip (Some s) ctx n = true ->
              same_context (Some s) ctx = true
              \/ within (aggregate_over tgt skip s) n = true.

(** The references to keys under an atom and under a grouping element,
    in the order [compile_grouping_atom] and [compile_grouping_el] meet
    them, repeats included. *)
Fixpoint atom_refs (el : qlast.GroupingAtom) : list string :=
  match el with
  | qlast.ObjectRef name => [name]
  | qlast.GroupingIdentList elements => flat_map atom_refs elements
  | qlast.OtherAtom => []
  end.

Fixpoint el_refs (el : qlast.GroupingElement) : list string :=
  match el with
  | qlast.GroupingSimple element => atom_refs element
  | qlast.GroupingSets sets => flat_map el_refs sets
  | qlast.GroupingOperation _ elements => flat_map atom_refs elements
  | qlast.OtherElement => []
  end.

(** The first of the names that [stmt.using] does not bind, and the
    path lookups made for the names before it. *)
Fixpoint first_unbound (stmt : GroupStmt.t) (names : list string)
  : option string :=
  match names with
  | [] => None
  | name :: rest =>
      match dict_lookup (GroupStmt.using_ stmt) name with
      | Some _ => first_unbound stmt rest
      | None => Some name
      end
  end.

Fixpoint looked_up (stmt : GroupStmt.t) (r : Rel) (names : list string)
  : list Effect :=
  match names with
  | [] => []
  | name :: rest =>
      match dict_lookup (GroupStmt.using_ stmt) name with
      | Some alias_set =>
          get_path_var r (path_id_of alias_set) pgast.value
          :: looked_up stmt r rest
      | None => []
      end
  end.

(** A computation that looks up [names] in order and stops, with the
    [KeyError], at the first that is not bound; it draws no alias and
    opens no scope. *)
Definition looks_up {A : Type} (stmt : GroupStmt.t) (r : Rel)
           (names : list string) (m : M A) : Prop :=
  forall e,
    effects (m e) = looked_up stmt r names
    /\ env_after (m e) = e
    /\ match first_unbound stmt names with
       | Some k => outcome (m e) = inl (KeyError k)
       | None => exists v, outcome (m e) = inr v
       end.

(** The Sets that [stmt.using] binds to the names. *)
Definition bound_sets (stmt : GroupStmt.t) (names : list string) : list Base :=
  flat_map (fun name =>
              match dict_lookup (GroupStmt.using_ stmt) name with
              | Some alias_set => [alias_set]
              | None => []
              end) names.

(** The engine's [GROUPING(k_0, ..., k_{N-1})] on a row of the grouping
    set that includes key [i] exactly when [included[i]] holds: bit
    [N - 1 - i] is 1 when key [i] is not included, the leftmost argument
    being the most significant bit. *)
Fixpoint grouping_indicator (included : list bool) : Z :=
  match included with
  | [] => 0
  | b :: rest =>
      ((if b then 0 else Z.shiftl 1 (Z.of_nat (List.length rest)))
       + grouping_indicator rest)%Z
  end.

(** The keys of a grouping set. *)
Definition selected (included : list bool) (keys : list string) : list string :=
  map snd (filter fst (combine included keys)).


(** [[s for s in group_uses if s]]: the contexts that are Sets. *)
Definition aggregates (group_uses : list Context) : list Base :=
  flat_map (fun c => match c with Some s => [s] | None => [] end) group_uses.

(** The contexts [_compile_group] makes for the subject, for the
    bindings and for the hoisted aggregates, from the context of the
    group relation; [serial] numbers the relation of the subject. *)
Definition subject_context (stmt : GroupStmt.t) (groupctx : CompilerContextLevel)
           (serial : nat) : CompilerContextLevel :=
  with_expr_exposed false
    (with_path_scope
       (chain_set (path_id_of (GroupStmt.subject stmt)) None
                  (new_child (path_scope groupctx)))
       (with_rel (ScopeRel serial) groupctx)).

Definition binding_context (stmt : GroupStmt.t) (groupctx : CompilerContextLevel)
  : CompilerContextLevel :=
  with_path_scope
    (new_child (chain_set (path_id_of (GroupStmt.subject stmt)) None
                          (new_child (path_scope groupctx))))
    groupctx.

Definition hoist_context (stmt : GroupStmt.t) (groupctx : CompilerContextLevel)
  : CompilerContextLevel :=
  with_materializing (Unscoped :: materializing groupctx)
                     (binding_context stmt groupctx).

(** The calls that hoist the aggregates [aggs] into relations numbered
    from [first] on. *)
Definition hoisted (grouprel : Rel) (hoistctx : CompilerContextLevel)
           (first : nat) (aggs : list Base) : list Effect :=
  flat_map
    (fun '(serial, s) =>
       [process_set_as_agg_expr_inner s (ScopeRel serial) pgast.value true
                                      (with_rel (ScopeRel serial) hoistctx);
        get_path_value_output (ScopeRel serial) (path_id_of s);
        put_path_value_var grouprel (path_id_of s)
                           (pgast.RelRef (ScopeRel serial))])
    (enumerate_from first aggs).

Definition is_dispatch_visit (c : Effect) : bool :=
  match c with dispatch_visit _ _ => true | _ => false end.

Definition is_put_path_rvar (c : Effect) : bool :=
  match c with put_path_rvar _ _ _ _ => true | _ => false end.

Definition is_clause_effect (c : Effect) : bool :=
  match c with
  | compile_filter_clause _ _ _ | assign_where_clause _ _
  | compile_orderby_clause _ _ | assign_sort_clause _ _ => true
  | _ => false
  end.

Definition is_naming_effect (c : Effect) : bool :=
  match c with
  | assign_target_name _ _ | put_path_packed_output _ _ _ => true
  | _ => false
  end.

(** What the materialization emits. *)
Definition is_materialize_effect (c : Effect) : bool :=
  match c with
  | set_as_subquery _ _ _ | set_to_array _ _ _ _
  | assign_target_name _ _ | put_path_packed_output _ _ _
  | put_path_var _ _ _ pgast.value pgast.packed => true
  | _ => false
  end.

(** The relation an effect acts on, when it acts on the parent query
    [query]: an attachment, a registration of a range variable, a
    clause or the compilation of the output. *)
Definition touches_query (c : Effect) : bool :=
  is_parent_attachment c || is_downstream_effect c.

(** The registrations of the group relation's range variable in the
    parent query, and the effects of the FILTER and ORDER BY clauses. *)
Definition registrations (query : Rel) (group_rvar : pgast.Rvar)
           (stmt : GroupStmt.t) (group_uses : list Context) : list Effect :=
  map (fun s => put_path_rvar query (path_id_of s) group_rvar pgast.value)
      (aggregates (group_uses ++ map Some (GroupStmt.using_values stmt)
                              ++ [GroupStmt.grouping_binding stmt])).

Definition where_effects (query : Rel) (stmt : GroupStmt.t)
           (ctx : CompilerContextLevel) : list Effect :=
  match GroupStmt.where_ stmt with
  | Some where_ =>
      [compile_filter_clause where_ (GroupStmt.where_card stmt) ctx;
       assign_where_clause
         query
         (pgast.ExtendBinop
            (pgast.WhereClauseOf query)
            (pgast.FilterClause where_ (GroupStmt.where_card stmt) ctx))]
  | None => []
  end.

Definition orderby_effects (query : Rel) (stmt : GroupStmt.t)
           (ctx : CompilerContextLevel) : list Effect :=
  match GroupStmt.orderby stmt with
  | Some orderby =>
      [compile_orderby_clause orderby ctx;
       assign_sort_clause query (pgast.OrderbyClause orderby ctx)]
  | None => []
  end.

(** The context of the group relation once the hoisting is over. *)
Definition closing_context (stmt : GroupStmt.t) (groupctx : CompilerContextLevel)
  : CompilerContextLevel :=
  with_materializing
    (filter (fun m => negb (is_Unscoped m))
            (materializing (hoist_context stmt groupctx)))
    (hoist_context stmt groupctx).

(** The end of the body of [with ctx.subrel() as groupctx:], from
    [packed = False] on: the materialization, the grouping binding and
    the grouping clause. *)
Definition scope_end (first_target_name : Rel -> option pgast.Name)
           (stmt : GroupStmt.t) (group_uses : list Context)
           (ctx groupctx : CompilerContextLevel) : M bool :=
  (packed <- (if has_ungrouped group_uses
              then materialize first_target_name stmt (rel groupctx) ctx ;;
                   ret true
              else ret false) ;;
   (if truthy_opt (GroupStmt.grouping_binding stmt)
    then _compile_grouping_binding stmt (closing_context stmt groupctx)
    else ret tt) ;;
   group_clause <- comprehension
                     (fun el =>
                        compile_grouping_el el stmt
                                            (closing_context stmt groupctx))
                     (GroupStmt.by_ stmt) ;;
   call (assign_group_clause (rel groupctx) group_clause) ;;
   ret packed)%compiler.

(** The calls of the group scope up to the end of the hoisting. *)
Definition scope_front (stmt : GroupStmt.t) (group_uses : list Context)
           (groupctx : CompilerContextLevel) (serial : nat) : list Effect :=
  [put_path_id_map (ScopeRel serial)
     (path_id_of (GroupStmt.group_binding stmt))
     (path_id_of (GroupStmt.subject stmt));
   dispatch_visit (GroupStmt.subject stmt)
                  (subject_context stmt groupctx serial);
   rvar_for_rel (ScopeRel serial) groupctx true;
   include_rvar (rel groupctx) (pgast.RvarForRel (ScopeRel serial) true)
     (path_id_of (GroupStmt.group_binding stmt))
     pgast.normal false true None groupctx;
   include_rvar (rel groupctx) (pgast.RvarForRel (ScopeRel serial) true)
     (path_id_of (GroupStmt.subject stmt))
     pgast.normal false true None groupctx]
    ++ map (fun v => dispatch_visit v (binding_context stmt groupctx))
           (GroupStmt.using_values stmt)
    ++ hoisted (rel groupctx) (hoist_context stmt groupctx) (S serial)
               (aggregates group_uses).

(** The effects of the end of the group scope. *)
Definition is_closing_effect (c : Effect) : bool :=
  is_materialize_effect c || is_grouping_effect c.

(** The effects of the front of the group scope. *)
Definition is_front_effect (c : Effect) : bool :=
  is_plumbing c || is_hoist_effect c
  || match c with
     | include_rvar _ _ _ pgast.normal _ _ _ _ => true
     | _ => false
     end.

(** How [_compile_group] attaches the group relation to the parent
    query. *)
Definition attachment (stmt : GroupStmt.t) (ctx : CompilerContextLevel)
           (grouprel : Rel) (packed : bool) : Effect :=
  if packed
  then include_rvar (context.stmt ctx) (pgast.RvarForRel grouprel true)
                    (path_id_of (GroupStmt.group_binding stmt))
                    pgast.packed false false (Some [pgast.value]) ctx
  else rel_join (context.stmt ctx) (pgast.RvarForRel grouprel true) ctx.

(** The call is no attachment that updates a mask of output columns. *)
Definition keeps_mask (c : Effect) : bool :=
  match c with
  | include_rvar _ _ _ _ true _ _ _ => false
  | _ => true
  end.

Definition is_assign_group_clause (c : Effect) : bool :=
  match c with assign_group_clause _ _ => true | _ => false end.

(** A path lookup, or the registration of the grouping value. *)
Definition is_lookup_effect (c : Effect) : bool :=
  match c with
  | get_path_var _ _ _ | put_path_var _ _ _ pgast.value pgast.normal => true
  | _ => false
  end.

End props.

(** ** Statements used as test inputs *)

Module examples.
Import irast.

(** PathIds: 1 the group binding, 2 and 3 the keys [a] and [b], 4 the
    subject, 5 the grouping binding; the remaining ones are free. *)
Definition g (uid : nat) : Base := Set_ uid 1 None [] None.
Definition key_a : Base := Set_ 10 2 None [] None.
Definition key_b : Base := Set_ 11 3 None [] None.
Definition subject : Base := Set_ 12 4 None [] None.
Definition grouping : Base := Set_ 13 5 None [] None.

(** [count(arg)] and [array_agg(arg)]: one set-accepting parameter. *)
Definition count (uid : nat) (arg : Base) : Base :=
  Set_ uid 20 None []
       (Some (FunctionCall (Some "count") qltypes.SingletonType
                           [CallArg arg] [qltypes.SetOfType])).

Definition array_agg (uid : nat) (arg : Base) : Base :=
  Set_ uid 21 None []
       (Some (FunctionCall (Some "array_agg") qltypes.SingletonType
                           [CallArg arg] [qltypes.SetOfType])).

(** A tuple of Sets. *)
Definition tuple (uid : nat) (elements : list Base) : Base :=
  Set_ uid 22 None [] (Some (Other elements)).

(** [g.a]: a path whose PathId is that of the key [a]. *)
Definition g_a : Base := Set_ 14 2 (Some (Pointer (g 15))) [] None.

Definition fields (result : Base) (orderby : list Base)
           (materialized_sets : list Base) : StmtFields Base :=
  MkStmtFields [] None None result None orderby None None
               materialized_sets [].

(** [(SELECT result ORDER BY a)] as a Set. *)
Definition select_ordered (uid : nat) (result : Base) : Base :=
  Set_ uid 23 None [] (Some (Stmt SelectStmt (fields result [key_a] []))).

(** A nested GROUP, as a Set, that carries an ORDER BY and a
    materialized set. *)
Definition nested_group (uid : nat) (result : Base) : Base :=
  Set_ uid 24 None []
       (Some (Stmt GroupStmt (fields result [key_a] [key_b]))).

Definition by_a : list qlast.GroupingElement :=
  [qlast.GroupingSimple (qlast.ObjectRef "a")].

Definition by_sets : list qlast.GroupingElement :=
  [qlast.GroupingSets [qlast.GroupingSimple (qlast.ObjectRef "a");
                       qlast.GroupingSimple (qlast.ObjectRef "b")]].

Definition group (by_ : list qlast.GroupingElement) (result : Base)
           (where_ : option Base) (orderby : option (list Base))
  : GroupStmt.t :=
  GroupStmt.Mk subject [("a", key_a); ("b", key_b)] by_ result (g 1)
               (Some grouping) where_ GroupStmt.UNKNOWN orderby [].

(** Scenario A: [GROUP x BY x.a]. *)
Definition scenario_A : GroupStmt.t := group by_a (g 2) None None.
(** Scenario B: [GROUP x BY {x.a, x.b}]. *)
Definition scenario_B : GroupStmt.t := group by_sets (g 2) None None.
(** Scenario C: the result is [(count(g), g.a)]. *)
Definition scenario_C : GroupStmt.t :=
  group by_a (tuple 30 [count 31 (g 2); g_a]) None None.
(** Scenario D: the result is [(array_agg(g), g)]. *)
Definition scenario_D : GroupStmt.t :=
  group by_a (tuple 30 [array_agg 31 (g 2); g 3]) None None.
(** The result is [count((SELECT g ORDER BY a))]. *)
Definition ordered_in_count : GroupStmt.t :=
  group by_a (count 31 (select_ordered 32 (g 2))) None None.
(** The result is the key [a]; the filter and the ordering are the
    group binding. *)
Definition filtered_on_group : GroupStmt.t :=
  group by_a key_a (Some (g 2)) (Some [g 3]).

Definition ctx : context.CompilerContextLevel :=
  context.MkLevel (context.ScopeRel 0) (context.ScopeRel 0) [] None [] None.

Definition env : compiler.Env := compiler.MkEnv 0 1.

Definition unnamed : context.Rel -> option pgast.Name := fun _ => None.

(** The analyzer as [_compile_group] sets it up for these statements,
    and the same inside an argument of [count]. *)
Definition visitor : FindAggregatingUses.t :=
  FindAggregatingUses.init 1 [2; 3].

Definition visitor_in (aggregate : Base) : FindAggregatingUses.t :=
  FindAggregatingUses.set_aggregate (Some aggregate) visitor.

(** [GROUP x BY {x.a, x.c}], where [using] binds no [c]; and a GROUP
    with no grouping element. *)
Definition unbound_key : GroupStmt.t :=
  group [qlast.GroupingSets [qlast.GroupingSimple (qlast.ObjectRef "a");
                             qlast.GroupingSimple (qlast.ObjectRef "c")]]
        (g 2) None None.

Definition no_key : GroupStmt.t := group [] (g 2) None None.

End examples.

(** * Properties of the analyzer *)

Module walk.
Import irast FindAggregatingUses props.

(** Every walk [visit node] is built from a few steps; a property of
    walks closed under those steps holds of all of them. *)
Section Closure.
Variable W : (t -> t) -> Prop.
Hypothesis W_id : W (fun v => v).
Hypothesis W_seq : forall f g, W f -> W g -> W (fun v => g (f v)).
Hypothesis W_record : W record_sighting.
Hypothesis W_skip :
  forall p f g, W f -> W g -> W (fun v => if in_to_skip p v then f v else g v).
Hypothesis W_target :
  forall p f g, W f -> W g ->
                W (fun v => if Nat.eqb p (target v) then f v else g v).
Hypothesis W_reset : forall f, W f -> W (scoped (fun _ => None) f).
Hypothesis W_restore :
  forall f, W f -> W (fun v => set_aggregate (aggregate v) (f v)).
Hypothesis W_install :
  forall node c f, installs node c -> W f -> W (scoped c f).

Lemma all_Forall_gen {A : Type} (P : A -> Prop) l :
  list_all A P l -> Forall P l.
Proof.
  induction 1; constructor; assumption.
Qed.

Lemma all_Forall (P : Base -> Prop) l : list_all Base P l -> Forall P l.
Proof.
  induction 1; constructor; assumption.
Qed.

Lemma all_Some (P : Base -> Prop) o :
  option_all Base P o -> forall n, o = Some n -> P n.
Proof.
  destruct 1; intros n E; inversion E; subst; assumption.
Qed.

Lemma list_all_impl (P Q : Base -> Prop) l :
  (forall n, P n -> Q n) -> list_all Base P l -> list_all Base Q l.
Proof.
  intros HPQ. induction 1; constructor; auto.
Qed.

Lemma option_all_impl (P Q : Base -> Prop) o :
  (forall n, P n -> Q n) -> option_all Base P o -> option_all Base Q o.
Proof.
  intros HPQ. destruct 1; constructor; auto.
Qed.

Lemma W_container l :
  Forall (fun n => W (visit n)) l -> W (container_visit visit l).
Proof.
  induction 1 as [|n l Hn Hl IH].
  - exact W_id.
  - exact (W_seq (visit n) (container_visit visit l) Hn IH).
Qed.

Lemma W_optional o :
  (forall n, o = Some n -> W (visit n)) -> W (visit_optional visit o).
Proof.
  destruct o as [n|]; intros H.
  - exact (H n eq_refl).
  - exact W_id.
Qed.

Lemma W_process_call rs sql node args :
  Forall (fun n => W (visit n)) args ->
  forall ptms,
    (forall tm, In tm ptms -> installs node (argument_context rs sql tm node)) ->
    W (process_call visit rs sql node args ptms).
Proof.
  induction 1 as [|a args Ha Hargs IH]; intros ptms Hc.
  - exact W_id.
  - destruct ptms as [|tm ptms].
    + exact W_id.
    + refine (W_seq (scoped (argument_context rs sql tm node) (visit a))
                    (process_call visit rs sql node args ptms) _ _).
      * apply (W_install node); [apply Hc; left; reflexivity | exact Ha].
      * apply IH. intros tm' Hin. apply Hc. right. exact Hin.
Qed.


Ltac peel :=
  lazymatch goal with
  | |- _ (fun v => v) => fail
  | |- ?W (fun v => container_visit visit ?l (@?f v)) =>
      refine (_ : W (fun v => container_visit visit l (f v)));
      apply (fun Hf Hg => W_seq f (container_visit visit l) Hf Hg)
  | |- ?W (fun v => visit_optional visit ?o (@?f v)) =>
      refine (_ : W (fun v => visit_optional visit o (f v)));
      apply (fun Hf Hg => W_seq f (visit_optional visit o) Hf Hg)
  | |- ?W (fun v => generic_visit_Stmt visit ?fs (@?f v)) =>
      refine (_ : W (fun v => generic_visit_Stmt visit fs (f v)));
      apply (fun Hf Hg => W_seq f (generic_visit_Stmt visit fs) Hf Hg)
  | |- ?W (fun v => visit ?n (@?f v)) =>
      refine (_ : W (fun v => visit n (f v)));
      apply (fun Hf Hg => W_seq f (visit n) Hf Hg)
  end.

Lemma W_generic_visit_Stmt f :
  StmtFields_all Base (fun n => W (visit n)) f ->
  W (generic_visit_Stmt visit f).
Proof.
  destruct 1 as [b Hb i Hi s Hs r Hr w Hw o Ho off Hoff lim Hlim m Hm ot Hot].
  pose proof (all_Some _ _ Hi). pose proof (all_Some _ _ Hs).
  pose proof (all_Some _ _ Hw). pose proof (all_Some _ _ Hoff).
  pose proof (all_Some _ _ Hlim).
  unfold generic_visit_Stmt; cbn [result iterator_stmt bindings subject
    where_ orderby offset limit others].
  repeat peel; auto using W_container, W_optional, all_Forall.
Qed.

Lemma W_visit_Stmt kind f :
  StmtFields_all Base (fun n => W (visit n)) f ->
  W (visit (Stmt kind f)).
Proof.
  intros Hf.
  pose proof (W_generic_visit_Stmt f Hf) as Hg.
  destruct Hf as [b Hb i Hi s Hs r Hr w Hw o Ho off Hoff lim Hlim m Hm ot Hot].
  set (fs := MkStmtFields b i s r w o off lim m ot) in *.
  assert (Hbody :
    W (fun v =>
         generic_visit_Stmt visit fs
           (visit r
              ((if is_MutatingStmt kind
                then visit_optional visit s else fun v => v)
                 (visit_optional visit i (container_visit visit b v)))))).
  { pose proof (all_Some _ _ Hi). pose proof (all_Some _ _ Hs).
    peel; [|exact Hg]. peel; [|exact Hr].
    refine (W_seq _ (if is_MutatingStmt kind
                     then visit_optional visit s else fun v => v) _ _).
    - repeat peel; auto using W_container, W_optional, all_Forall.
    - destruct (is_MutatingStmt kind); auto using W_optional. }
  destruct (resets_context kind fs) eqn:Hreset.
  - apply W_reset in Hbody.
    unfold scoped in Hbody. cbn [visit visit_Set visit_Stmt]. fold fs. rewrite Hreset.
    destruct (is_MutatingStmt kind); exact Hbody.
  - apply W_restore in Hbody.
    cbn [visit visit_Set visit_Stmt]. fold fs. rewrite Hreset.
    destruct (is_MutatingStmt kind); exact Hbody.
Qed.

Lemma W_visit_Set p head tail :
  W head -> W tail ->
  W (fun v =>
       if in_to_skip p v then v
       else if Nat.eqb p (target v) then record_sighting v
       else tail (head v)).
Proof.
  intros Hhead Htail.
  apply W_skip; [exact W_id|].
  apply W_target; [exact W_record|].
  exact (W_seq head tail Hhead Htail).
Qed.

Theorem visit_closed : forall n, W (visit n).
Proof.
  assert (H : forall n,
             W (visit n)
             /\ match n with
                | FunctionCall _ _ args _ | OperatorCall _ args _ =>
                    Forall (fun a => W (visit a)) args
                | _ => True
                end).
  { induction n as [uid p rptr Hrptr shape Hshape expr Hexpr
                   | source [Hsource _]
                   | fsf tm args Hargs ptms
                   | tm args Hargs ptms
                   | e [He _]
                   | kind f Hf
                   | children Hchildren].
    - split; [|exact I].
      assert (Hhead : W (fun v => container_visit visit shape
                                    (visit_optional visit rptr v))).
      { apply W_seq.
        - apply W_optional. intros n E.
          exact (proj1 (all_Some _ _ Hrptr n E)).
        - apply W_container. apply all_Forall in Hshape.
          eapply Forall_impl; [|exact Hshape]. intros a Ha; apply Ha. }
      destruct Hexpr as [e [He Hea]|].
      + destruct e as [u' p' r' s' e' | src | fsf tm args ptms
                      | tm args ptms | ce | k fs | ch].
        * exact (W_visit_Set p _ _ Hhead He).
        * exact (W_visit_Set p _ _ Hhead He).
        * refine (W_visit_Set p _ _ Hhead
                    (W_process_call _ _ _ args Hea ptms _)).
          intros tm' Hin. constructor. exact Hin.
        * refine (W_visit_Set p _ _ Hhead
                    (W_process_call _ _ _ args Hea ptms _)).
          intros tm' Hin. constructor. exact Hin.
        * exact (W_visit_Set p _ _ Hhead He).
        * exact (W_visit_Set p _ _ Hhead He).
        * exact (W_visit_Set p _ _ Hhead He).
      + exact (W_visit_Set p _ _ Hhead W_id).
    - split; [exact Hsource | exact I].
    - apply all_Forall in Hargs.
      assert (Ha : Forall (fun a => W (visit a)) args).
      { eapply Forall_impl; [|exact Hargs]. intros a Ha; apply Ha. }
      split; [exact (W_container args Ha) | exact Ha].
    - apply all_Forall in Hargs.
      assert (Ha : Forall (fun a => W (visit a)) args).
      { eapply Forall_impl; [|exact Hargs]. intros a Ha; apply Ha. }
      split; [exact (W_container args Ha) | exact Ha].
    - split; [exact He | exact I].
    - split; [|exact I]. apply W_visit_Stmt.
      destruct Hf as [b Hb i Hi s Hs r Hr w Hw o Ho off Hoff lim Hlim m Hm ot Hot].
      constructor;
        first [ exact (proj1 Hr)
              | eapply list_all_impl; [|eassumption]; intros a Ha; apply Ha
              | eapply option_all_impl; [|eassumption]; intros a Ha; apply Ha ].
    - split; [|exact I]. apply W_container.
      apply all_Forall in Hchildren.
      eapply Forall_impl; [|exact Hchildren]. intros a Ha; apply Ha. }
  intros n. apply H.
Qed.

End Closure.

(** ** The context is restored *)


Lemma frame_refl v : frame v v.
Proof. repeat split. Qed.

Lemma frame_trans v1 v2 v3 : frame v1 v2 -> frame v2 v3 -> frame v1 v3.
Proof.
  unfold frame. intros (A1 & B1 & C1) (A2 & B2 & C2).
  repeat split; congruence.
Qed.

Lemma framed_scoped c f : framed f -> framed (scoped c f).
Proof.
  intros Hf v. destruct (Hf (set_aggregate (c (aggregate v)) v)) as (A & B & C).
  unfold scoped, frame. cbn in *. auto.
Qed.

Lemma framed_restore f :
  framed f -> framed (fun v => set_aggregate (aggregate v) (f v)).
Proof.
  intros Hf v. destruct (Hf v) as (A & B & C).
  unfold frame. cbn. auto.
Qed.

Lemma framed_visit : forall n, framed (visit n).
Proof.
  apply visit_closed.
  - intro v. apply frame_refl.
  - intros f g Hf Hg v. exact (frame_trans _ _ _ (Hf v) (Hg (f v))).
  - intro v. repeat split.
  - intros p f g Hf Hg v. destruct (in_to_skip p v); auto.
  - intros p f g Hf Hg v. destruct (Nat.eqb p (target v)); auto.
  - intros f. apply framed_scoped.
  - apply framed_restore.
  - intros node c f _. apply framed_scoped.
Qed.

Lemma fresh_frame v v' : frame v v' -> fresh v' = fresh v.
Proof.
  intros (A & B & C). unfold fresh. congruence.
Qed.

(** ** Membership in the sightings *)

Lemma same_context_sym a b : same_context a b = same_context b a.
Proof.
  destruct a, b; cbn; auto using Nat.eqb_sym.
Qed.

Lemma same_context_trans a b c :
  same_context a b = true -> same_context b c = true ->
  same_context a c = true.
Proof.
  destruct a, b, c; cbn; try discriminate; auto.
  rewrite !Nat.eqb_eq. congruence.
Qed.

Lemma mem_add c a s : mem c (add a s) = mem c s || same_context c a.
Proof.
  unfold add. destruct (mem a s) eqn:Ha.
  - destruct (same_context c a) eqn:Hca; [|now rewrite orb_false_r].
    rewrite orb_true_r. unfold mem in *.
    apply existsb_exists in Ha. destruct Ha as (y & Hy & Hay).
    apply existsb_exists. exists y. split; [exact Hy|].
    exact (same_context_trans _ _ _ Hca Hay).
  - unfold mem. rewrite existsb_app. cbn. now rewrite orb_false_r.
Qed.

(** ** What a subtree records depends on the context at its entry only *)


Lemma independent_scoped c f : independent f -> independent (scoped c f).
Proof.
  intros [Hf Ha]. split; [now apply framed_scoped|].
  intros v c0. unfold scoped. cbn [sightings set_aggregate].
  rewrite Ha. cbn. reflexivity.
Qed.

Lemma independent_visit : forall n, independent (visit n).
Proof.
  apply visit_closed.
  - split; [intro v; apply frame_refl|].
    intros v c. cbn. now rewrite orb_false_r.
  - intros f g [Hf Haf] [Hg Hag]. split.
    + intros v. exact (frame_trans _ _ _ (Hf v) (Hg (f v))).
    + intros v c.
      rewrite Hag, Haf, (fresh_frame _ _ (Hf v)).
      rewrite (Hag (f (fresh v))), (fresh_frame _ _ (Hf (fresh v))).
      cbn [fresh target to_skip aggregate].
      change (Mk (target v) (to_skip v) (aggregate v) []) with (fresh v).
      now rewrite orb_assoc.
  - split; [intro v; repeat split|].
    intros v c. unfold record_sighting, fresh.
    cbn [sightings aggregate target to_skip].
    rewrite !mem_add. reflexivity.
  - intros p f g [Hf Haf] [Hg Hag]. split.
    + intros v. destruct (in_to_skip p v); auto.
    + intros v c. change (in_to_skip p (fresh v)) with (in_to_skip p v).
      destruct (in_to_skip p v); auto.
  - intros p f g [Hf Haf] [Hg Hag]. split.
    + intros v. destruct (Nat.eqb p (target v)); auto.
    + intros v c. cbn [fresh target].
      destruct (Nat.eqb p (target v)); auto.
  - intros f. apply independent_scoped.
  - intros f [Hf Ha]. split; [now apply framed_restore|].
    intros v c. cbn [sightings set_aggregate]. apply Ha.
  - intros node c f _. apply independent_scoped.
Qed.

(** ** Only aggregate calls become contexts *)


Lemma installs_aggregate node c old :
  installs node c -> aggregate_context old -> aggregate_context (c old).
Proof.
  intros Hi Hold. destruct Hi as [uid p rptr shape fsf typemod args ptms tm Hin
                                | uid p rptr shape typemod args ptms tm Hin];
    unfold argument_context.
  - destruct (returns_set_of typemod) eqn:Hrs; [exact I|].
    destruct (truthy_str fsf && qltypes.eqb tm qltypes.SetOfType) eqn:Hsql;
      [|exact Hold].
    apply andb_true_iff in Hsql. destruct Hsql as [Hf Htm].
    cbn. rewrite Hf, Hrs. cbn. apply existsb_exists. exists tm. auto.
  - destruct (returns_set_of typemod); [exact I|exact Hold].
Qed.

Lemma keeps_scoped (c : Context -> Context) f :
  (forall old, aggregate_context old -> aggregate_context (c old)) ->
  keeps_aggregates f -> keeps_aggregates (scoped c f).
Proof.
  intros Hc [Hf Hk]. split; [now apply framed_scoped|].
  intros v Ha Hs. unfold scoped. cbn [sightings set_aggregate].
  apply Hk; cbn; auto.
Qed.

Lemma keeps_visit : forall n, keeps_aggregates (visit n).
Proof.
  apply visit_closed.
  - split; [intro v; apply frame_refl|]. auto.
  - intros f g [Hf Hkf] [Hg Hkg]. split.
    + intros v. exact (frame_trans _ _ _ (Hf v) (Hg (f v))).
    + intros v Ha Hs. apply Hkg; [|now apply Hkf].
      destruct (Hf v) as (_ & _ & E). now rewrite E.
  - split; [intro v; repeat split|].
    intros v Ha Hs. cbn. unfold add.
    destruct (mem (aggregate v) (sightings v)); [exact Hs|].
    apply Forall_app. split; [exact Hs|]. constructor; [exact Ha|constructor].
  - intros p f g [Hf Hkf] [Hg Hkg]. split.
    + intros v. destruct (in_to_skip p v); auto.
    + intros v. destruct (in_to_skip p v); auto.
  - intros p f g [Hf Hkf] [Hg Hkg]. split.
    + intros v. destruct (Nat.eqb p (target v)); auto.
    + intros v. destruct (Nat.eqb p (target v)); auto.
  - intros f. apply keeps_scoped. intros _ _. exact I.
  - intros f [Hf Hk]. split; [now apply framed_restore|].
    intros v Ha Hs. cbn [sightings set_aggregate]. now apply Hk.
  - intros node c f Hi. apply keeps_scoped. intros old.
    now apply (installs_aggregate node).
Qed.

(** ** process_call *)

Lemma framed_process_call rs sql ir_set args :
  forall ptms, framed (process_call visit rs sql ir_set args ptms).
Proof.
  induction args as [|a args IH]; intros ptms v.
  - apply frame_refl.
  - destruct ptms as [|tm ptms]; [apply frame_refl|].
    eapply frame_trans;
      [|exact (IH ptms (scoped (argument_context rs sql tm ir_set) (visit a) v))].
    apply framed_scoped. apply framed_visit.
Qed.

Lemma existsb_pointwise {A : Type} (f g : A -> bool) l :
  (forall x, f x = g x) -> existsb f l = existsb g l.
Proof.
  intros E. induction l as [|x l IH]; cbn; [reflexivity|].
  now rewrite E, IH.
Qed.


Lemma process_call_sightings rs sql ir_set args :
  forall ptms v c,
    mem c (sightings (process_call visit rs sql ir_set args ptms v))
    = mem c (sightings v)
      || existsb (argument_sightings rs sql ir_set v c) (combine args ptms).
Proof.
  induction args as [|a args IH]; intros ptms v c.
  - cbn. now rewrite orb_false_r.
  - destruct ptms as [|tm ptms]; [cbn; now rewrite orb_false_r|].
    set (step := scoped (argument_context rs sql tm ir_set) (visit a)).
    change (process_call visit rs sql ir_set (a :: args) (tm :: ptms) v)
      with (process_call visit rs sql ir_set args ptms (step v)).
    rewrite IH.
    assert (Hstep : frame v (step v))
      by (apply framed_scoped, framed_visit).
    assert (Hsame : forall pair,
               argument_sightings rs sql ir_set (step v) c pair
               = argument_sightings rs sql ir_set v c pair).
    { intros pair. unfold argument_sightings.
      rewrite (fresh_frame _ _ Hstep).
      destruct Hstep as (_ & _ & E). now rewrite E. }
    rewrite (existsb_pointwise _ _ _ Hsame).
    unfold step at 1, scoped. cbn [sightings set_aggregate].
    destruct (independent_visit a) as [_ Ha]. rewrite Ha.
    cbn [combine existsb]. unfold argument_sightings at 2. cbn [fst snd].
    cbn [sightings set_aggregate fresh target to_skip aggregate].
    now rewrite orb_assoc.
Qed.

(** ** An occurrence that is reached is recorded *)

Lemma same_context_refl c : same_context c c = true.
Proof. destruct c; cbn; auto using Nat.eqb_refl. Qed.

Lemma mem_nonempty c s : mem c s = true -> s <> [].
Proof. intros H E. subst. discriminate. Qed.

Lemma nonempty_mem s : s <> [] -> exists c, mem c s = true.
Proof.
  destruct s as [|c s]; [congruence|]. intros _. exists c.
  cbn. now rewrite same_context_refl.
Qed.

Lemma found_adds aware f : adds_to f -> keeps_found aware f.
Proof.
  intros Ha v Hv. destruct aware; cbn in *.
  - rewrite Ha, Hv. reflexivity.
  - destruct (nonempty_mem _ Hv) as [c Hc].
    apply (mem_nonempty c). rewrite Ha, Hc. reflexivity.
Qed.

Lemma found_visit aware n : keeps_found aware (visit n).
Proof. apply found_adds, independent_visit. Qed.

Lemma found_process_call aware rs sql ir_set args ptms :
  keeps_found aware (process_call visit rs sql ir_set args ptms).
Proof.
  intros v Hv. destruct aware; cbn in *.
  - rewrite process_call_sightings, Hv. reflexivity.
  - destruct (nonempty_mem _ Hv) as [c Hc].
    apply (mem_nonempty c). rewrite process_call_sightings, Hc. reflexivity.
Qed.

Lemma found_container aware l : keeps_found aware (container_visit visit l).
Proof.
  induction l as [|n l IH]; intros v Hv; [exact Hv|].
  apply IH. now apply found_visit.
Qed.

Lemma found_optional aware o : keeps_found aware (visit_optional visit o).
Proof.
  destruct o; intros v Hv; [now apply found_visit|exact Hv].
Qed.

Lemma framed_container l : framed (container_visit visit l).
Proof.
  induction l as [|n l IH]; intros v; [apply frame_refl|].
  exact (frame_trans _ _ _ (framed_visit n v) (IH (visit n v))).
Qed.

Lemma framed_optional o : framed (visit_optional visit o).
Proof.
  destruct o; intros v; [apply framed_visit|apply frame_refl].
Qed.

Section Reach.
Variable aware : bool.
Variable tgt : PathId.
Variable skip : list PathId.

Local Abbreviation home := (props.home aware tgt skip).
Local Abbreviation found := (props.found aware).
Local Abbreviation recorded := (props.recorded aware tgt skip).
Local Abbreviation occ := (occurs aware tgt skip).

Lemma home_frame v v' : frame v v' -> home v -> home v'.
Proof.
  intros (A & B & C) (D & E & F). repeat split; try congruence.
  intros H. rewrite C. now apply F.
Qed.

Lemma home_set_None v : home v -> home (set_aggregate None v).
Proof. intros (A & B & C). repeat split; assumption. Qed.

(** Nothing occurs, for the aware reading, once inside an aggregate
    argument. *)
Lemma occurs_inside : forall n, occurs true tgt skip true n = false.
Proof.
  assert (Hl : forall l, Forall (fun n => occurs true tgt skip true n = false) l ->
                         existsb (occurs true tgt skip true) l = false).
  { induction 1 as [|x l Hx Hl IH]; cbn; [reflexivity|]. now rewrite Hx, IH. }
  assert (Ho : forall o, (forall n, o = Some n -> occurs true tgt skip true n = false) ->
                         exists_opt (occurs true tgt skip true) o = false).
  { intros [n|] H; cbn; [now apply H|reflexivity]. }
  assert (Hz : forall args,
             Forall (fun n => occurs true tgt skip true n = false) args ->
             forall ptms,
               exists_zip (fun arg (_ : qltypes.TypeModifier) =>
                             occurs true tgt skip true arg)
                          args ptms = false).
  { induction 1 as [|x l Hx Hl' IH]; intros ptms; [reflexivity|].
    destruct ptms as [|tm ptms]; [reflexivity|].
    cbn. now rewrite Hx, IH. }
  assert (H : forall n,
             occurs true tgt skip true n = false
             /\ match n with
                | FunctionCall _ _ args _ | OperatorCall _ args _ =>
                    Forall (fun a => occurs true tgt skip true a = false) args
                | _ => True
                end).
  { induction n as [uid p rptr Hrptr shape Hshape expr Hexpr
                   | source [Hsource _]
                   | fsf tm args Hargs ptms
                   | tm args Hargs ptms
                   | e [He _]
                   | kind f Hf
                   | children Hchildren].
    - split; [|exact I]. cbn [occurs].
      destruct (existsb (Nat.eqb p) skip); [reflexivity|].
      destruct (Nat.eqb p tgt); [reflexivity|].
      rewrite Ho by (intros n E; exact (proj1 (all_Some _ _ Hrptr n E))).
      rewrite Hl by (apply all_Forall in Hshape;
                     eapply Forall_impl; [|exact Hshape];
                     intros a Ha; apply Ha).
      destruct Hexpr as [e [He Hea]|]; [|reflexivity].
      destruct e; try exact He; exact (Hz _ Hea _).
    - split; [exact Hsource|exact I].
    - apply all_Forall in Hargs.
      assert (Ha : Forall (fun a => occurs true tgt skip true a = false) args)
        by (eapply Forall_impl; [|exact Hargs]; intros a Ha; apply Ha).
      split; [now apply Hl|exact Ha].
    - apply all_Forall in Hargs.
      assert (Ha : Forall (fun a => occurs true tgt skip true a = false) args)
        by (eapply Forall_impl; [|exact Hargs]; intros a Ha; apply Ha).
      split; [now apply Hl|exact Ha].
    - split; [exact He|exact I].
    - split; [|exact I].
      destruct Hf as [b Hb i Hi s Hs r Hr w Hw o Ho' off Hoff lim Hlim m Hm ot Hot].
      cbn [occurs bindings iterator_stmt subject result where_ orderby
           offset limit others].
      rewrite (proj1 Hr).
      repeat match goal with
             | Hx : list_all _ _ ?l |- context [existsb _ ?l] =>
                 rewrite (Hl l) by (apply all_Forall in Hx;
                                    eapply Forall_impl; [|exact Hx];
                                    intros a Ha; apply Ha)
             | Hx : option_all _ _ ?o |- context [exists_opt _ ?o] =>
                 rewrite (Ho o) by (intros n E;
                                    exact (proj1 (all_Some _ _ Hx n E)))
             end.
      reflexivity.
    - split; [|exact I]. apply Hl. apply all_Forall in Hchildren.
      eapply Forall_impl; [|exact Hchildren]. intros a Ha; apply Ha. }
  intros n. apply H.
Qed.

Lemma recorded_container l :
  Forall recorded l ->
  forall v, home v -> existsb (occ false) l = true ->
            found (container_visit visit l v).
Proof.
  induction 1 as [|n l Hn Hl IH]; intros v Hv Hex; [discriminate|].
  cbn in Hex. apply orb_true_iff in Hex. destruct Hex as [Hex|Hex].
  - apply (found_container aware l). now apply Hn.
  - apply IH; [|exact Hex]. exact (home_frame _ _ (framed_visit n v) Hv).
Qed.

Lemma recorded_optional o :
  (forall n, o = Some n -> recorded n) ->
  forall v, home v -> exists_opt (occ false) o = true ->
            found (visit_optional visit o v).
Proof.
  destruct o as [n|]; intros Ho v Hv Hex; [|discriminate].
  now apply (Ho n eq_refl).
Qed.

Lemma recorded_process_call rs sql ir_set args :
  Forall recorded args ->
  forall ptms v, home v ->
    exists_zip
      (fun arg tm =>
         occ (false || (aware && sql && negb rs
                        && qltypes.eqb tm qltypes.SetOfType)) arg)
      args ptms = true ->
    found (process_call visit rs sql ir_set args ptms v).
Proof.
  induction 1 as [|a args Ha Hargs IH]; intros ptms v Hv Hex; [discriminate|].
  destruct ptms as [|tm ptms]; [discriminate|].
  cbn [exists_zip] in Hex. apply orb_true_iff in Hex.
  set (step := scoped (argument_context rs sql tm ir_set) (visit a)).
  change (process_call visit rs sql ir_set (a :: args) (tm :: ptms) v)
    with (process_call visit rs sql ir_set args ptms (step v)).
  destruct Hex as [Hex|Hex].
  - apply found_process_call.
    change (found (visit a (set_aggregate
                              (argument_context rs sql tm ir_set (aggregate v))
                              v))).
    destruct Hv as (Ht & Hs & Hagg).
    destruct aware eqn:Haware.
    + destruct (sql && negb rs && qltypes.eqb tm qltypes.SetOfType) eqn:Hflag;
        cbn [orb andb] in Hex; rewrite Hflag in Hex.
      * now rewrite occurs_inside in Hex.
      * apply Ha; [|exact Hex]. repeat split; try assumption.
        intros _. cbn. rewrite (Hagg eq_refl). unfold argument_context.
        destruct rs; [reflexivity|].
        cbn in Hflag. rewrite andb_true_r in Hflag. now rewrite Hflag.
    + apply Ha; [|exact Hex]. repeat split; try assumption. discriminate.
  - apply IH; [|exact Hex].
    apply (home_frame v); [|exact Hv].
    apply framed_scoped, framed_visit.
Qed.

Ltac homing :=
  repeat first
    [ assumption
    | eapply home_frame;
      [ first [ apply framed_container | apply framed_optional
              | apply framed_visit ] | ] ].

Ltac settle H :=
  first
    [ solve [ apply recorded_container; [assumption | homing | exact H] ]
    | solve [ apply recorded_optional; [assumption | homing | exact H] ]
    | solve [ match goal with
              | Hr : recorded ?n |- found (visit ?n _) =>
                  apply Hr; [homing | exact H]
              end ]
    | apply found_container; settle H
    | apply found_optional; settle H
    | apply found_visit; settle H ].

Lemma recorded_generic_visit_Stmt f :
  Forall recorded (bindings f) ->
  (forall n, iterator_stmt f = Some n -> recorded n) ->
  (forall n, subject f = Some n -> recorded n) ->
  recorded (result f) ->
  (forall n, where_ f = Some n -> recorded n) ->
  Forall recorded (orderby f) ->
  (forall n, offset f = Some n -> recorded n) ->
  (forall n, limit f = Some n -> recorded n) ->
  Forall recorded (others f) ->
  forall kind v, home v ->
    occ false (Stmt kind f) = true ->
    found (generic_visit_Stmt visit f v).
Proof.
  intros Hb Hi Hs Hr Hw Ho Hoff Hlim Hot kind v Hv Hre.
  cbn [occurs] in Hre.
  repeat rewrite orb_true_iff in Hre.
  unfold generic_visit_Stmt.
  destruct Hre as [[[[[[[[H|H]|H]|H]|H]|H]|H]|H]|H]; settle H.
Qed.

Theorem occurrence_recorded : forall n, recorded n.
Proof.
  assert (H : forall n,
             recorded n
             /\ match n with
                | FunctionCall _ _ args _ | OperatorCall _ args _ =>
                    Forall recorded args
                | _ => True
                end).
  { induction n as [uid p rptr Hrptr shape Hshape expr Hexpr
                   | source [Hsource _]
                   | fsf tm args Hargs ptms
                   | tm args Hargs ptms
                   | e [He _]
                   | kind f Hf
                   | children Hchildren].
    - split; [|exact I].
      intros v Hv Hre. cbn [occurs] in Hre.
      cbn [visit visit_Set]. unfold in_to_skip.
      destruct Hv as (Ht & Hs & Hagg). rewrite Hs, Ht.
      destruct (existsb (Nat.eqb p) skip); [discriminate|].
      destruct (Nat.eqb p tgt).
      { unfold found, record_sighting. cbn [sightings].
        destruct aware.
        - rewrite mem_add, (Hagg eq_refl). now rewrite orb_true_r.
        - unfold add. destruct (mem _ _) eqn:Hm.
          + now apply (mem_nonempty (aggregate v)).
          + now destruct (sightings v). }
      assert (Hr' : forall n, rptr = Some n -> recorded n)
        by (intros n E; exact (proj1 (all_Some _ _ Hrptr n E))).
      assert (Hs' : Forall recorded shape).
      { apply all_Forall in Hshape.
        eapply Forall_impl; [|exact Hshape]. intros a Ha; apply Ha. }
      assert (Hv : home v) by (repeat split; assumption).
      repeat rewrite orb_true_iff in Hre.
      set (head := container_visit visit shape (visit_optional visit rptr v)).
      assert (Hhead : home head) by (unfold head; homing).
      destruct Hre as [[H|H]|H].
      + assert (Hn : found head) by (unfold head; settle H).
        destruct expr as [[]|];
          first [ now apply found_process_call | now apply found_visit
                | exact Hn ].
      + assert (Hn : found head) by (unfold head; settle H).
        destruct expr as [[]|];
          first [ now apply found_process_call | now apply found_visit
                | exact Hn ].
      + destruct Hexpr as [e [He Hea]|]; [|discriminate].
        destruct e;
          first [ now apply recorded_process_call
                | now apply He ].
    - split; [|exact I]. intros v Hv Hre. now apply Hsource.
    - apply all_Forall in Hargs.
      assert (Ha : Forall recorded args).
      { eapply Forall_impl; [|exact Hargs]. intros a Ha; apply Ha. }
      split; [|exact Ha]. intros v Hv Hre. now apply recorded_container.
    - apply all_Forall in Hargs.
      assert (Ha : Forall recorded args).
      { eapply Forall_impl; [|exact Hargs]. intros a Ha; apply Ha. }
      split; [|exact Ha]. intros v Hv Hre. now apply recorded_container.
    - split; [|exact I]. intros v Hv Hre. now apply He.
    - split; [|exact I]. intros v Hv Hre.
      destruct Hf as [b Hb i Hi s Hs r Hr w Hw o Ho off Hoff lim Hlim m Hm ot Hot].
      set (f := MkStmtFields b i s r w o off lim m ot) in *.
      assert (Hl : forall l,
                 list_all Base
                   (fun n => recorded n
                             /\ match n with
                                | FunctionCall _ _ args _
                                | OperatorCall _ args _ => Forall recorded args
                                | _ => True
                                end) l ->
                 Forall recorded l).
      { intros l Hall. eapply Forall_impl; [|exact (all_Forall _ _ Hall)].
        intros a Ha; apply Ha. }
      assert (Hopt : forall o,
                 option_all Base
                   (fun n => recorded n
                             /\ match n with
                                | FunctionCall _ _ args _
                                | OperatorCall _ args _ => Forall recorded args
                                | _ => True
                                end) o ->
                 forall n, o = Some n -> recorded n).
      { intros o' Hall n E. exact (proj1 (all_Some _ _ Hall n E)). }
      cbn [visit visit_Stmt].
      match goal with
      | |- found (set_aggregate _ ?x) => change (found x)
      end.
      apply (recorded_generic_visit_Stmt f
               (Hl _ Hb) (Hopt _ Hi) (Hopt _ Hs) (proj1 Hr) (Hopt _ Hw)
               (Hl _ Ho) (Hopt _ Hoff) (Hopt _ Hlim) (Hl _ Hot) kind);
        [|exact Hre].
      pose proof (home_set_None v Hv) as Hv'.
      destruct (resets_context kind f), (is_MutatingStmt kind);
        repeat first
          [ assumption
          | eapply home_frame;
            [ first [ apply framed_container | apply framed_optional
                    | apply framed_visit ] | ] ].
    - split; [|exact I]. intros v Hv Hre. apply recorded_container; auto.
      apply all_Forall in Hchildren.
      eapply Forall_impl; [|exact Hchildren]. intros a Ha; apply Ha. }
  intros n. apply H.
Qed.
End Reach.

End walk.

(** * Properties of the compiler monad *)

Module run.
Import context compiler props.
Local Open Scope list_scope.

Lemma effects_bind {A B : Type} (m : M A) (k : A -> M B) e :
  effects (bind m k e)
  = effects (m e)
    ++ match outcome (m e) with
       | inr a => effects (k a (env_after (m e)))
       | inl _ => []
       end.
Proof.
  unfold bind. destruct (outcome (m e)); cbn; [now rewrite app_nil_r|reflexivity].
Qed.

Lemma outcome_bind {A B : Type} (m : M A) (k : A -> M B) e :
  outcome (bind m k e)
  = match outcome (m e) with
    | inr a => outcome (k a (env_after (m e)))
    | inl x => inl x
    end.
Proof.
  unfold bind. destruct (outcome (m e)); reflexivity.
Qed.

Lemma env_after_bind {A B : Type} (m : M A) (k : A -> M B) e :
  env_after (bind m k e)
  = match outcome (m e) with
    | inr a => env_after (k a (env_after (m e)))
    | inl _ => env_after (m e)
    end.
Proof.
  unfold bind. destruct (outcome (m e)); reflexivity.
Qed.

Lemma only_ret {A : Type} P (a : A) : only P (ret a).
Proof. intros e. constructor. Qed.

Lemma only_raise {A : Type} P x : only P (@raise A x).
Proof. intros e. constructor. Qed.

Lemma only_call P c : P c = true -> only P (call c).
Proof. intros H e. cbn. constructor; [exact H|constructor]. Qed.

Lemma only_bind {A B : Type} P (m : M A) (k : A -> M B) :
  only P m -> (forall a, only P (k a)) -> only P (bind m k).
Proof.
  intros Hm Hk e. rewrite effects_bind. apply Forall_app. split.
  - apply Hm.
  - destruct (outcome (m e)); [constructor|apply Hk].
Qed.

Lemma only_for_each {A : Type} P (body : A -> M unit) l :
  (forall x, only P (body x)) -> only P (for_each body l).
Proof.
  intros Hb. induction l as [|x l IH].
  - apply only_ret.
  - apply (only_bind P (body x) (fun _ => for_each body l)); auto.
Qed.

Lemma only_comprehension {A B : Type} P (f : A -> M B) l :
  Forall (fun x => only P (f x)) l -> only P (comprehension f l).
Proof.
  induction 1 as [|x l Hx Hl IH].
  - apply only_ret.
  - apply (only_bind P (f x)); [exact Hx|]. intros y.
    apply (only_bind P (comprehension f l)); [exact IH|]. intros ys.
    apply only_ret.
Qed.

Lemma only_none {A : Type} P Q (m : M A) e :
  only P m -> (forall c, P c = true -> Q c = false) ->
  filter Q (effects (m e)) = [].
Proof.
  intros Hm HPQ. specialize (Hm e).
  induction Hm as [|c l Hc Hl IH]; [reflexivity|].
  cbn. now rewrite (HPQ c Hc).
Qed.

Lemma total_ret {A : Type} (a : A) : total (ret a).
Proof. intros e. now exists a. Qed.

Lemma total_call c : total (call c).
Proof. intros e. now exists tt. Qed.

Lemma total_bind {A B : Type} (m : M A) (k : A -> M B) :
  total m -> (forall a, total (k a)) -> total (bind m k).
Proof.
  intros Hm Hk e. rewrite outcome_bind.
  destruct (Hm e) as [a Ha]. rewrite Ha. apply Hk.
Qed.

Lemma total_for_each {A : Type} (body : A -> M unit) l :
  (forall x, total (body x)) -> total (for_each body l).
Proof.
  intros Hb. induction l as [|x l IH].
  - apply total_ret.
  - apply (total_bind (body x) (fun _ => for_each body l)); auto.
Qed.

Lemma total_unit (m : M unit) e : total m -> outcome (m e) = inr tt.
Proof.
  intros Hm. destruct (Hm e) as [[] Ha]. exact Ha.
Qed.

(** ** The grouping elements, value and binding emit path lookups only *)

Lemma only_dict_get {V : Type} P (d : list (string * V)) key :
  only P (dict_get d key).
Proof.
  unfold dict_get. destruct (dict_lookup d key);
    [apply only_ret|apply only_raise].
Qed.

Lemma only_path_var P r p a :
  P (get_path_var r p a) = true -> only P (path_var r p a).
Proof.
  intros H. apply (only_bind P (call (get_path_var r p a))).
  - now apply only_call.
  - intros _. apply only_ret.
Qed.

Section Lookups.
Variable P : Effect -> bool.
Hypothesis P_get_path_var : forall r p a, P (get_path_var r p a) = true.

Lemma only_compile_grouping_atom stmt ctx :
  forall el, only P (compile_grouping_atom el stmt ctx).
Proof.
  induction el as [name|elements IH|].
  - apply (only_bind P (dict_get (GroupStmt.using_ stmt) name)).
    + apply only_dict_get.
    + intros alias_set. now apply only_path_var.
  - apply (only_bind P (comprehension
                          (fun at_ => compile_grouping_atom at_ stmt ctx)
                          elements)).
    + apply only_comprehension.
      induction IH; constructor; assumption.
    + intros args. apply only_ret.
  - apply only_raise.
Qed.

Lemma only_compile_grouping_el stmt ctx :
  forall el, only P (compile_grouping_el el stmt ctx).
Proof.
  induction el as [element|sets IH|oper elements|].
  - apply only_compile_grouping_atom.
  - apply (only_bind P (comprehension
                          (fun sub => compile_grouping_el sub stmt ctx)
                          sets)).
    + apply only_comprehension.
      induction IH; constructor; assumption.
    + intros args. apply only_ret.
  - apply (only_bind P (comprehension
                          (fun at_ => compile_grouping_atom at_ stmt ctx)
                          elements)).
    + apply only_comprehension. apply Forall_forall.
      intros at_ _. apply only_compile_grouping_atom.
    + intros args. apply only_ret.
  - apply only_raise.
Qed.

Lemma only_used_bindings stmt used_args :
  forall acc, only P (used_bindings stmt used_args acc).
Proof.
  induction used_args as [|k rest IH]; intros acc.
  - apply only_ret.
  - apply (only_bind P (dict_get (GroupStmt.using_ stmt) k)).
    + apply only_dict_get.
    + intros v. apply IH.
Qed.

Lemma only__compile_grouping_value stmt ctx :
  only P (_compile_grouping_value stmt ctx).
Proof.
  unfold _compile_grouping_value.
  destruct (negb (truthy_opt (GroupStmt.grouping_binding stmt)));
    [apply only_raise|].
  assert (General :
    only P
      (using_ <- used_bindings stmt
                   (collect_grouping_atoms (GroupStmt.by_ stmt)) [] ;;
       args <- comprehension
                 (fun alias_set =>
                    path_var (rel ctx) (irast.path_id_of alias_set)
                             pgast.value)
                 (map snd using_) ;;
       grouping_alias <- aliases_get "g" ;;
       subq_alias <- aliases_get "" ;;
       ret (pgast.SelectStmt
              [pgast.ResTarget None
                 (pgast.FuncCall ["array_remove"]
                    [pgast.ArrayExpr
                       (map (fun '(i, name) =>
                               grouping_case
                                 (pgast.ColumnRef [grouping_alias] false)
                                 (List.length using_) i name)
                            (enumerate (map fst using_)));
                     pgast.NullConstant])]
              [pgast.RangeSubselect
                 (pgast.SelectStmt
                    [pgast.ResTarget (Some grouping_alias)
                       (pgast.FuncCall ["grouping"] args)] [])
                 (pgast.Alias subq_alias)]))).
  { apply only_bind; [apply only_used_bindings|]. intros using_.
    apply only_bind.
    - apply only_comprehension. apply Forall_forall.
      intros alias_set _. now apply only_path_var.
    - intros args. apply only_bind; [intros e; constructor|].
      intros ga. apply only_bind; [intros e; constructor|].
      intros sa. apply only_ret. }
  destruct (collect_grouping_atoms (GroupStmt.by_ stmt)) as [|k [|k' rest]];
    [exact General | apply only_ret | exact General].
Qed.

Lemma only__compile_grouping_binding stmt ctx :
  (forall r p v, P (put_path_var r p v pgast.value pgast.normal) = true) ->
  only P (_compile_grouping_binding stmt ctx).
Proof.
  intros P_put. unfold _compile_grouping_binding.
  destruct (GroupStmt.grouping_binding stmt) as [gb|]; [|apply only_raise].
  apply only_bind; [apply only__compile_grouping_value|].
  intros var. now apply only_call.
Qed.

End Lookups.

(** ** The group scope *)

Section Scope.
Variable first_target_name : Rel -> option pgast.Name.

Lemma total_hoist grouprel groupctx u : total (hoist grouprel groupctx u).
Proof.
  destruct u as [s|]; [|apply total_ret].
  intros e. eexists. reflexivity.
Qed.

Lemma only_hoist grouprel groupctx u :
  only is_hoist_effect (hoist grouprel groupctx u).
Proof.
  destruct u as [s|]; [|apply only_ret].
  intros e. cbn. repeat constructor.
Qed.

Lemma hoist_each grouprel gctx uses :
  forall e s, In (Some s) uses ->
    exists n,
      let effs := effects (for_each (hoist grouprel gctx) uses e) in
      In (process_set_as_agg_expr_inner s (ScopeRel n) pgast.value true
            (with_rel (ScopeRel n) gctx)) effs
      /\ In (get_path_value_output (ScopeRel n) (irast.path_id_of s)) effs
      /\ In (put_path_value_var grouprel (irast.path_id_of s)
               (pgast.RelRef (ScopeRel n))) effs.
Proof.
  induction uses as [|u uses IH]; intros e s Hin; [destruct Hin|].
  change (for_each (hoist grouprel gctx) (u :: uses))
    with (hoist grouprel gctx u ;; for_each (hoist grouprel gctx) uses).
  rewrite effects_bind, (total_unit _ e (total_hoist grouprel gctx u)).
  destruct Hin as [->|Hin].
  - exists (scopes e). cbn. auto 8.
  - destruct (IH (env_after (hoist grouprel gctx u e)) s Hin)
      as (n & H1 & H2 & H3).
    exists n. cbn zeta. repeat split; apply in_or_app; right; assumption.
Qed.

(** The context [materialize] hands to its collaborators. *)
Lemma materialize_run stmt grouprel ctx e :
  let gb := GroupStmt.group_binding stmt in
  let matctx :=
    with_expr_exposed true
      (with_materializing (Statement stmt :: materializing ctx)
         (with_output_format NATIVE ctx)) in
  let mat_qry := ArrayOf (irast.path_id_of gb) (SubqueryOf gb (rel ctx)) in
  exists naming name,
    materialize first_target_name stmt grouprel ctx e
    = MkOutcome (inr tt)
        (env_after (materialize first_target_name stmt grouprel ctx e))
        ([set_as_subquery gb true matctx;
          set_to_array (irast.path_id_of gb) true
                       (SubqueryOf gb (rel ctx)) matctx]
           ++ naming
           ++ [put_path_packed_output mat_qry (irast.path_id_of gb)
                 (pgast.ColumnRef [name] true);
               put_path_var grouprel (irast.path_id_of gb)
                 (pgast.RelRef mat_qry) pgast.value pgast.packed])
    /\ (naming = [] \/ naming = [assign_target_name mat_qry name]).
Proof.
  intros gb matctx mat_qry. unfold materialize.
  fold gb. cbn [new ret bind call outcome effects env_after rel
                with_expr_exposed with_materializing with_output_format
                materializing app].
  fold mat_qry.
  set (fresh_name := pgast.Generated "v" (aliases e)).
  destruct (first_target_name mat_qry) as [[s|h n]|]; cbn.
  - destruct (negb (s =? "")%string); cbn.
    + exists [], (pgast.Str s). split; [reflexivity|]. auto.
    + exists [assign_target_name mat_qry fresh_name], fresh_name.
      split; [reflexivity|]. auto.
  - exists [], (pgast.Generated h n). split; [reflexivity|]. auto.
  - exists [assign_target_name mat_qry fresh_name], fresh_name.
    split; [reflexivity|]. auto.
Qed.

Lemma total_materialize stmt grouprel ctx :
  total (materialize first_target_name stmt grouprel ctx).
Proof.
  intros e. destruct (materialize_run stmt grouprel ctx e) as (n & x & E & _).
  rewrite E. now exists tt.
Qed.

Lemma compile_subject_run stmt groupctx e :
  compile_subject stmt groupctx e
  = let subjctx :=
      with_expr_exposed false
        (with_path_scope
           (chain_set (irast.path_id_of (GroupStmt.subject stmt)) None
                      (new_child (path_scope groupctx)))
           (with_rel (ScopeRel (scopes e)) groupctx)) in
    MkOutcome (inr subjctx) (MkEnv (aliases e) (S (scopes e)))
      [put_path_id_map (ScopeRel (scopes e))
         (irast.path_id_of (GroupStmt.group_binding stmt))
         (irast.path_id_of (GroupStmt.subject stmt));
       dispatch_visit (GroupStmt.subject stmt) subjctx].
Proof. reflexivity. Qed.

Lemma packed_run stmt grouprel ctx uses e :
  let m := if has_ungrouped uses
           then materialize first_target_name stmt grouprel ctx ;; ret true
           else ret false in
  outcome (m e) = inr (has_ungrouped uses)
  /\ effects (m e)
     = if has_ungrouped uses
       then effects (materialize first_target_name stmt grouprel ctx e)
       else [].
Proof.
  cbn zeta. destruct (has_ungrouped uses); [|split; reflexivity].
  rewrite outcome_bind, effects_bind.
  rewrite (total_unit _ e (total_materialize stmt grouprel ctx)).
  cbn. now rewrite app_nil_r.
Qed.

(** The effects of the group scope, in order: the subject and the
    bindings around the two attachments of the subject's range
    variable, the hoisted aggregates, the materialization if any, the
    grouping value and clause. *)
Lemma scope_effects stmt uses ctx groupctx e :
  exists pre mid hoisted e2 tail,
    effects (compile_group_scope first_target_name stmt uses ctx groupctx e)
    = pre
      ++ [include_rvar (rel groupctx)
            (pgast.RvarForRel (ScopeRel (scopes e)) true)
            (irast.path_id_of (GroupStmt.group_binding stmt))
            pgast.normal false true None groupctx;
          include_rvar (rel groupctx)
            (pgast.RvarForRel (ScopeRel (scopes e)) true)
            (irast.path_id_of (GroupStmt.subject stmt))
            pgast.normal false true None groupctx]
      ++ mid
      ++ hoisted
      ++ (if has_ungrouped uses
          then effects (materialize first_target_name stmt
                                    (rel groupctx) ctx e2)
          else [])
      ++ tail
    /\ Forall (fun c => is_plumbing c = true) pre
    /\ Forall (fun c => is_plumbing c = true) mid
    /\ Forall (fun c => is_hoist_effect c = true) hoisted
    /\ (forall s, In (Some s) uses ->
          exists n hoistctx,
            rel hoistctx = ScopeRel n
            /\ In (process_set_as_agg_expr_inner
                     s (ScopeRel n) pgast.value true hoistctx) hoisted
            /\ In (get_path_value_output
                     (ScopeRel n) (irast.path_id_of s)) hoisted
            /\ In (put_path_value_var
                     (rel groupctx) (irast.path_id_of s)
                     (pgast.RelRef (ScopeRel n))) hoisted)
    /\ Forall (fun c => is_grouping_effect c = true) tail.
Proof.
  unfold compile_group_scope.
  rewrite effects_bind, compile_subject_run.
  cbn [outcome effects env_after rel path_scope materializing
       with_expr_exposed with_path_scope with_rel with_materializing].
  do 3 (rewrite effects_bind; cbn [call outcome effects env_after]).
  rewrite effects_bind.
  match goal with
  | |- context [for_each ?body (GroupStmt.using_values stmt) ?e1] =>
      set (visits := for_each body (GroupStmt.using_values stmt) e1);
      assert (Hv : outcome visits = inr tt)
        by (apply total_unit, total_for_each; intros x; apply total_call);
      assert (Hvo : Forall (fun c => is_plumbing c = true) (effects visits))
        by (apply (only_for_each is_plumbing); intros x; now apply only_call)
  end.
  rewrite Hv, effects_bind.
  match goal with
  | |- context [for_each (hoist ?r ?g) uses ?e1] =>
      set (gctx := g);
      set (hoists := for_each (hoist r gctx) uses e1);
      assert (Hh : outcome hoists = inr tt)
        by (apply total_unit, total_for_each; intros x; apply total_hoist);
      assert (Hho : Forall (fun c => is_hoist_effect c = true)
                           (effects hoists))
        by (apply (only_for_each is_hoist_effect); intros x;
            apply only_hoist);
      pose proof (fun s H => hoist_each r gctx uses e1 s H) as Heach
  end.
  rewrite Hh, effects_bind.
  destruct (packed_run stmt (rel groupctx) ctx uses (env_after hoists))
    as [Hpo Hpe].
  cbn zeta in Hpo, Hpe. rewrite Hpo, Hpe.
  match goal with
  | |- context [effects (?m ?e3)] =>
      lazymatch m with
      | bind _ _ =>
          set (rest := effects (m e3));
          assert (Hrest : Forall (fun c => is_grouping_effect c = true) rest)
      end
  end.
  { apply (only_bind is_grouping_effect).
    - destruct (truthy_opt (GroupStmt.grouping_binding stmt));
        [|apply only_ret].
      apply only__compile_grouping_binding; reflexivity.
    - intros _. apply (only_bind is_grouping_effect).
      + apply only_comprehension. apply Forall_forall. intros el _.
        apply only_compile_grouping_el. reflexivity.
      + intros clause. apply (only_bind is_grouping_effect).
        * now apply only_call.
        * intros _. apply only_ret. }
  eexists [_; _; _], (effects visits), (effects hoists), (env_after hoists), rest.
  split; [reflexivity|].
  split; [repeat constructor|].
  split; [exact Hvo|]. split; [exact Hho|]. split; [|exact Hrest].
  intros s Hs. destruct (Heach s Hs) as (n & H1 & H2 & H3).
  exists n, (with_rel (ScopeRel n) gctx). auto.
Qed.

(** When the group scope ends without an exception, its [packed] is
    [None in group_uses]. *)
Lemma scope_packed stmt uses ctx groupctx e packed :
  outcome (compile_group_scope first_target_name stmt uses ctx groupctx e)
  = inr packed ->
  packed = has_ungrouped uses.
Proof.
  unfold compile_group_scope.
  rewrite outcome_bind, compile_subject_run.
  cbn [outcome effects env_after rel path_scope materializing
       with_expr_exposed with_path_scope with_rel with_materializing].
  do 3 (rewrite outcome_bind; cbn [call outcome effects env_after]).
  rewrite outcome_bind.
  match goal with
  | |- context [for_each ?body (GroupStmt.using_values stmt) ?e1] =>
      rewrite (total_unit (for_each body (GroupStmt.using_values stmt)) e1)
        by (apply total_for_each; intros x; apply total_call)
  end.
  rewrite outcome_bind.
  match goal with
  | |- context [for_each (hoist ?r ?g) uses ?e1] =>
      rewrite (total_unit (for_each (hoist r g) uses) e1)
        by (apply total_for_each; intros x; apply total_hoist)
  end.
  rewrite outcome_bind.
  match goal with
  | |- context [outcome ((if has_ungrouped uses then _ else _) ?e2)] =>
      destruct (packed_run stmt (rel groupctx) ctx uses e2) as [Hpo _]
  end.
  cbn zeta in Hpo. rewrite Hpo.
  rewrite outcome_bind.
  match goal with
  | |- match outcome ?x with _ => _ end = _ -> _ =>
      destruct (outcome x); [discriminate|]
  end.
  rewrite outcome_bind.
  match goal with
  | |- match outcome ?x with _ => _ end = _ -> _ =>
      destruct (outcome x); [discriminate|]
  end.
  cbn. intros E. now inversion E.
Qed.

(** The effects of [_compile_group]: those of the group scope, then,
    unless an exception cut it short, the attachment of the group
    relation to the parent query and the compilation downstream. *)
Lemma group_effects stmt ctx parent_ctx e :
  let groupctx := with_rel (ScopeRel (scopes e)) ctx in
  let scope :=
    compile_group_scope first_target_name stmt (group_uses_of stmt)
                        ctx groupctx (MkEnv (aliases e) (S (scopes e))) in
  let group_rvar := pgast.RvarForRel (ScopeRel (scopes e)) true in
  exists rest,
    effects (_compile_group first_target_name stmt ctx parent_ctx e)
    = effects scope ++ rest
    /\ match outcome scope with
       | inr packed =>
           exists downstream,
             rest
             = [rvar_for_rel (ScopeRel (scopes e)) ctx true;
                if packed : bool
                then include_rvar
                       (context.stmt ctx) group_rvar
                       (irast.path_id_of (GroupStmt.group_binding stmt))
                       pgast.packed false false (Some [pgast.value]) ctx
                else rel_join (context.stmt ctx) group_rvar ctx]
               ++ downstream
             /\ Forall (fun c => is_downstream_effect c = true) downstream
       | inl _ => rest = []
       end.
Proof.
  intros groupctx scope group_rvar.
  unfold _compile_group.
  rewrite effects_bind.
  cbn [subrel outcome effects env_after app rel with_rel].
  fold groupctx. rewrite effects_bind. fold scope.
  eexists. split; [reflexivity|].
  destruct (outcome scope) as [x|packed]; [reflexivity|].
  rewrite effects_bind. cbn [call outcome effects env_after].
  rewrite effects_bind.
  match goal with
  | |- context [effects ((if packed then call ?a else call ?b) ?e2)] =>
      assert (Heff :
        effects ((if packed then call a else call b) e2)
        = [if packed then a else b]) by (destruct packed; reflexivity);
      assert (Hout :
        outcome ((if packed then call a else call b) e2) = inr tt)
        by (destruct packed; reflexivity)
  end.
  rewrite Heff, Hout.
  eexists. split; [reflexivity|].
  apply (only_bind is_downstream_effect).
  - apply only_for_each. intros [u|]; [now apply only_call|apply only_ret].
  - intros _. repeat (apply (only_bind is_downstream_effect);
                      [now apply only_call|intros _]).
    apply (only_bind is_downstream_effect); [apply only_ret|intros ictx].
    apply (only_bind is_downstream_effect); [now apply only_call|intros _].
    apply (only_bind is_downstream_effect).
    + destruct (GroupStmt.where_ stmt); [|apply only_ret].
      apply (only_bind is_downstream_effect); [now apply only_call|].
      intros _. now apply only_call.
    + intros _. apply (only_bind is_downstream_effect).
      * destruct (GroupStmt.orderby stmt); [|apply only_ret].
        apply (only_bind is_downstream_effect); [apply only_ret|].
        intros ictx'.
        apply (only_bind is_downstream_effect); [now apply only_call|].
        intros _. now apply only_call.
      * intros _. apply only_ret.
Qed.

Lemma filter_class P Q (l : list Effect) :
  Forall (fun c => P c = true) l ->
  (forall c, P c = true -> Q c = false) ->
  filter Q l = [].
Proof.
  intros Hl HPQ. induction Hl as [|c l Hc Hl IH]; [reflexivity|].
  cbn. now rewrite (HPQ c Hc).
Qed.

End Scope.

End run.

(** * The claims about the analyzer *)

Section AnalyzerClaims.
Import irast FindAggregatingUses props.

(** C10: the analyzer's current aggregate context is saved on entry and
    restored on exit of every nested statement and of every call
    argument: after visiting any node, and after the loop of
    [process_call] over any arguments, the context is what it was before.
    Hence what a subtree adds to the sightings depends on the context at
    its entry only, and not on the sibling subtrees visited earlier.
    The restoring is done argument by argument: the loop of
    [process_call] leaves its first argument with the context put back
    to the one at the entry of the loop before it goes on to the next
    arguments, so every argument is visited under the context computed
    from the one at the entry of the loop, whatever the arguments before
    it set; and a statement ends with the context it was entered with,
    whatever its own test reset it to. *)
Theorem C10_context_saved_and_restored :
  (forall node v, aggregate (visit node v) = aggregate v)
  /\ (forall kind f v, aggregate (visit (Stmt kind f) v) = aggregate v)
  /\ (forall rs sql ir_set args ptms v,
         aggregate (process_call visit rs sql ir_set args ptms v) = aggregate v)
  /\ (forall sibling node v c,
         mem c (sightings (visit node (visit sibling v)))
         = mem c (sightings (visit sibling v))
           || mem c (sightings (visit node (fresh v))))
  /\ (forall rs sql ir_set arg args tm ptms v,
         let entered := Mk (target v) (to_skip v)
                           (argument_context rs sql tm ir_set (aggregate v))
                           (sightings v) in
         let left := visit arg entered in
         let restored := Mk (target left) (to_skip left) (aggregate v)
                            (sightings left) in
         process_call visit rs sql ir_set (arg :: args) (tm :: ptms) v
         = process_call visit rs sql ir_set args ptms restored)
  /\ (forall rs sql ir_set args ptms v c,
         mem c (sightings (process_call visit rs sql ir_set args ptms v))
         = mem c (sightings v)
           || existsb
                (fun pair =>
                   mem c (sightings
                            (visit (fst pair)
                                   (Mk (target v) (to_skip v)
                                       (argument_context rs sql (snd pair) ir_set
                                                         (aggregate v))
                                       []))))
                (combine args ptms))
  /\ (forall kind f v,
         exists inner,
           visit (Stmt kind f) v
           = Mk (target inner) (to_skip inner) (aggregate v) (sightings inner)).
Proof.
  split; [|split; [|split; [|split; [|split; [|split]]]]].
  - intros node v. apply (walk.framed_visit node v).
  - intros kind f v. apply (walk.framed_visit (Stmt kind f) v).
  - intros rs sql ir_set args ptms v.
    apply (walk.framed_process_call rs sql ir_set args ptms v).
  - intros sibling node v c.
    destruct (walk.independent_visit node) as [_ Hadds].
    rewrite Hadds.
    now rewrite (walk.fresh_frame _ _ (walk.framed_visit sibling v)).
  - intros rs sql ir_set arg args tm ptms v. reflexivity.
  - intros rs sql ir_set args ptms v c.
    exact (walk.process_call_sightings rs sql ir_set args ptms v c).
  - intros kind f v. eexists. cbn [visit visit_Stmt]. reflexivity.
Qed.

(** C6: on descending into an argument of a call held by the Set
    [ir_set], the context becomes [ir_set] exactly when the call does not
    return a set, is backed by an SQL function and the parameter of that
    argument accepts a set; when the call returns a set the context is the
    ungrouped one for every argument; otherwise it stays what it was.  The
    sightings of the call are those of its arguments, each visited under
    that context.  That context is the visitor's own while the argument
    is walked: the loop of [process_call] visits its first argument with
    [aggregate] holding it, and an argument that is the target itself,
    bare or wrapped in its [CallArg], is recorded under exactly that
    context; so the group binding passed to an aggregate backed by an SQL
    function, in the place of a parameter that accepts a set, is recorded
    under the Set that holds the call. *)
Theorem C6_context_of_a_call_argument :
  (forall uid p rptr shape fsf typemod args ptms v,
      in_to_skip p v = false -> Nat.eqb p (target v) = false ->
      visit (Set_ uid p rptr shape (Some (FunctionCall fsf typemod args ptms))) v
      = process_call visit (qltypes.eqb typemod qltypes.SetOfType)
                     (truthy_str fsf)
                     (Set_ uid p rptr shape
                           (Some (FunctionCall fsf typemod args ptms)))
                     args ptms
                     (container_visit visit shape (visit_optional visit rptr v)))
  /\ (forall uid p rptr shape typemod args ptms v,
         in_to_skip p v = false -> Nat.eqb p (target v) = false ->
         visit (Set_ uid p rptr shape (Some (OperatorCall typemod args ptms))) v
         = process_call visit (qltypes.eqb typemod qltypes.SetOfType) false
                        (Set_ uid p rptr shape
                              (Some (OperatorCall typemod args ptms)))
                        args ptms
                        (container_visit visit shape (visit_optional visit rptr v)))
  /\ (forall returns_set calls_sql_func ir_set args ptms v c,
         mem c (sightings
                  (process_call visit returns_set calls_sql_func ir_set args ptms v))
         = mem c (sightings v)
           || existsb (argument_sightings returns_set calls_sql_func ir_set v c)
                      (combine args ptms))
  /\ (forall calls_sql_func tm ir_set old,
         argument_context true calls_sql_func tm ir_set old = None)
  /\ (forall tm ir_set old,
         argument_context false true tm ir_set old
         = if qltypes.eqb tm qltypes.SetOfType then Some ir_set else old)
  /\ (forall tm ir_set old,
         argument_context false false tm ir_set old = old)
  /\ (forall returns_set calls_sql_func tm ir_set old,
         old <> Some ir_set ->
         (argument_context returns_set calls_sql_func tm ir_set old = Some ir_set
          <-> returns_set = false /\ calls_sql_func = true
              /\ tm = qltypes.SetOfType))
  /\ (forall returns_set calls_sql_func ir_set arg args tm ptms v,
         let entered := Mk (target v) (to_skip v)
                           (argument_context returns_set calls_sql_func tm ir_set
                                             (aggregate v))
                           (sightings v) in
         let left := visit arg entered in
         aggregate entered
         = argument_context returns_set calls_sql_func tm ir_set (aggregate v)
         /\ process_call visit returns_set calls_sql_func ir_set
                         (arg :: args) (tm :: ptms) v
            = process_call visit returns_set calls_sql_func ir_set args ptms
                           (Mk (target left) (to_skip left) (aggregate v)
                               (sightings left)))
  /\ (forall returns_set calls_sql_func ir_set uid p rptr shape expr tm v,
         in_to_skip p v = false -> Nat.eqb p (target v) = true ->
         sightings (process_call visit returns_set calls_sql_func ir_set
                                 [Set_ uid p rptr shape expr] [tm] v)
         = add (argument_context returns_set calls_sql_func tm ir_set (aggregate v))
               (sightings v)
         /\ sightings (process_call visit returns_set calls_sql_func ir_set
                                    [CallArg (Set_ uid p rptr shape expr)] [tm] v)
            = add (argument_context returns_set calls_sql_func tm ir_set
                                    (aggregate v))
                  (sightings v))
  /\ (forall uid p fsf typemod tm guid gp grptr gshape gexpr v,
         in_to_skip p v = false -> Nat.eqb p (target v) = false ->
         in_to_skip gp v = false -> Nat.eqb gp (target v) = true ->
         let call := Set_ uid p None []
                          (Some (FunctionCall fsf typemod
                                              [CallArg (Set_ guid gp grptr gshape gexpr)]
                                              [tm])) in
         sightings (visit call v)
         = add (argument_context (qltypes.eqb typemod qltypes.SetOfType)
                                 (truthy_str fsf) tm call (aggregate v))
               (sightings v)).
Proof.
  split; [|split; [|split; [|split; [|split; [|split; [|split; [|split; [|split]]]]]]]].
  - intros uid p rptr shape fsf typemod args ptms v Hskip Htarget.
    cbn [visit visit_Set visit_Stmt]. now rewrite Hskip, Htarget.
  - intros uid p rptr shape typemod args ptms v Hskip Htarget.
    cbn [visit visit_Set visit_Stmt]. now rewrite Hskip, Htarget.
  - intros. apply walk.process_call_sightings.
  - reflexivity.
  - reflexivity.
  - reflexivity.
  - intros rs sql tm ir_set old Hold. unfold argument_context.
    destruct rs, sql, tm; cbn; split;
      try (intros H; discriminate H);
      try (intros H; exfalso; apply Hold; exact H);
      try (intros (H1 & H2 & H3); discriminate);
      auto.
  - intros rs sql ir_set arg args tm ptms v. split; reflexivity.
  - intros rs sql ir_set uid p rptr shape expr tm v Hskip Htarget.
    assert (Hbare :
              sightings (process_call visit rs sql ir_set
                                      [Set_ uid p rptr shape expr] [tm] v)
              = add (argument_context rs sql tm ir_set (aggregate v))
                    (sightings v)).
    { cbn [process_call visit visit_Set].
      unfold in_to_skip in *. cbn [set_aggregate to_skip target] in *.
      cbn [to_skip target set_aggregate].
      rewrite Hskip, Htarget. reflexivity. }
    split; [exact Hbare|exact Hbare].
  - intros uid p fsf typemod tm guid gp grptr gshape gexpr v
           Hskip Htarget Hgskip Hgtarget call.
    unfold call. cbn [visit visit_Set].
    rewrite Hskip, Htarget.
    cbn [visit_optional container_visit fold_left process_call visit visit_Set].
    unfold in_to_skip in *. cbn [set_aggregate to_skip target].
    rewrite Hgskip, Hgtarget. reflexivity.
Qed.

(** The witness of C6: [count(g)] visited at the top of a result. *)
Lemma C6_witness :
  in_to_skip 20 examples.visitor = false
  /\ Nat.eqb 20 (target examples.visitor) = false
  /\ visit (examples.count 31 (examples.g 2)) examples.visitor
     = process_call visit false true (examples.count 31 (examples.g 2))
                    [CallArg (examples.g 2)] [qltypes.SetOfType]
                    examples.visitor
  /\ (argument_context false true qltypes.SetOfType
                       (examples.count 31 (examples.g 2)) None
      = Some (examples.count 31 (examples.g 2))
      <-> false = false /\ true = true /\ qltypes.SetOfType = qltypes.SetOfType)
  /\ in_to_skip 1 examples.visitor = false
  /\ Nat.eqb 1 (target examples.visitor) = true
  /\ sightings (visit (examples.count 31 (examples.g 2)) examples.visitor)
     = [Some (examples.count 31 (examples.g 2))].
Proof.
  split; [reflexivity|]. split; [reflexivity|]. split; [|split].
  - exact (proj1 C6_context_of_a_call_argument
                 31 20 None [] (Some "count") qltypes.SingletonType
                 [CallArg (examples.g 2)] [qltypes.SetOfType]
                 examples.visitor eq_refl eq_refl).
  - apply (proj1 (proj2 (proj2 (proj2 (proj2 (proj2 (proj2
             C6_context_of_a_call_argument))))))).
    discriminate.
  - split; [reflexivity|]. split; [reflexivity|].
    exact (proj2 (proj2 (proj2 (proj2 (proj2 (proj2 (proj2 (proj2 (proj2
             C6_context_of_a_call_argument))))))))
             31 20 (Some "count") qltypes.SingletonType qltypes.SetOfType
             2 1 None [] None examples.visitor
             eq_refl eq_refl eq_refl eq_refl).
Defined.

(** C5, as stated, fails.  In [(SELECT count(g) ORDER BY a)] the statement
    carries an ORDER BY, yet the sighting of the group binding in its
    subtree is recorded under the [count] call.  And a nested GROUP that
    carries an ORDER BY and a materialized set, met inside an argument of
    [count], does not reset the context at all. *)
Lemma C5_counterexample :
  (let inner := examples.count 31 (examples.g 2) in
   let f := examples.fields inner [examples.key_a] [] in
   resets_context SelectStmt f = true
   /\ sightings (visit (Stmt SelectStmt f) examples.visitor) = [Some inner])
  /\ (let outer := examples.count 33 (examples.g 9) in
      let f := examples.fields (examples.g 2) [examples.key_a] [examples.key_b] in
      truthy_list (orderby f) = true
      /\ truthy_list (materialized_sets f) = true
      /\ sightings (visit (Stmt GroupStmt f) (examples.visitor_in outer))
         = [Some outer]).
Proof.
  repeat split.
Qed.

(** C5, amended: entering a nested SELECT statement that carries its own
    ORDER BY, LIMIT, OFFSET or materialized sub-expressions (and no other
    kind of statement) resets the context to the ungrouped one at its
    entry: its subtree records what it records when the statement is
    visited from the ungrouped context, whatever the context outside,
    which is restored on exit; a sighting in the subtree is recorded under
    the ungrouped context, unless an aggregate call (backed by an SQL
    function, returning no set, with a set-accepting parameter) has
    installed itself as the context in between. *)
Theorem C5_select_resets_context :
  forall kind f v,
    resets_context kind f = true ->
    (kind = SelectStmt
     /\ (orderby f <> [] \/ limit f <> None \/ offset f <> None
         \/ materialized_sets f <> []))
    /\ sightings (visit (Stmt kind f) v)
       = sightings (visit (Stmt kind f) (set_aggregate None v))
    /\ aggregate (visit (Stmt kind f) v) = aggregate v
    /\ Forall aggregate_context (sightings (visit (Stmt kind f) (fresh v))).
Proof.
  intros kind f v Hreset.
  assert (Hsame : forall w,
             sightings (visit (Stmt kind f) w)
             = sightings (visit (Stmt kind f) (set_aggregate None w))).
  { intros w. cbn [visit visit_Set visit_Stmt]. rewrite Hreset. reflexivity. }
  split; [|split; [|split]].
  - unfold resets_context in Hreset.
    apply andb_true_iff in Hreset. destruct Hreset as [Hk Hc]. split.
    + destruct kind; try discriminate Hk. reflexivity.
    + destruct (orderby f), (limit f), (offset f), (materialized_sets f);
        try discriminate Hc;
        try (left; discriminate);
        try (right; left; discriminate);
        try (right; right; left; discriminate);
        right; right; right; discriminate.
  - apply Hsame.
  - apply (walk.framed_visit (Stmt kind f) v).
  - rewrite Hsame.
    destruct (walk.keeps_visit (Stmt kind f)) as [_ Hkeeps].
    apply Hkeeps; cbn; [exact I | constructor].
Qed.

(** The witness of C5: [(SELECT g ORDER BY a)] inside an argument of
    [count]. *)
Lemma C5_witness :
  let f := examples.fields (examples.g 2) [examples.key_a] [] in
  let v := examples.visitor_in (examples.count 33 (examples.g 9)) in
  resets_context SelectStmt f = true
  /\ sightings (visit (Stmt SelectStmt f) v) = [None]
  /\ sightings (visit (Stmt SelectStmt f) v)
     = sightings (visit (Stmt SelectStmt f) (set_aggregate None v)).
Proof.
  split; [reflexivity|]. split; [reflexivity|].
  exact (proj1 (proj2 (C5_select_resets_context
                         SelectStmt
                         (examples.fields (examples.g 2) [examples.key_a] [])
                         (examples.visitor_in (examples.count 33 (examples.g 9)))
                         eq_refl))).
Defined.

End AnalyzerClaims.

(** * The claims about the orchestrator *)

Section OrchestratorClaims.
Import context compiler props.
Local Open Scope list_scope.

Lemma eqb_succ_false n : Nat.eqb n (S n) = false.
Proof. apply Nat.eqb_neq. lia. Qed.

Lemma materialize_attaches_nothing first_target_name stmt grouprel ctx e k :
  filter (attaches_rvar_of k)
         (effects (materialize first_target_name stmt grouprel ctx e)) = [].
Proof.
  destruct (run.materialize_run first_target_name stmt grouprel ctx e)
    as (naming & name & E & [-> | ->]); rewrite E; reflexivity.
Qed.

(** C9: the range variable of the compiled subject is attached into the
    group relation exactly twice, first under the PathId of the group
    binding, then under the PathId of the subject, both times with
    [update_mask=False]; neither attachment changes the output-column
    mask of the group relation. *)
Theorem C9_subject_rvar_attached_twice :
  forall first_target_name stmt ctx parent_ctx e,
    let grouprel := ScopeRel (scopes e) in
    let groupctx := with_rel grouprel ctx in
    let subj_rvar := pgast.RvarForRel (ScopeRel (S (scopes e))) true in
    let attachments :=
      filter (attaches_rvar_of (S (scopes e)))
             (effects (_compile_group first_target_name stmt ctx parent_ctx e)) in
    attachments
    = [include_rvar grouprel subj_rvar
                    (irast.path_id_of (GroupStmt.group_binding stmt))
                    pgast.normal false true None groupctx;
       include_rvar grouprel subj_rvar
                    (irast.path_id_of (GroupStmt.subject stmt))
                    pgast.normal false true None groupctx]
    /\ forall (Mask : Type) (update : Rel -> irast.PathId -> Mask -> Mask) m,
        fold_left (mask_after Mask update) attachments m = m.
Proof.
  intros ftn stmt ctx parent_ctx e grouprel groupctx subj_rvar attachments.
  assert (E : attachments
              = [include_rvar grouprel subj_rvar
                   (irast.path_id_of (GroupStmt.group_binding stmt))
                   pgast.normal false true None groupctx;
                 include_rvar grouprel subj_rvar
                   (irast.path_id_of (GroupStmt.subject stmt))
                   pgast.normal false true None groupctx]).
  { unfold attachments.
    destruct (run.group_effects ftn stmt ctx parent_ctx e) as (rest & -> & Hrest).
    cbn zeta in Hrest.
    destruct (run.scope_effects ftn stmt (group_uses_of stmt) ctx groupctx
                                (MkEnv (aliases e) (S (scopes e))))
      as (pre & mid & hoisted & e2 & tail & Es & Hpre & Hmid & Hhoist & _ & Htail).
    fold grouprel groupctx in Hrest |- *.
    rewrite Es. rewrite !filter_app.
    rewrite (run.filter_class _ _ _ Hpre)
      by (intros [] ; cbn; congruence).
    rewrite (run.filter_class _ _ _ Hmid)
      by (intros [] ; cbn; congruence).
    rewrite (run.filter_class _ _ _ Hhoist)
      by (intros [] ; cbn; congruence).
    rewrite (run.filter_class _ _ _ Htail)
      by (intros [] ; cbn; congruence).
    assert (Hmat :
      filter (attaches_rvar_of (S (scopes e)))
             (if has_ungrouped (group_uses_of stmt)
              then effects (materialize ftn stmt (rel groupctx) ctx e2)
              else []) = []).
    { destruct (has_ungrouped _); [|reflexivity].
      apply materialize_attaches_nothing. }
    rewrite Hmat.
    assert (Hr : filter (attaches_rvar_of (S (scopes e))) rest = []).
    { destruct (outcome _) as [x|packed] in Hrest.
      - now rewrite Hrest.
      - destruct Hrest as (downstream & -> & Hdown).
        rewrite filter_app.
        rewrite (run.filter_class _ _ _ Hdown)
          by (intros [] ; cbn; congruence).
        destruct packed; cbn; rewrite ?eqb_succ_false; reflexivity. }
    rewrite Hr. cbn. rewrite Nat.eqb_refl. reflexivity. }
  split; [exact E|].
  intros Mask update m. rewrite E. reflexivity.
Qed.

(** A class [Q] of effects that the set-up, the hoisting, the grouping
    value and the downstream compilation never emit is met in the
    materialization and in the attachment to the parent query only. *)
Lemma group_filter (Q : Effect -> bool) first_target_name stmt ctx parent_ctx e :
  (forall c, is_plumbing c = true -> Q c = false) ->
  (forall c, is_hoist_effect c = true -> Q c = false) ->
  (forall c, is_grouping_effect c = true -> Q c = false) ->
  (forall c, is_downstream_effect c = true -> Q c = false) ->
  (forall r rvar p ctx', Q (include_rvar r rvar p pgast.normal false true None ctx')
                         = false) ->
  let grouprel := ScopeRel (scopes e) in
  let groupctx := with_rel grouprel ctx in
  let group_rvar := pgast.RvarForRel grouprel true in
  let ungrouped := has_ungrouped (group_uses_of stmt) in
  let scope :=
    compile_group_scope first_target_name stmt (group_uses_of stmt) ctx groupctx
                        (MkEnv (aliases e) (S (scopes e))) in
  exists e2,
    filter Q (effects (_compile_group first_target_name stmt ctx parent_ctx e))
    = (if ungrouped
       then filter Q (effects (materialize first_target_name stmt grouprel ctx e2))
       else [])
      ++ match outcome scope with
         | inr _ =>
             filter Q
               [if ungrouped
                then include_rvar
                       (context.stmt ctx) group_rvar
                       (irast.path_id_of (GroupStmt.group_binding stmt))
                       pgast.packed false false (Some [pgast.value]) ctx
                else rel_join (context.stmt ctx) group_rvar ctx]
         | inl _ => []
         end.
Proof.
  intros Qp Qh Qg Qd Qi grouprel groupctx group_rvar ungrouped scope.
  destruct (run.group_effects first_target_name stmt ctx parent_ctx e)
    as (rest & -> & Hrest).
  cbn zeta in Hrest. fold grouprel groupctx scope group_rvar in Hrest |- *.
  pose proof (run.scope_packed first_target_name stmt (group_uses_of stmt)
                               ctx groupctx (MkEnv (aliases e) (S (scopes e))))
    as Hpacked.
  fold scope ungrouped in Hpacked.
  destruct (run.scope_effects first_target_name stmt (group_uses_of stmt)
                              ctx groupctx (MkEnv (aliases e) (S (scopes e))))
    as (pre & mid & hoisted & e2 & tail & Es & Hpre & Hmid & Hhoist & _ & Htail).
  fold scope ungrouped in Es. exists e2.
  rewrite Es, !filter_app.
  rewrite (run.filter_class _ _ _ Hpre Qp), (run.filter_class _ _ _ Hmid Qp),
    (run.filter_class _ _ _ Hhoist Qh), (run.filter_class _ _ _ Htail Qg).
  cbn [filter]. rewrite !Qi. cbn [app]. rewrite app_nil_r.
  f_equal.
  - now destruct ungrouped.
  - destruct (outcome scope) as [x|packed].
    + now rewrite Hrest.
    + destruct Hrest as (downstream & -> & Hdown).
      rewrite (Hpacked packed eq_refl).
      change (?a :: ?b :: downstream) with ([a; b] ++ downstream).
      rewrite filter_app, (run.filter_class _ _ _ Hdown Qd), app_nil_r.
      cbn [filter]. rewrite (Qp (rvar_for_rel grouprel ctx true) eq_refl).
      reflexivity.
Qed.

Lemma materialize_arrays first_target_name stmt grouprel ctx e :
  let gb := GroupStmt.group_binding stmt in
  filter is_set_to_array
         (effects (materialize first_target_name stmt grouprel ctx e))
  = [set_to_array (irast.path_id_of gb) true (SubqueryOf gb (rel ctx))
       (with_expr_exposed true
          (with_materializing (Statement stmt :: materializing ctx)
             (with_output_format NATIVE ctx)))].
Proof.
  destruct (run.materialize_run first_target_name stmt grouprel ctx e)
    as (naming & name & E & [-> | ->]); rewrite E; reflexivity.
Qed.

Lemma materialize_packed first_target_name stmt grouprel ctx e :
  let gb := GroupStmt.group_binding stmt in
  filter is_packed_put_path_var
         (effects (materialize first_target_name stmt grouprel ctx e))
  = [put_path_var grouprel (irast.path_id_of gb)
       (pgast.RelRef (ArrayOf (irast.path_id_of gb) (SubqueryOf gb (rel ctx))))
       pgast.value pgast.packed].
Proof.
  destruct (run.materialize_run first_target_name stmt grouprel ctx e)
    as (naming & name & E & [-> | ->]); rewrite E; reflexivity.
Qed.

Lemma materialize_no_attachment first_target_name stmt grouprel ctx e :
  filter is_parent_attachment
         (effects (materialize first_target_name stmt grouprel ctx e)) = [].
Proof.
  destruct (run.materialize_run first_target_name stmt grouprel ctx e)
    as (naming & name & E & [-> | ->]); rewrite E; reflexivity.
Qed.

Ltac class_excluded :=
  first [ intros [] ; cbn; congruence
        | intros c; destruct c; cbn; intros; try congruence;
          repeat match goal with
                 | x : pgast.Aspect |- _ => destruct x
                 | x : pgast.Flavor |- _ => destruct x
                 end; cbn in *; congruence
        | reflexivity ].

(** C1: when the sightings of the analyzer contain the ungrouped context,
    [packed] is true and exactly one array materialization is built, and
    registered in the group relation under the PathId of the group
    binding with the flavor [packed], however many occurrences there are;
    when they do not, none is built.  The group relation is then attached
    to the parent query by a packed inclusion, and else by a join.  The
    sightings do contain the ungrouped context as soon as the analyzer
    reaches an occurrence of the group binding that is bare, that is,
    outside every set-accepting argument of a call backed by an SQL
    function that returns no set. *)
Theorem C1_packed_materialized_once :
  forall first_target_name stmt ctx parent_ctx e,
    let effs := effects (_compile_group first_target_name stmt ctx parent_ctx e) in
    let gb := GroupStmt.group_binding stmt in
    let grouprel := ScopeRel (scopes e) in
    let groupctx := with_rel grouprel ctx in
    let group_rvar := pgast.RvarForRel grouprel true in
    let matctx :=
      with_expr_exposed true
        (with_materializing (Statement stmt :: materializing ctx)
           (with_output_format NATIVE ctx)) in
    let mat_qry := ArrayOf (irast.path_id_of gb) (SubqueryOf gb (rel ctx)) in
    let ungrouped := has_ungrouped (group_uses_of stmt) in
    let scope :=
      compile_group_scope first_target_name stmt (group_uses_of stmt) ctx
                          groupctx (MkEnv (aliases e) (S (scopes e))) in
    filter is_set_to_array effs
    = (if ungrouped
       then [set_to_array (irast.path_id_of gb) true (SubqueryOf gb (rel ctx))
                          matctx]
       else [])
    /\ filter is_packed_put_path_var effs
       = (if ungrouped
          then [put_path_var grouprel (irast.path_id_of gb)
                             (pgast.RelRef mat_qry) pgast.value pgast.packed]
          else [])
    /\ match outcome scope with
       | inr packed =>
           packed = ungrouped
           /\ filter is_parent_attachment effs
              = [if ungrouped
                 then include_rvar (context.stmt ctx) group_rvar
                                   (irast.path_id_of gb) pgast.packed
                                   false false (Some [pgast.value]) ctx
                 else rel_join (context.stmt ctx) group_rvar ctx]
       | inl _ => filter is_parent_attachment effs = []
       end
    /\ (if only_in_aggregate_arguments stmt then True else ungrouped = true).
Proof.
  intros ftn stmt ctx parent_ctx e effs gb grouprel groupctx group_rvar
         matctx mat_qry ungrouped scope.
  split; [|split; [|split]].
  - destruct (group_filter is_set_to_array ftn stmt ctx parent_ctx e)
      as (e2 & E); try class_excluded.
    cbn zeta in E. fold effs grouprel groupctx ungrouped scope in E.
    rewrite E, materialize_arrays.
    destruct (outcome scope), ungrouped; reflexivity.
  - destruct (group_filter is_packed_put_path_var ftn stmt ctx parent_ctx e)
      as (e2 & E); try class_excluded.
    cbn zeta in E. fold effs grouprel groupctx ungrouped scope in E.
    rewrite E, materialize_packed.
    destruct (outcome scope), ungrouped; reflexivity.
  - destruct (group_filter is_parent_attachment ftn stmt ctx parent_ctx e)
      as (e2 & E); try class_excluded.
    cbn zeta in E. fold effs grouprel groupctx ungrouped scope in E.
    rewrite E, materialize_no_attachment.
    pose proof (run.scope_packed ftn stmt (group_uses_of stmt) ctx groupctx
                                 (MkEnv (aliases e) (S (scopes e)))) as Hp.
    fold scope ungrouped in Hp.
    destruct (outcome scope) as [x|packed].
    + now destruct ungrouped.
    + split; [exact (Hp packed eq_refl)|].
      destruct ungrouped; reflexivity.
  - destruct (only_in_aggregate_arguments stmt) eqn:Hbare; [exact I|].
    unfold only_in_aggregate_arguments in Hbare.
    apply negb_false_iff in Hbare.
    apply (walk.occurrence_recorded
             true (irast.path_id_of (GroupStmt.group_binding stmt))
             (map irast.path_id_of (GroupStmt.using_values stmt))
             (GroupStmt.result stmt)).
    + split; [reflexivity|]. split; reflexivity.
    + exact Hbare.
Qed.

(** Scenario C of the specification, [(count(g), g.a)]: one sighting,
    under [count]; no materialization, one hoisted aggregate, a join. *)
Example scenario_C_hoists :
  let effs :=
    effects (_compile_group examples.unnamed examples.scenario_C
                            examples.ctx examples.ctx examples.env) in
  group_uses_of examples.scenario_C = [Some (examples.count 31 (examples.g 2))]
  /\ filter is_set_to_array effs = []
  /\ filter is_hoist_effect effs
     = [process_set_as_agg_expr_inner
          (examples.count 31 (examples.g 2)) (ScopeRel 3) pgast.value true
          (MkLevel (ScopeRel 0) (ScopeRel 3) [[]; [(4, None)]] None
                   [Unscoped] None);
        get_path_value_output (ScopeRel 3) 20;
        put_path_value_var (ScopeRel 1) 20 (pgast.RelRef (ScopeRel 3))]
  /\ filter is_parent_attachment effs
     = [rel_join (ScopeRel 0) (pgast.RvarForRel (ScopeRel 1) true) examples.ctx].
Proof.
  repeat split.
Qed.

(** Scenario D of the specification, [(array_agg(g), g)]: two sightings,
    one under [array_agg] and one ungrouped; the aggregate is hoisted and
    the group is materialized once and attached packed. *)
Example scenario_D_hoists_and_packs :
  let effs :=
    effects (_compile_group examples.unnamed examples.scenario_D
                            examples.ctx examples.ctx examples.env) in
  group_uses_of examples.scenario_D
  = [Some (examples.array_agg 31 (examples.g 2)); None]
  /\ List.length (filter is_set_to_array effs) = 1
  /\ List.length (filter is_packed_put_path_var effs) = 1
  /\ filter is_hoist_effect effs
     = [process_set_as_agg_expr_inner
          (examples.array_agg 31 (examples.g 2)) (ScopeRel 3) pgast.value true
          (MkLevel (ScopeRel 0) (ScopeRel 3) [[]; [(4, None)]] None
                   [Unscoped] None);
        get_path_value_output (ScopeRel 3) 21;
        put_path_value_var (ScopeRel 1) 21 (pgast.RelRef (ScopeRel 3))]
  /\ filter is_parent_attachment effs
     = [include_rvar (ScopeRel 0) (pgast.RvarForRel (ScopeRel 1) true) 1
                     pgast.packed false false (Some [pgast.value])
                     examples.ctx].
Proof.
  repeat split.
Qed.

(** C2, as stated, fails.  In the result [count((SELECT g ORDER BY a))]
    the one occurrence of the group binding lies inside the set-accepting
    argument of [count], a call backed by an SQL function that returns no
    set; yet the nested ORDER BY resets the context, the sighting is
    ungrouped, [packed] is true and an array materialization is built.
    The amended claim is proved with the hoisting of the aggregates,
    at the end of the properties of the orchestrator. *)
Lemma C2_counterexample :
  let stmt := examples.ordered_in_count in
  let effs :=
    effects (_compile_group examples.unnamed stmt examples.ctx examples.ctx
                            examples.env) in
  only_in_aggregate_arguments stmt = true
  /\ group_uses_of stmt = [None]
  /\ outcome (compile_group_scope
                examples.unnamed stmt (group_uses_of stmt) examples.ctx
                (with_rel (ScopeRel 1) examples.ctx) (MkEnv 0 2))
     = inr true
  /\ List.length (filter is_set_to_array effs) = 1.
Proof.
  repeat split.
Qed.

(** C7, as stated, fails.  The filter and the ordering of this statement
    are references to the group binding, which the analyzer would record
    if it visited them; its result does not mention the group binding, and
    the analysis yields no context at all. *)
Lemma C7_counterexample :
  let stmt := examples.filtered_on_group in
  let tgt := irast.path_id_of (GroupStmt.group_binding stmt) in
  let skip := map irast.path_id_of (GroupStmt.using_values stmt) in
  GroupStmt.where_ stmt = Some (examples.g 2)
  /\ GroupStmt.orderby stmt = Some [examples.g 3]
  /\ reached tgt skip (examples.g 2) = true
  /\ reached tgt skip (examples.g 3) = true
  /\ group_uses_of stmt = [].
Proof.
  repeat split.
Qed.

(** C7, amended: for every GROUP statement, the aggregating-use analysis
    is applied to the result of the statement only, with the PathId of the
    group binding as target and the PathIds of the [using] values as
    skip-set; an occurrence of the group binding that the analyzer reaches
    in the result contributes a context to the output set, and the where
    and order-by sub-expressions contribute nothing. *)
Theorem C7_analysis_of_the_result_only :
  forall stmt,
    let tgt := irast.path_id_of (GroupStmt.group_binding stmt) in
    let skip := map irast.path_id_of (GroupStmt.using_values stmt) in
    group_uses_of stmt
    = FindAggregatingUses.sightings
        (FindAggregatingUses.visit (GroupStmt.result stmt)
                                   (FindAggregatingUses.init tgt skip))
    /\ (forall where_ where_card orderby,
           group_uses_of
             (GroupStmt.Mk (GroupStmt.subject stmt) (GroupStmt.using_ stmt)
                           (GroupStmt.by_ stmt) (GroupStmt.result stmt)
                           (GroupStmt.group_binding stmt)
                           (GroupStmt.grouping_binding stmt)
                           where_ where_card orderby
                           (GroupStmt.materialized_sets stmt))
           = group_uses_of stmt)
    /\ (if reached tgt skip (GroupStmt.result stmt)
        then group_uses_of stmt <> []
        else True).
Proof.
  intros stmt tgt skip. split; [reflexivity|]. split; [reflexivity|].
  destruct (reached tgt skip (GroupStmt.result stmt)) eqn:Hre; [|exact I].
  apply (walk.occurrence_recorded false tgt skip (GroupStmt.result stmt)).
  - split; [reflexivity|]. split; [reflexivity|]. discriminate.
  - exact Hre.
Qed.

(** * The claims about the grouping elements and the grouping value *)

Lemma comprehension_no_assertion {A B : Type} (f : A -> M B) l :
  Forall (fun x => forall e, is_AssertionError (outcome (f x e)) = false) l ->
  forall e, is_AssertionError (outcome (comprehension f l e)) = false.
Proof.
  induction 1 as [|x l Hx Hl IH]; intros e; [reflexivity|].
  change (comprehension f (x :: l))
    with (bind (f x) (fun y => bind (comprehension f l)
                                    (fun ys => ret (y :: ys)))).
  rewrite run.outcome_bind. specialize (Hx e).
  destruct (outcome (f x e)) as [x0|y]; [exact Hx|].
  rewrite run.outcome_bind. specialize (IH (env_after (f x e))).
  destruct (outcome (comprehension f l (env_after (f x e)))); [exact IH|].
  reflexivity.
Qed.

Lemma atom_no_assertion stmt ctx :
  forall el, recognized_atom el = true ->
             forall e, is_AssertionError
                         (outcome (compile_grouping_atom el stmt ctx e)) = false.
Proof.
  induction el as [name|elements IH|]; intros Hrec e.
  - cbn [compile_grouping_atom]. rewrite run.outcome_bind.
    unfold dict_get. destruct (dict_lookup (GroupStmt.using_ stmt) name);
      reflexivity.
  - cbn [compile_grouping_atom]. rewrite run.outcome_bind.
    assert (H : is_AssertionError
                  (outcome (comprehension
                              (fun at_ => compile_grouping_atom at_ stmt ctx)
                              elements e)) = false).
    { apply comprehension_no_assertion.
      cbn [recognized_atom] in Hrec. rewrite forallb_forall in Hrec.
      apply walk.all_Forall_gen in IH.
      apply Forall_forall. intros x Hx.
      rewrite Forall_forall in IH. exact (IH x Hx (Hrec x Hx)). }
    destruct (outcome _) in H |- *; [exact H|reflexivity].
  - discriminate.
Qed.

Lemma el_no_assertion stmt ctx :
  forall el, recognized_el el = true ->
             forall e, is_AssertionError
                         (outcome (compile_grouping_el el stmt ctx e)) = false.
Proof.
  induction el as [element|sets IH|oper elements|]; intros Hrec e.
  - now apply atom_no_assertion.
  - cbn [compile_grouping_el]. rewrite run.outcome_bind.
    assert (H : is_AssertionError
                  (outcome (comprehension
                              (fun sub => compile_grouping_el sub stmt ctx)
                              sets e)) = false).
    { apply comprehension_no_assertion.
      cbn [recognized_el] in Hrec. rewrite forallb_forall in Hrec.
      apply walk.all_Forall_gen in IH.
      apply Forall_forall. intros x Hx.
      rewrite Forall_forall in IH. exact (IH x Hx (Hrec x Hx)). }
    destruct (outcome _) in H |- *; [exact H|reflexivity].
  - cbn [compile_grouping_el]. rewrite run.outcome_bind.
    assert (H : is_AssertionError
                  (outcome (comprehension
                              (fun at_ => compile_grouping_atom at_ stmt ctx)
                              elements e)) = false).
    { apply comprehension_no_assertion.
      cbn [recognized_el] in Hrec. rewrite forallb_forall in Hrec.
      apply Forall_forall. intros x Hx.
      apply atom_no_assertion. exact (Hrec x Hx). }
    destruct (outcome _) in H |- *; [exact H|reflexivity].
  - discriminate.
Qed.

Lemma total_comprehension {A B : Type} (f : A -> M B) l :
  Forall (fun x => total (f x)) l -> total (comprehension f l).
Proof.
  induction 1 as [|x l Hx Hl IH]; [apply run.total_ret|].
  apply (run.total_bind (f x)); [exact Hx|]. intros y.
  apply (run.total_bind (comprehension f l)); [exact IH|]. intros ys.
  apply run.total_ret.
Qed.

Lemma atom_value stmt ctx :
  forall el, recognized_atom el = true -> bound_atom stmt el = true ->
             total (compile_grouping_atom el stmt ctx).
Proof.
  induction el as [name|elements IH|]; intros Hrec Hbound.
  - cbn [bound_atom] in Hbound. intros e. cbn [compile_grouping_atom].
    rewrite run.outcome_bind. unfold dict_get.
    destruct (dict_lookup (GroupStmt.using_ stmt) name); [|discriminate].
    eexists. reflexivity.
  - cbn [recognized_atom] in Hrec. cbn [bound_atom] in Hbound.
    rewrite forallb_forall in Hrec, Hbound.
    apply walk.all_Forall_gen in IH. rewrite Forall_forall in IH.
    apply (run.total_bind
             (comprehension (fun at_ => compile_grouping_atom at_ stmt ctx)
                            elements)).
    + apply total_comprehension. apply Forall_forall. intros x Hx.
      exact (IH x Hx (Hrec x Hx) (Hbound x Hx)).
    + intros args. apply run.total_ret.
  - discriminate.
Qed.

Lemma el_value stmt ctx :
  forall el, recognized_el el = true -> bound_el stmt el = true ->
             total (compile_grouping_el el stmt ctx).
Proof.
  induction el as [element|sets IH|oper elements|]; intros Hrec Hbound.
  - now apply atom_value.
  - cbn [recognized_el] in Hrec. cbn [bound_el] in Hbound.
    rewrite forallb_forall in Hrec, Hbound.
    apply walk.all_Forall_gen in IH. rewrite Forall_forall in IH.
    apply (run.total_bind
             (comprehension (fun sub => compile_grouping_el sub stmt ctx) sets)).
    + apply total_comprehension. apply Forall_forall. intros x Hx.
      exact (IH x Hx (Hrec x Hx) (Hbound x Hx)).
    + intros args. apply run.total_ret.
  - cbn [recognized_el] in Hrec. cbn [bound_el] in Hbound.
    rewrite forallb_forall in Hrec, Hbound.
    apply (run.total_bind
             (comprehension (fun at_ => compile_grouping_atom at_ stmt ctx)
                            elements)).
    + apply total_comprehension. apply Forall_forall. intros x Hx.
      apply atom_value; auto.
    + intros args. apply run.total_ret.
  - discriminate.
Qed.

(** C8: a grouping element of no recognized shape makes
    [compile_grouping_el] raise at once the [AssertionError] "Unknown
    GroupingElement", with no value returned and nothing done, and an
    atom of no recognized shape fails the assertion of
    [compile_grouping_atom]; an element made of recognized shapes never
    ends in an [AssertionError], and is compiled to a value when its atoms
    are bound in [using]. *)
Theorem C8_unknown_grouping_element_is_fatal :
  (forall stmt ctx e,
      compile_grouping_el qlast.OtherElement stmt ctx e
      = MkOutcome (inl (AssertionError "Unknown GroupingElement")) e [])
  /\ (forall stmt ctx e,
         compile_grouping_atom qlast.OtherAtom stmt ctx e
         = MkOutcome (inl (AssertionError "")) e [])
  /\ (forall el stmt ctx e,
         recognized_el el = true ->
         is_AssertionError (outcome (compile_grouping_el el stmt ctx e)) = false
         /\ (bound_el stmt el = true ->
             exists v, outcome (compile_grouping_el el stmt ctx e) = inr v)).
Proof.
  split; [reflexivity|]. split; [reflexivity|].
  intros el stmt ctx e Hrec. split.
  - now apply el_no_assertion.
  - intros Hbound. now apply el_value.
Qed.

(** The witness of C8: the GROUPING SETS element of scenario B. *)
Lemma C8_witness :
  let el := qlast.GroupingSets [qlast.GroupingSimple (qlast.ObjectRef "a");
                                qlast.GroupingSimple (qlast.ObjectRef "b")] in
  recognized_el el = true
  /\ outcome (compile_grouping_el el examples.scenario_B examples.ctx
                                  examples.env)
     = inr (pgast.GroupingOperation
              (Some "GROUPING SETS")
              [pgast.PathVar (ScopeRel 0) 2 pgast.value;
               pgast.PathVar (ScopeRel 0) 3 pgast.value])
  /\ is_AssertionError
       (outcome (compile_grouping_el el examples.scenario_B examples.ctx
                                     examples.env)) = false.
Proof.
  split; [reflexivity|]. split; [reflexivity|].
  exact (proj1 (proj2 (proj2 C8_unknown_grouping_element_is_fatal)
                      (qlast.GroupingSets
                         [qlast.GroupingSimple (qlast.ObjectRef "a");
                          qlast.GroupingSimple (qlast.ObjectRef "b")])
                      examples.scenario_B examples.ctx examples.env eq_refl)).
Defined.

(** C4: when the [by] elements reference exactly one distinct key, the
    grouping value is the constant one-element array that names the key
    (its name up to the first [~]); nothing else is done: no sub-query on
    the grouping indicator, no alias drawn, no path looked up.  The
    binding is registered with that array.  A statement that asks for no
    grouping binding has no grouping value at all. *)
Theorem C4_single_key_constant_array :
  forall stmt ctx e name,
    collect_grouping_atoms (GroupStmt.by_ stmt) = [name] ->
    let array := pgast.ArrayExpr [pgast.StringConstant (split_head tilde name)] in
    match GroupStmt.grouping_binding stmt with
    | Some grouping_binding =>
        _compile_grouping_value stmt ctx e = MkOutcome (inr array) e []
        /\ _compile_grouping_binding stmt ctx e
           = MkOutcome (inr tt) e
               [put_path_var (rel ctx) (irast.path_id_of grouping_binding)
                             array pgast.value pgast.normal]
    | None =>
        _compile_grouping_value stmt ctx e
        = MkOutcome (inl (AssertionError "")) e []
    end.
Proof.
  intros stmt ctx e name Hone array.
  unfold _compile_grouping_binding, _compile_grouping_value.
  destruct (GroupStmt.grouping_binding stmt) as [gb|]; [|reflexivity].
  cbn [truthy_opt negb]. rewrite Hone. split; reflexivity.
Qed.

(** The witness of C4: scenario A, [GROUP x BY x.a]. *)
Lemma C4_witness :
  collect_grouping_atoms (GroupStmt.by_ examples.scenario_A) = ["a"]
  /\ _compile_grouping_value examples.scenario_A examples.ctx examples.env
     = MkOutcome (inr (pgast.ArrayExpr [pgast.StringConstant "a"]))
                 examples.env [].
Proof.
  split; [reflexivity|].
  exact (proj1 (C4_single_key_constant_array
                  examples.scenario_A examples.ctx examples.env "a" eq_refl)).
Defined.

Lemma ordered_add_NoDup name atoms :
  NoDup atoms -> NoDup (ordered_add name atoms).
Proof.
  intros Hn. unfold ordered_add.
  destruct (existsb (String.eqb name) atoms) eqn:E; [exact Hn|].
  apply NoDup_app; [exact Hn|constructor; [intros []|constructor]|].
  intros x Hx [E2|[]]. subst x.
  assert (existsb (String.eqb name) atoms = true).
  { apply existsb_exists. exists name. split; [exact Hx|apply String.eqb_refl]. }
  congruence.
Qed.

Lemma fold_NoDup {A : Type} (f : A -> list string -> list string) l :
  Forall (fun x => forall atoms, NoDup atoms -> NoDup (f x atoms)) l ->
  forall atoms, NoDup atoms -> NoDup (fold_left (fun acc x => f x acc) l atoms).
Proof.
  induction 1 as [|x l Hx Hl IH]; intros atoms Hn; [exact Hn|].
  cbn. apply IH. now apply Hx.
Qed.

Lemma collect_atom_NoDup :
  forall el atoms, NoDup atoms -> NoDup (collect_atom el atoms).
Proof.
  induction el as [name|elements IH|]; intros atoms Hn.
  - now apply ordered_add_NoDup.
  - cbn [collect_atom]. apply (fold_NoDup collect_atom); [|exact Hn].
    now apply walk.all_Forall_gen in IH.
  - exact Hn.
Qed.

Lemma collect_el_NoDup :
  forall el atoms, NoDup atoms -> NoDup (collect_el el atoms).
Proof.
  induction el as [element|sets IH|oper elements|]; intros atoms Hn.
  - now apply collect_atom_NoDup.
  - cbn [collect_el]. apply (fold_NoDup collect_el); [|exact Hn].
    now apply walk.all_Forall_gen in IH.
  - cbn [collect_el]. apply (fold_NoDup collect_atom); [|exact Hn].
    apply Forall_forall. intros x _. apply collect_atom_NoDup.
  - exact Hn.
Qed.

Lemma collect_grouping_atoms_NoDup els : NoDup (collect_grouping_atoms els).
Proof.
  apply (fold_NoDup collect_el); [|constructor].
  apply Forall_forall. intros x _. apply collect_el_NoDup.
Qed.

Lemma dict_put_new {V : Type} (d : list (string * V)) k v :
  ~ In k (map fst d) -> dict_put d k v = d ++ [(k, v)].
Proof.
  induction d as [|[k' w] d IH]; intros Hk; [reflexivity|].
  cbn in *. destruct (String.eqb k' k) eqn:E.
  - apply String.eqb_eq in E. tauto.
  - rewrite IH; tauto.
Qed.

Lemma used_bindings_run stmt keys :
  (forall k, In k keys -> dict_lookup (GroupStmt.using_ stmt) k <> None) ->
  NoDup keys ->
  forall acc e,
    (forall k, In k keys -> ~ In k (map fst acc)) ->
    exists using_,
      used_bindings stmt keys acc e = MkOutcome (inr using_) e []
      /\ map fst using_ = map fst acc ++ keys.
Proof.
  induction keys as [|k keys IH]; intros Hb Hn acc e Hacc.
  - exists acc. split; [reflexivity|]. now rewrite app_nil_r.
  - change (used_bindings stmt (k :: keys) acc)
      with (bind (dict_get (GroupStmt.using_ stmt) k)
                 (fun v => used_bindings stmt keys (dict_put acc k v))).
    unfold dict_get.
    destruct (dict_lookup (GroupStmt.using_ stmt) k) as [v|] eqn:Hk;
      [|exfalso; apply (Hb k); [left; reflexivity|exact Hk]].
    inversion Hn as [|? ? Hnk Hn']; subst.
    destruct (IH (fun k' H => Hb k' (or_intror H)) Hn' (dict_put acc k v) e)
      as (using_ & E & Hfst).
    { intros k' Hk'. rewrite dict_put_new by (apply Hacc; left; reflexivity).
      rewrite map_app, in_app_iff. cbn. intros [H|[<-|[]]].
      - exact (Hacc k' (or_intror Hk') H).
      - exact (Hnk Hk'). }
    exists using_. split.
    + unfold bind. cbn [ret outcome env_after effects]. rewrite E. reflexivity.
    + rewrite Hfst, dict_put_new by (apply Hacc; left; reflexivity).
      rewrite map_app. cbn. now rewrite <- app_assoc.
Qed.

Lemma path_vars_run r (l : list irast.Base) e :
  comprehension (fun alias_set => path_var r (irast.path_id_of alias_set) pgast.value) l e
  = MkOutcome
      (inr (map (fun a => pgast.PathVar r (irast.path_id_of a) pgast.value) l))
      e
      (map (fun a => get_path_var r (irast.path_id_of a) pgast.value) l).
Proof.
  induction l as [|a l IH]; [reflexivity|].
  set (f := fun alias_set =>
              path_var r (irast.path_id_of alias_set) pgast.value) in *.
  change (comprehension f (a :: l))
    with (bind (f a) (fun y => bind (comprehension f l)
                                    (fun ys => ret (y :: ys)))).
  unfold bind at 1. unfold f at 1 2 3. cbn [path_var bind call ret outcome env_after effects].
  change (env_after (f a e)) with e.
  change (effects (f a e))
    with [get_path_var r (irast.path_id_of a) pgast.value].
  unfold bind. rewrite IH. cbn. now rewrite app_nil_r.
Qed.

Lemma nth_error_enumerate_from {A : Type} (l : list A) :
  forall j i, nth_error (enumerate_from j l) i
              = option_map (fun x => (j + i, x)) (nth_error l i).
Proof.
  induction l as [|x l IH]; intros j i.
  - now destruct i.
  - destruct i as [|i]; cbn.
    + now rewrite Nat.add_0_r.
    + rewrite IH. now rewrite Nat.add_succ_r.
Qed.

Lemma length_enumerate_from {A : Type} (l : list A) :
  forall j, List.length (enumerate_from j l) = List.length l.
Proof.
  induction l as [|x l IH]; intros j; cbn; [reflexivity|now rewrite IH].
Qed.

Lemma Name_eqb_refl n : pgast.Name_eqb n n = true.
Proof.
  destruct n; cbn; [apply String.eqb_refl|].
  now rewrite String.eqb_refl, Nat.eqb_refl.
Qed.

Lemma eval_mask len i :
  option_map (fun d => sql.VInt (Z.of_uint d))
             (NilEmpty.uint_of_string (str (mask_of len i)))
  = Some (sql.VInt (Z.of_N (mask_of len i))).
Proof.
  unfold str. rewrite NilEmpty.usu. cbn [option_map].
  f_equal. f_equal. unfold Z.of_uint.
  change (Pos.of_uint (N.to_uint (mask_of len i)))
    with (N.of_uint (N.to_uint (mask_of len i))).
  now rewrite DecimalN.Unsigned.of_to.
Qed.

Lemma eval_grouping_case alias indicator len i name :
  sql.eval (sql.indicator_column alias indicator)
           (grouping_case (pgast.ColumnRef [alias] false) len i name)
  = Some (if Z.eqb (Z.land indicator (Z.of_N (mask_of len i))) 0
          then sql.VText (split_head tilde name)
          else sql.VNull).
Proof.
  unfold grouping_case.
  cbn [sql.eval]. rewrite eval_mask.
  unfold sql.indicator_column at 1. rewrite Name_eqb_refl.
  cbn [String.eqb Ascii.eqb Bool.eqb].
  change (option_map (fun d => sql.VInt (Z.of_uint d))
                     (NilEmpty.uint_of_string "0"))
    with (Some (sql.VInt 0)).
  cbn [sql.equal].
  now destruct (Z.land indicator (Z.of_N (mask_of len i)) =? 0)%Z.
Qed.

Lemma mask_of_power len i :
  Z.of_N (mask_of len i) = (2 ^ Z.of_nat (len - i - 1))%Z.
Proof.
  unfold mask_of. rewrite N.shiftl_1_l, N2Z.inj_pow, nat_N_Z. reflexivity.
Qed.

(** Evaluating a list of cases and removing the nulls. *)
Lemma eval_cases alias indicator len :
  forall (pairs : list (nat * string)),
    sql.sequence
      (map (sql.eval (sql.indicator_column alias indicator))
           (map (fun '(i, name) =>
                   grouping_case (pgast.ColumnRef [alias] false) len i name)
                pairs))
    = Some (map (fun '(i, name) =>
                   if Z.eqb (Z.land indicator (Z.of_N (mask_of len i))) 0
                   then sql.VText (split_head tilde name)
                   else sql.VNull) pairs).
Proof.
  induction pairs as [|[i name] pairs IH]; [reflexivity|].
  cbn [map sql.sequence fold_right].
  unfold sql.sequence in IH. rewrite IH, eval_grouping_case. reflexivity.
Qed.

Lemma remove_nulls indicator len :
  forall (pairs : list (nat * string)),
    filter (fun v => negb (sql.not_distinct v sql.VNull))
           (map (fun '(i, name) =>
                   if Z.eqb (Z.land indicator (Z.of_N (mask_of len i))) 0
                   then sql.VText (split_head tilde name)
                   else sql.VNull) pairs)
    = map sql.VText
          (map (fun '(i, name) => split_head tilde name)
               (filter (fun '(i, _) =>
                          Z.eqb (Z.land indicator (Z.of_N (mask_of len i))) 0)
                       pairs)).
Proof.
  induction pairs as [|[i name] pairs IH]; [reflexivity|].
  cbn [map filter].
  destruct (Z.land indicator (Z.of_N (mask_of len i)) =? 0)%Z;
    cbn [sql.not_distinct sql.equal negb map]; now rewrite IH.
Qed.

(** C3: in the general path, with N > 1 distinct keys referenced by the
    [by] elements and bound in [using], the grouping value is the query
    whose one target is [array_remove(ARRAY[els], NULL)].  The element for
    the key at position i of the collected keys is
    [CASE (g & mask) WHEN 0 THEN name ELSE NULL END] with the mask
    [1 << (N - 1 - i)], where [g] is the column of the grouping indicator
    and [name] the key up to its first [~]: it evaluates to the name
    exactly when [indicator & mask] is 0 and to null otherwise, and the
    whole expression to the array of the names so selected, nulls
    removed. *)
Theorem C3_grouping_value_bitmask_decode :
  forall stmt ctx e keys grouping_binding,
    GroupStmt.grouping_binding stmt = Some grouping_binding ->
    collect_grouping_atoms (GroupStmt.by_ stmt) = keys ->
    1 < List.length keys ->
    (forall k, In k keys -> dict_lookup (GroupStmt.using_ stmt) k <> None) ->
    let n := List.length keys in
    let alias := pgast.Generated "g" (aliases e) in
    let grouping_ref := pgast.ColumnRef [alias] false in
    let column := sql.indicator_column alias in
    exists els from_clause,
      outcome (_compile_grouping_value stmt ctx e)
      = inr (pgast.SelectStmt
               [pgast.ResTarget None
                  (pgast.FuncCall ["array_remove"]
                                  [pgast.ArrayExpr els; pgast.NullConstant])]
               from_clause)
      /\ List.length els = n
      /\ (forall i name,
             nth_error keys i = Some name ->
             nth_error els i
             = Some (pgast.CaseExpr
                       (pgast.Expr pgast.OP "&" grouping_ref
                                   (pgast.LiteralExpr (str (mask_of n i))))
                       [pgast.CaseWhen (pgast.LiteralExpr "0")
                                       (pgast.StringConstant
                                          (split_head tilde name))]
                       pgast.NullConstant)
             /\ Z.of_N (mask_of n i) = Z.shiftl 1 (Z.of_nat (n - 1 - i))
             /\ forall indicator,
                 sql.eval (column indicator)
                          (pgast.CaseExpr
                             (pgast.Expr pgast.OP "&" grouping_ref
                                         (pgast.LiteralExpr (str (mask_of n i))))
                             [pgast.CaseWhen (pgast.LiteralExpr "0")
                                             (pgast.StringConstant
                                                (split_head tilde name))]
                             pgast.NullConstant)
                 = Some (if Z.eqb (Z.land indicator
                                          (Z.shiftl 1 (Z.of_nat (n - 1 - i)))) 0
                         then sql.VText (split_head tilde name)
                         else sql.VNull))
      /\ (forall indicator,
             sql.eval (column indicator)
                      (pgast.FuncCall ["array_remove"]
                                      [pgast.ArrayExpr els; pgast.NullConstant])
             = Some (sql.VArray (map sql.VText (grouped_on indicator keys)))).
Proof.
  intros stmt ctx e keys gb Hgb Hkeys Hlen Hbound n alias grouping_ref column.
  destruct (used_bindings_run stmt keys Hbound
              ltac:(rewrite <- Hkeys; apply collect_grouping_atoms_NoDup)
              [] e (fun _ _ H => H))
    as (using_ & Hrun & Hfst).
  cbn [map app] in Hfst.
  assert (Hn : List.length using_ = n)
    by (unfold n; rewrite <- Hfst; now rewrite length_map).
  unfold _compile_grouping_value. rewrite Hgb. cbn [truthy_opt negb].
  rewrite Hkeys.
  destruct keys as [|k1 [|k2 rest]]; [cbn in Hlen; lia|cbn in Hlen; lia|].
  set (keys := k1 :: k2 :: rest) in *.
  rewrite run.outcome_bind, Hrun. cbn [outcome env_after].
  rewrite run.outcome_bind, path_vars_run. cbn [outcome env_after].
  rewrite Hfst, Hn.
  set (els := map (fun '(i, name) => grouping_case grouping_ref n i name)
                  (enumerate keys)).
  exists els. eexists. split; [reflexivity|].
  split; [unfold els, enumerate; now rewrite length_map, length_enumerate_from|].
  assert (Hmask : forall i, i < n ->
                            Z.of_N (mask_of n i) = Z.shiftl 1 (Z.of_nat (n - 1 - i))).
  { intros i Hi. rewrite mask_of_power, Z.shiftl_1_l.
    f_equal. f_equal. lia. }
  split.
  - intros i name Hi.
    assert (Hlt : i < n) by (apply nth_error_Some; congruence).
    split; [|split].
    + unfold els, enumerate.
      rewrite nth_error_map, nth_error_enumerate_from, Hi. reflexivity.
    + now apply Hmask.
    + intros indicator. rewrite <- (Hmask i Hlt).
      apply eval_grouping_case.
  - intros indicator.
    cbn [sql.eval sql.is_name String.eqb Ascii.eqb Bool.eqb].
    unfold els. unfold column. rewrite eval_cases. cbn [option_map].
    rewrite remove_nulls. reflexivity.
Qed.

(** The witness of C3: scenario B, [GROUP x BY {x.a, x.b}], with the masks
    2 and 1; on the indicator 1 the row was grouped on [a] only. *)
Lemma C3_witness :
  collect_grouping_atoms (GroupStmt.by_ examples.scenario_B) = ["a"; "b"]
  /\ exists els,
      List.length els = 2
      /\ nth_error els 0
         = Some (grouping_case (pgast.ColumnRef [pgast.Generated "g" 0] false)
                               2 0 "a")
      /\ str (mask_of 2 0) = "2" /\ str (mask_of 2 1) = "1"
      /\ sql.eval (sql.indicator_column (pgast.Generated "g" 0) 1)
                  (pgast.FuncCall ["array_remove"]
                                  [pgast.ArrayExpr els; pgast.NullConstant])
         = Some (sql.VArray [sql.VText "a"]).
Proof.
  split; [reflexivity|].
  destruct (C3_grouping_value_bitmask_decode
              examples.scenario_B examples.ctx examples.env ["a"; "b"]
              examples.grouping eq_refl eq_refl (le_n 2))
    as (els & from_clause & _ & Hlen & Hels & Harr).
  { intros k [<-|[<-|[]]]; discriminate. }
  exists els. split; [exact Hlen|]. split.
  - exact (proj1 (Hels 0 "a" eq_refl)).
  - split; [reflexivity|]. split; [reflexivity|]. exact (Harr 1%Z).
Defined.

End OrchestratorClaims.

(** * Further properties of the analyzer *)

Section AnalyzerProperties.
Import irast FindAggregatingUses props.

Section Tells.
Variable tgt : PathId.
Variable skip : list PathId.
Variable c : Context.

Lemma at_home_frame ctx v v' :
  frame v v' -> at_home tgt skip ctx v -> at_home tgt skip ctx v'.
Proof.
  intros (A & B & C) (D & E & F). repeat split; congruence.
Qed.

Lemma tells_container l :
  Forall (tells tgt skip c) l ->
  forall ctx v, at_home tgt skip ctx v ->
    mem c (sightings (container_visit visit l v))
    = mem c (sightings v) || existsb (seen tgt skip c ctx) l.
Proof.
  induction 1 as [|n l Hn Hl IH]; intros ctx v Hv.
  - cbn. now rewrite orb_false_r.
  - cbn [container_visit fold_left existsb].
    change (fold_left (fun v n => visit n v) l (visit n v))
      with (container_visit visit l (visit n v)).
    rewrite (IH ctx) by exact (at_home_frame _ _ _ (walk.framed_visit n v) Hv).
    rewrite (Hn ctx v Hv). now rewrite orb_assoc.
Qed.

Lemma tells_optional o :
  (forall n, o = Some n -> tells tgt skip c n) ->
  forall ctx v, at_home tgt skip ctx v ->
    mem c (sightings (visit_optional visit o v))
    = mem c (sightings v) || exists_opt (seen tgt skip c ctx) o.
Proof.
  destruct o as [n|]; intros Ho ctx v Hv.
  - exact (Ho n eq_refl ctx v Hv).
  - cbn. now rewrite orb_false_r.
Qed.

Lemma tells_process_call rs sql ir_set args :
  Forall (tells tgt skip c) args ->
  forall ptms ctx v, at_home tgt skip ctx v ->
    mem c (sightings (process_call visit rs sql ir_set args ptms v))
    = mem c (sightings v)
      || exists_zip
           (fun arg tm =>
              seen tgt skip c (argument_context rs sql tm ir_set ctx) arg)
           args ptms.
Proof.
  induction 1 as [|a args Ha Hargs IH]; intros ptms ctx v Hv.
  - cbn. now rewrite orb_false_r.
  - destruct ptms as [|tm ptms]; [cbn; now rewrite orb_false_r|].
    set (step := scoped (argument_context rs sql tm ir_set) (visit a)).
    change (process_call visit rs sql ir_set (a :: args) (tm :: ptms) v)
      with (process_call visit rs sql ir_set args ptms (step v)).
    assert (Hstep : frame v (step v))
      by (apply walk.framed_scoped, walk.framed_visit).
    rewrite (IH ptms ctx) by exact (at_home_frame _ _ _ Hstep Hv).
    unfold step, scoped. cbn [sightings set_aggregate exists_zip].
    destruct Hv as (Ht & Hs & Hc).
    rewrite (Ha (argument_context rs sql tm ir_set ctx))
      by (repeat split; cbn; congruence).
    cbn [sightings set_aggregate]. now rewrite orb_assoc.
Qed.

End Tells.

Section Reading.
Variable tgt : PathId.
Variable skip : list PathId.
Variable c : Context.

Local Abbreviation tells := (tells tgt skip c).
Local Abbreviation sn := (seen tgt skip c).

Ltac at_homing :=
  repeat first
    [ assumption
    | eapply at_home_frame;
      [ first [ apply walk.framed_container | apply walk.framed_optional
              | apply walk.framed_visit ] | ] ].

Lemma tells_generic_visit_Stmt f :
  Forall tells (bindings f) ->
  (forall n, iterator_stmt f = Some n -> tells n) ->
  (forall n, subject f = Some n -> tells n) ->
  tells (result f) ->
  (forall n, where_ f = Some n -> tells n) ->
  Forall tells (orderby f) ->
  (forall n, offset f = Some n -> tells n) ->
  (forall n, limit f = Some n -> tells n) ->
  Forall tells (others f) ->
  forall ctx v, at_home tgt skip ctx v ->
    mem c (sightings (generic_visit_Stmt visit f v))
    = mem c (sightings v)
      || (existsb (sn ctx) (bindings f)
          || exists_opt (sn ctx) (iterator_stmt f)
          || exists_opt (sn ctx) (subject f)
          || sn ctx (result f)
          || exists_opt (sn ctx) (where_ f)
          || existsb (sn ctx) (orderby f)
          || exists_opt (sn ctx) (offset f)
          || exists_opt (sn ctx) (limit f)
          || existsb (sn ctx) (others f)).
Proof.
  intros Hb Hi Hs Hr Hw Ho Hoff Hlim Hot ctx v Hv.
  unfold generic_visit_Stmt.
  rewrite (tells_container tgt skip c _ Hot ctx) by at_homing.
  rewrite (tells_optional tgt skip c _ Hlim ctx) by at_homing.
  rewrite (tells_optional tgt skip c _ Hoff ctx) by at_homing.
  rewrite (tells_container tgt skip c _ Ho ctx) by at_homing.
  rewrite (tells_optional tgt skip c _ Hw ctx) by at_homing.
  rewrite (tells_optional tgt skip c _ Hs ctx) by at_homing.
  rewrite (tells_container tgt skip c _ Hb ctx) by at_homing.
  rewrite (tells_optional tgt skip c _ Hi ctx) by at_homing.
  rewrite (Hr ctx v Hv).
  btauto.
Qed.

Theorem visit_tells : forall n, tells n.
Proof.
  assert (H : forall n,
             tells n
             /\ match n with
                | FunctionCall _ _ args _ | OperatorCall _ args _ =>
                    Forall tells args
                | _ => True
                end).
  { induction n as [uid p rptr Hrptr shape Hshape expr Hexpr
                   | source [Hsource _]
                   | fsf tm args Hargs ptms
                   | tm args Hargs ptms
                   | e [He _]
                   | kind f Hf
                   | children Hchildren].
    - split; [|exact I].
      intros ctx v Hv. cbn [seen].
      cbn [visit visit_Set]. unfold in_to_skip.
      pose proof Hv as (Ht & Hs & Hagg). rewrite Hs, Ht.
      destruct (existsb (Nat.eqb p) skip); [now rewrite orb_false_r|].
      destruct (Nat.eqb p tgt).
      { unfold record_sighting. cbn [sightings].
        now rewrite walk.mem_add, Hagg. }
      assert (Hr' : forall n, rptr = Some n -> tells n)
        by (intros n E; exact (proj1 (walk.all_Some _ _ Hrptr n E))).
      assert (Hs' : Forall tells shape).
      { apply walk.all_Forall in Hshape.
        eapply Forall_impl; [|exact Hshape]. intros a Ha; apply Ha. }
      set (head := container_visit visit shape (visit_optional visit rptr v)).
      assert (Hhead : at_home tgt skip ctx head) by (unfold head; at_homing).
      assert (Hmem : mem c (sightings head)
                     = mem c (sightings v)
                       || exists_opt (sn ctx) rptr || existsb (sn ctx) shape).
      { unfold head.
        rewrite (tells_container tgt skip c _ Hs' ctx) by at_homing.
        now rewrite (tells_optional tgt skip c _ Hr' ctx) by at_homing. }
      destruct Hexpr as [e [He Hea]|].
      + destruct e as [u' p' r' s' e' | src | fsf tm args ptms
                      | tm args ptms | ce | k fs | ch];
          first [ rewrite (tells_process_call tgt skip c _ _ _ _ Hea _ ctx)
                    by exact Hhead
                | rewrite (He ctx head Hhead) ];
          rewrite Hmem; btauto.
      + cbn [visit_Set]. fold head. rewrite Hmem. btauto.
    - split; [|exact I]. intros ctx v Hv. now apply Hsource.
    - apply walk.all_Forall in Hargs.
      assert (Ha : Forall tells args).
      { eapply Forall_impl; [|exact Hargs]. intros a Ha; apply Ha. }
      split; [|exact Ha]. intros ctx v Hv.
      now apply (tells_container tgt skip c).
    - apply walk.all_Forall in Hargs.
      assert (Ha : Forall tells args).
      { eapply Forall_impl; [|exact Hargs]. intros a Ha; apply Ha. }
      split; [|exact Ha]. intros ctx v Hv.
      now apply (tells_container tgt skip c).
    - split; [|exact I]. intros ctx v Hv. now apply He.
    - split; [|exact I]. intros ctx v Hv.
      destruct Hf as [b Hb i Hi s Hs r Hr w Hw o Ho off Hoff lim Hlim m Hm ot Hot].
      set (f := MkStmtFields b i s r w o off lim m ot) in *.
      assert (Hl : forall l,
                 list_all Base
                   (fun n => tells n
                             /\ match n with
                                | FunctionCall _ _ args _
                                | OperatorCall _ args _ => Forall tells args
                                | _ => True
                                end) l ->
                 Forall tells l).
      { intros l Hall. eapply Forall_impl; [|exact (walk.all_Forall _ _ Hall)].
        intros a Ha; apply Ha. }
      assert (Hopt : forall o,
                 option_all Base
                   (fun n => tells n
                             /\ match n with
                                | FunctionCall _ _ args _
                                | OperatorCall _ args _ => Forall tells args
                                | _ => True
                                end) o ->
                 forall n, o = Some n -> tells n).
      { intros o' Hall n E. exact (proj1 (walk.all_Some _ _ Hall n E)). }
      pose proof (Hl _ Hb) as Tb. pose proof (Hopt _ Hi) as Ti.
      pose proof (Hopt _ Hs) as Ts. pose proof (proj1 Hr) as Tr.
      cbn [visit visit_Stmt seen].
      cbn [sightings set_aggregate].
      set (ctx' := if resets_context kind f then None else ctx).
      set (v0 := if resets_context kind f then set_aggregate None v else v).
      assert (Hv0 : at_home tgt skip ctx' v0).
      { unfold v0, ctx'. destruct Hv as (A & B & C).
        destruct (resets_context kind f); repeat split; assumption. }
      assert (Hm0 : mem c (sightings v0) = mem c (sightings v))
        by (unfold v0; now destruct (resets_context kind f)).
      rewrite (tells_generic_visit_Stmt f Tb Ti Ts Tr (Hopt _ Hw) (Hl _ Ho)
                 (Hopt _ Hoff) (Hopt _ Hlim) (Hl _ Hot) ctx').
      2:{ destruct (is_MutatingStmt kind); at_homing. }
      rewrite (Tr ctx') by (destruct (is_MutatingStmt kind); at_homing).
      assert (Hsub : forall w, at_home tgt skip ctx' w ->
                mem c (sightings (if is_MutatingStmt kind
                                  then visit_optional visit s w else w))
                = mem c (sightings w)
                  || (is_MutatingStmt kind && exists_opt (sn ctx') s)).
      { intros x Hx. destruct (is_MutatingStmt kind).
        - now rewrite (tells_optional tgt skip c _ Ts ctx').
        - now rewrite orb_false_r. }
      rewrite Hsub by at_homing.
      rewrite (tells_optional tgt skip c _ Ti ctx') by at_homing.
      rewrite (tells_container tgt skip c _ Tb ctx') by at_homing.
      rewrite Hm0.
      cbn [bindings iterator_stmt subject result where_ orderby offset limit
           others f].
      btauto.
    - split; [|exact I]. intros ctx v Hv.
      apply (tells_container tgt skip c); [|exact Hv].
      apply walk.all_Forall in Hchildren.
      eapply Forall_impl; [|exact Hchildren]. intros a Ha; apply Ha. }
  intros n. apply H.
Qed.

End Reading.

Section Reached.
Variable tgt : PathId.
Variable skip : list PathId.

Local Abbreviation sn := (seen tgt skip).
Local Abbreviation occ := (occurs false tgt skip false).

(** What is seen is reached. *)
Lemma seen_reached c : forall n ctx, sn c ctx n = true -> occ n = true.
Proof.
  assert (Hl : forall l,
             Forall (fun n => forall ctx, sn c ctx n = true -> occ n = true) l ->
             forall ctx, existsb (sn c ctx) l = true -> existsb occ l = true).
  { induction 1 as [|x l Hx Hl IH]; intros ctx; cbn; [auto|].
    rewrite !orb_true_iff. intros [H|H]; eauto. }
  assert (Ho : forall o,
             (forall n, o = Some n ->
                        forall ctx, sn c ctx n = true -> occ n = true) ->
             forall ctx, exists_opt (sn c ctx) o = true ->
                         exists_opt occ o = true).
  { intros [n|] H ctx; cbn; [apply (H n eq_refl)|auto]. }
  assert (Hz : forall args,
             Forall (fun n => forall ctx, sn c ctx n = true -> occ n = true) args ->
             forall (g : qltypes.TypeModifier -> Context) ptms,
               exists_zip (fun arg tm => sn c (g tm) arg) args ptms = true ->
               exists_zip (fun arg (_ : qltypes.TypeModifier) => occ arg)
                          args ptms = true).
  { induction 1 as [|x l Hx Hl' IH]; intros g ptms; [auto|].
    destruct ptms as [|tm ptms]; [auto|].
    cbn. rewrite !orb_true_iff. intros [H|H]; eauto. }
  assert (H : forall n,
             (forall ctx, sn c ctx n = true -> occ n = true)
             /\ match n with
                | FunctionCall _ _ args _ | OperatorCall _ args _ =>
                    Forall (fun a => forall ctx, sn c ctx a = true -> occ a = true)
                           args
                | _ => True
                end).
  { induction n as [uid p rptr Hrptr shape Hshape expr Hexpr
                   | source [Hsource _]
                   | fsf tm args Hargs ptms
                   | tm args Hargs ptms
                   | e [He _]
                   | kind f Hf
                   | children Hchildren].
    - split; [|exact I]. intros ctx. cbn [seen occurs].
      destruct (existsb (Nat.eqb p) skip); [auto|].
      destruct (Nat.eqb p tgt); [auto|].
      rewrite !orb_true_iff. intros [[H|H]|H].
      + left. left. revert H. apply Ho.
        intros n E. exact (proj1 (walk.all_Some _ _ Hrptr n E)).
      + left. right. revert H. apply Hl.
        apply walk.all_Forall in Hshape.
        eapply Forall_impl; [|exact Hshape]. intros a Ha; apply Ha.
      + right. destruct Hexpr as [e [He Hea]|]; [|discriminate].
        destruct e; try (revert H; apply He).
        * cbn [orb andb]. revert H. apply (Hz _ Hea).
        * cbn [orb andb]. revert H. apply (Hz _ Hea).
    - split; [exact Hsource|exact I].
    - apply walk.all_Forall in Hargs.
      assert (Ha : Forall (fun a => forall ctx, sn c ctx a = true -> occ a = true)
                          args)
        by (eapply Forall_impl; [|exact Hargs]; intros a Ha; apply Ha).
      split; [intros ctx; now apply Hl|exact Ha].
    - apply walk.all_Forall in Hargs.
      assert (Ha : Forall (fun a => forall ctx, sn c ctx a = true -> occ a = true)
                          args)
        by (eapply Forall_impl; [|exact Hargs]; intros a Ha; apply Ha).
      split; [intros ctx; now apply Hl|exact Ha].
    - split; [exact He|exact I].
    - split; [|exact I]. intros ctx.
      destruct Hf as [b Hb i Hi s Hs r Hr w Hw o Ho' off Hoff lim Hlim m Hm ot Hot].
      cbn [seen occurs bindings iterator_stmt subject result where_ orderby
           offset limit others].
      set (ctx' := if resets_context kind _ then None else ctx).
      assert (Al : forall l,
                 list_all Base
                   (fun n => (forall ctx, sn c ctx n = true -> occ n = true)
                             /\ match n with
                                | FunctionCall _ _ args _
                                | OperatorCall _ args _ =>
                                    Forall (fun a => forall ctx,
                                              sn c ctx a = true -> occ a = true)
                                           args
                                | _ => True
                                end) l ->
                 existsb (sn c ctx') l = true -> existsb occ l = true).
      { intros l Hall. apply Hl.
        eapply Forall_impl; [|exact (walk.all_Forall _ _ Hall)].
        intros a Ha; apply Ha. }
      assert (Ao : forall o,
                 option_all Base
                   (fun n => (forall ctx, sn c ctx n = true -> occ n = true)
                             /\ match n with
                                | FunctionCall _ _ args _
                                | OperatorCall _ args _ =>
                                    Forall (fun a => forall ctx,
                                              sn c ctx a = true -> occ a = true)
                                           args
                                | _ => True
                                end) o ->
                 exists_opt (sn c ctx') o = true -> exists_opt occ o = true).
      { intros o' Hall. apply Ho. intros n E.
        exact (proj1 (walk.all_Some _ _ Hall n E)). }
      intros Hx. rewrite !orb_true_iff in Hx.
      destruct Hx as [[[[[[[[H|H]|H]|H]|H]|H]|H]|H]|H];
        first [ apply Al in H; [|assumption]
              | apply Ao in H; [|assumption]
              | apply (proj1 Hr) in H ];
        rewrite H; btauto.
    - split; [|exact I]. intros ctx. apply Hl.
      apply walk.all_Forall in Hchildren.
      eapply Forall_impl; [|exact Hchildren]. intros a Ha; apply Ha. }
  intros n. apply H.
Qed.

End Reached.

Section Enclosing.
Variable tgt : PathId.
Variable skip : list PathId.
Variable s : Base.

Local Abbreviation sn := (seen tgt skip (Some s)).
Local Abbreviation occ := (occurs false tgt skip false).
Local Abbreviation P := (aggregate_over tgt skip s).
Local Abbreviation enclosed := (props.enclosed tgt skip s).

Lemma zip_reached c (g : qltypes.TypeModifier -> Context) args :
  forall ptms,
    exists_zip (fun arg tm => seen tgt skip c (g tm) arg) args ptms = true ->
    exists_zip (fun arg (_ : qltypes.TypeModifier) => occ arg) args ptms = true.
Proof.
  induction args as [|a args IH]; intros [|tm ptms]; cbn; auto.
  rewrite !orb_true_iff. intros [H|H]; [left|right; auto].
  exact (seen_reached tgt skip c a (g tm) H).
Qed.

Lemma enclosed_list l :
  Forall enclosed l ->
  forall ctx, existsb (sn ctx) l = true ->
              same_context (Some s) ctx = true \/ existsb (within P) l = true.
Proof.
  induction 1 as [|x l Hx Hl IH]; intros ctx; cbn; [discriminate|].
  intros H. apply orb_true_iff in H. destruct H as [H|H].
  - destruct (Hx ctx H) as [E|E]; [now left|right]. now rewrite E.
  - destruct (IH ctx H) as [E|E]; [now left|right]. rewrite E. btauto.
Qed.

Lemma enclosed_option o :
  (forall n, o = Some n -> enclosed n) ->
  forall ctx, exists_opt (sn ctx) o = true ->
              same_context (Some s) ctx = true \/ exists_opt (within P) o = true.
Proof.
  destruct o as [n|]; intros Ho ctx H; [|discriminate].
  exact (Ho n eq_refl ctx H).
Qed.

Lemma enclosed_zip (g : qltypes.TypeModifier -> Context) args :
  Forall enclosed args ->
  forall ptms,
    exists_zip (fun arg tm => sn (g tm) arg) args ptms = true ->
    (exists tm, In tm ptms /\ same_context (Some s) (g tm) = true)
    \/ existsb (within P) args = true.
Proof.
  induction 1 as [|a args Ha Hargs IH]; intros [|tm ptms]; cbn;
    try discriminate.
  intros H. apply orb_true_iff in H. destruct H as [H|H].
  - destruct (Ha (g tm) H) as [E|E].
    + left. exists tm. auto.
    + right. now rewrite E.
  - destruct (IH ptms H) as [(tm' & Hin & E)|E].
    + left. exists tm'. auto.
    + right. rewrite E. btauto.
Qed.

Lemma seen_enclosed : forall n, enclosed n.
Proof.
  assert (H : forall n,
             enclosed n
             /\ match n with
                | FunctionCall _ _ args _ | OperatorCall _ args _ =>
                    Forall enclosed args
                | _ => True
                end).
  { induction n as [uid p rptr Hrptr shape Hshape expr Hexpr
                   | source [Hsource _]
                   | fsf tm args Hargs ptms
                   | tm args Hargs ptms
                   | e [He _]
                   | kind f Hf
                   | children Hchildren].
    - split; [|exact I]. intros ctx Hseen.
      pose proof (seen_reached tgt skip (Some s) _ ctx Hseen) as Hocc.
      cbn [seen] in Hseen. cbn [within].
      destruct (existsb (Nat.eqb p) skip) eqn:Hskip; [discriminate|].
      destruct (Nat.eqb p tgt) eqn:Htgt; [now left|].
      rewrite !orb_true_iff in Hseen. destruct Hseen as [[H|H]|H].
      + apply enclosed_option in H.
        * destruct H as [H|H]; [now left|right]. rewrite H. btauto.
        * intros n E. exact (proj1 (walk.all_Some _ _ Hrptr n E)).
      + apply enclosed_list in H.
        * destruct H as [H|H]; [now left|right]. rewrite H. btauto.
        * apply walk.all_Forall in Hshape.
          eapply Forall_impl; [|exact Hshape]. intros a Ha; apply Ha.
      + destruct Hexpr as [e [He Hea]|]; [|discriminate].
        destruct e as [u' p' r' s' e' | src | fsf tm args ptms
                      | tm args ptms | ce | k fs | ch];
          try (destruct (He ctx H) as [E|E]; [now left|right];
               cbn [exists_opt]; rewrite E; btauto).
        * apply (enclosed_zip _ _ Hea) in H.
          destruct H as [(tm' & Hin & E)|E].
          -- unfold argument_context in E.
             destruct (returns_set_of tm) eqn:Hrs; [discriminate|].
             destruct (truthy_str fsf && qltypes.eqb tm' qltypes.SetOfType)
               eqn:Hsql; [|now left].
             right. apply andb_true_iff in Hsql. destruct Hsql as [Hf Htm].
             assert (HP : aggregate_over tgt skip s
                            (Set_ uid p rptr shape
                                  (Some (FunctionCall fsf tm args ptms)))
                          = true).
             { unfold aggregate_over. cbn [uid_of is_aggregate_use].
               cbn [same_context uid_of] in E.
               rewrite Nat.eqb_sym, E, Hf, Hrs. cbn [andb negb].
               apply andb_true_iff. split; [|exact Hocc].
               apply existsb_exists. exists tm'. auto. }
             rewrite HP. reflexivity.
          -- right. cbn [exists_opt within]. rewrite E. btauto.
        * apply (enclosed_zip _ _ Hea) in H.
          destruct H as [(tm' & Hin & E)|E].
          -- unfold argument_context in E.
             destruct (returns_set_of tm) eqn:Hrs; [discriminate|].
             cbn [andb] in E. now left.
          -- right. cbn [exists_opt within]. rewrite E. btauto.
    - split; [|exact I]. intros ctx H. cbn [seen] in H.
      destruct (Hsource ctx H) as [E|E]; [now left|right].
      cbn [within]. rewrite E. btauto.
    - apply walk.all_Forall in Hargs.
      assert (Ha : Forall enclosed args)
        by (eapply Forall_impl; [|exact Hargs]; intros a Ha; apply Ha).
      split; [|exact Ha]. intros ctx H. cbn [seen] in H.
      destruct (enclosed_list _ Ha ctx H) as [E|E]; [now left|right].
      cbn [within]. rewrite E. btauto.
    - apply walk.all_Forall in Hargs.
      assert (Ha : Forall enclosed args)
        by (eapply Forall_impl; [|exact Hargs]; intros a Ha; apply Ha).
      split; [|exact Ha]. intros ctx H. cbn [seen] in H.
      destruct (enclosed_list _ Ha ctx H) as [E|E]; [now left|right].
      cbn [within]. rewrite E. btauto.
    - split; [|exact I]. intros ctx H. cbn [seen] in H.
      destruct (He ctx H) as [E|E]; [now left|right].
      cbn [within]. rewrite E. btauto.
    - split; [|exact I]. intros ctx Hseen.
      destruct Hf as [b Hb i Hi s0 Hs r Hr w Hw o Ho' off Hoff lim Hlim m Hm ot Hot].
      cbn [seen within bindings iterator_stmt subject result where_ orderby
           offset limit others materialized_sets] in Hseen |- *.
      set (ctx' := if resets_context kind _ then None else ctx) in Hseen.
      assert (Hctx : same_context (Some s) ctx' = true ->
                     same_context (Some s) ctx = true).
      { unfold ctx'. destruct (resets_context kind _); [discriminate|auto]. }
      assert (Al : forall l,
                 list_all Base
                   (fun n => enclosed n
                             /\ match n with
                                | FunctionCall _ _ args _
                                | OperatorCall _ args _ => Forall enclosed args
                                | _ => True
                                end) l ->
                 existsb (sn ctx') l = true ->
                 same_context (Some s) ctx' = true
                 \/ existsb (within P) l = true).
      { intros l Hall. apply enclosed_list.
        eapply Forall_impl; [|exact (walk.all_Forall _ _ Hall)].
        intros a Ha; apply Ha. }
      assert (Ao : forall o,
                 option_all Base
                   (fun n => enclosed n
                             /\ match n with
                                | FunctionCall _ _ args _
                                | OperatorCall _ args _ => Forall enclosed args
                                | _ => True
                                end) o ->
                 exists_opt (sn ctx') o = true ->
                 same_context (Some s) ctx' = true
                 \/ exists_opt (within P) o = true).
      { intros o' Hall. apply enclosed_option. intros n E.
        exact (proj1 (walk.all_Some _ _ Hall n E)). }
      rewrite !orb_true_iff in Hseen.
      destruct Hseen as [[[[[[[[H|H]|H]|H]|H]|H]|H]|H]|H];
        first [ apply Al in H; [|assumption]
              | apply Ao in H; [|assumption]
              | apply (proj1 Hr) in H ];
        (destruct H as [H|H]; [left; now apply Hctx|right; rewrite H; btauto]).
    - split; [|exact I]. intros ctx H. cbn [seen] in H.
      apply enclosed_list in H.
      + destruct H as [E|E]; [now left|right]. cbn [within]. rewrite E. btauto.
      + apply walk.all_Forall in Hchildren.
        eapply Forall_impl; [|exact Hchildren]. intros a Ha; apply Ha. }
  intros n. apply H.
Qed.

End Enclosing.


Lemma init_home tgt skip : at_home tgt skip None (init tgt skip).
Proof. repeat split. Qed.

Lemma at_home_self v : at_home (target v) (to_skip v) (aggregate v) v.
Proof. repeat split. Qed.

Lemma no_member_empty (s : list Context) :
  (forall c, mem c s = false) -> s = [].
Proof.
  destruct s as [|c s]; [reflexivity|]. intros H. specialize (H c).
  cbn in H. now rewrite walk.same_context_refl in H.
Qed.

Lemma In_mem c (s : list Context) : In c s -> mem c s = true.
Proof.
  intros H. apply existsb_exists. exists c. split; [exact H|].
  apply walk.same_context_refl.
Qed.

(** X1: the analyzer records a sighting exactly when it reaches an
    occurrence of the group binding: when the binding occurs in no place
    the walk goes to (outside the skipped paths and the materialized
    sets), visiting the node leaves the visitor as it was created; when
    it does, the sightings are not empty. *)
Theorem X1_sightings_empty_iff_unreached :
  forall tgt skip n,
    if reached tgt skip n
    then sightings (visit n (init tgt skip)) <> []
    else visit n (init tgt skip) = init tgt skip.
Proof.
  intros tgt skip n. destruct (reached tgt skip n) eqn:Hre.
  - apply (walk.occurrence_recorded false tgt skip n).
    + split; [reflexivity|]. split; [reflexivity|]. discriminate.
    + exact Hre.
  - assert (Hs : sightings (visit n (init tgt skip)) = []).
    { apply no_member_empty. intros c.
      rewrite (visit_tells tgt skip c n None _ (init_home tgt skip)).
      cbn [init sightings mem existsb orb].
      destruct (seen tgt skip c None n) eqn:Hseen; [|reflexivity].
      apply seen_reached in Hseen. unfold reached in Hre. congruence. }
    destruct (walk.framed_visit n (init tgt skip)) as (A & B & C).
    destruct (visit n (init tgt skip)) as [t s a l].
    cbn in *. subst. reflexivity.
Qed.

(** X2: what a visit records can be read off the tree.  A context is
    among the sightings after visiting a node exactly when it was there
    before or the node holds, outside the skipped paths, an occurrence of
    the group binding whose context is that one, the context being carried
    down from the one at entry through the arguments of calls and the
    nested statements.  In particular [None in group_uses], which decides
    [packed], is read off the result of the statement. *)
Theorem X2_sightings_read_off_the_tree :
  (forall n v c,
      mem c (sightings (visit n v))
      = mem c (sightings v) || seen (target v) (to_skip v) c (aggregate v) n)
  /\ (forall stmt,
         compiler.has_ungrouped (compiler.group_uses_of stmt)
         = seen (path_id_of (GroupStmt.group_binding stmt))
                (map path_id_of (GroupStmt.using_values stmt))
                None None (GroupStmt.result stmt)).
Proof.
  split.
  - intros n v c. apply visit_tells. apply at_home_self.
  - intros stmt. unfold compiler.has_ungrouped, compiler.group_uses_of.
    rewrite (visit_tells _ _ None _ None _ (init_home _ _)). reflexivity.
Qed.

(** X3: a Set recorded as a context is an aggregate call of the tree
    visited: unless it was recorded before or is the context at entry,
    the tree holds that object, it is a call backed by an SQL function
    that returns no set and has a set-accepting parameter, and the
    analyzer reaches the group binding in it. *)
Theorem X3_aggregate_contexts_enclose_the_target :
  forall n v s,
    In (Some s) (sightings (visit n v)) ->
    mem (Some s) (sightings v) = true
    \/ same_context (Some s) (aggregate v) = true
    \/ within (aggregate_over (target v) (to_skip v) s) n = true.
Proof.
  intros n v s Hin. apply In_mem in Hin.
  rewrite (visit_tells _ _ (Some s) n _ v (at_home_self v)) in Hin.
  apply orb_true_iff in Hin. destruct Hin as [H|H]; [now left|right].
  exact (seen_enclosed _ _ s n _ H).
Qed.

(** The witness of X3: the result [(count(g), g.a)] of scenario C. *)
Lemma X3_witness :
  let n := GroupStmt.result examples.scenario_C in
  let s := examples.count 31 (examples.g 2) in
  In (Some s) (sightings (visit n examples.visitor))
  /\ within (aggregate_over 1 [2; 3] s) n = true.
Proof.
  split; [left; reflexivity|].
  destruct (X3_aggregate_contexts_enclose_the_target
              (GroupStmt.result examples.scenario_C) examples.visitor
              (examples.count 31 (examples.g 2)) (or_introl eq_refl))
    as [H|[H|H]]; [discriminate H|discriminate H|exact H].
Defined.

Lemma process_call_zip rs sql ir_set args :
  forall ptms v,
    process_call visit rs sql ir_set args ptms v
    = process_call visit rs sql ir_set
                   (firstn (List.length ptms) args)
                   (firstn (List.length args) ptms) v.
Proof.
  induction args as [|a args IH]; intros [|tm ptms] v; try reflexivity.
  cbn [List.length firstn process_call]. apply IH.
Qed.

(** X4: [process_call] walks the arguments paired with the declared
    parameters and no others: an argument beyond the length of
    [params_typemods] is never visited, and a call that declares no
    parameter records nothing, whatever its arguments hold. *)
Theorem X4_arguments_beyond_the_parameters_unvisited :
  (forall rs sql ir_set args ptms v,
      process_call visit rs sql ir_set args ptms v
      = process_call visit rs sql ir_set
                     (firstn (List.length ptms) args)
                     (firstn (List.length args) ptms) v)
  /\ (forall rs sql ir_set args extra ptms v,
         process_call visit rs sql ir_set
                      (args ++ extra) (firstn (List.length args) ptms) v
         = process_call visit rs sql ir_set args ptms v)
  /\ (forall uid p rptr shape fsf typemod args v,
         visit (Set_ uid p rptr shape (Some (FunctionCall fsf typemod args []))) v
         = visit (Set_ uid p rptr shape None) v).
Proof.
  split; [|split].
  - intros. apply process_call_zip.
  - intros rs sql ir_set args extra. 
    induction args as [|a args IH]; intros [|tm ptms] v;
      cbn [app List.length firstn]; try reflexivity.
    + destruct extra; reflexivity.
    + destruct extra; reflexivity.
    + cbn [process_call]. apply IH.
  - intros. cbn [visit visit_Set].
    destruct (in_to_skip p v); [reflexivity|].
    destruct (Nat.eqb p (target v)); [reflexivity|].
    destruct args; reflexivity.
Qed.

Lemma same_context_key a b :
  same_context a b = true <-> context_key a = context_key b.
Proof.
  destruct a, b; cbn; split; intros H; try discriminate; try reflexivity.
  - apply Nat.eqb_eq in H. now rewrite H.
  - apply Nat.eqb_eq. now inversion H.
Qed.

Lemma mem_key c s : mem c s = true <-> In (context_key c) (map context_key s).
Proof.
  unfold mem. rewrite existsb_exists, in_map_iff. split.
  - intros (x & Hx & E). exists x. split; [|exact Hx].
    symmetry. now apply same_context_key.
  - intros (x & E & Hx). exists x. split; [exact Hx|].
    apply same_context_key. now symmetry.
Qed.

Lemma distinct_visit :
  forall n v, NoDup (map context_key (sightings v)) ->
              NoDup (map context_key (sightings (visit n v))).
Proof.
  apply (walk.visit_closed
           (fun f => forall v, NoDup (map context_key (sightings v)) ->
                               NoDup (map context_key (sightings (f v))))).
  - auto.
  - auto.
  - intros v Hv. cbn [record_sighting sightings]. unfold add.
    destruct (mem (aggregate v) (sightings v)) eqn:Hm; [exact Hv|].
    rewrite map_app. cbn [map]. apply NoDup_app.
    + exact Hv.
    + constructor; [intros []|constructor].
    + intros x Hx [E|[]]. subst x. apply mem_key in Hx. congruence.
  - intros p f g Hf Hg v. destruct (in_to_skip p v); auto.
  - intros p f g Hf Hg v. destruct (Nat.eqb p (target v)); auto.
  - intros f Hf v Hv. unfold scoped. cbn [sightings set_aggregate].
    apply Hf. exact Hv.
  - intros f Hf v Hv. cbn [sightings set_aggregate]. now apply Hf.
  - intros node c f _ Hf v Hv. unfold scoped. cbn [sightings set_aggregate].
    apply Hf. exact Hv.
Qed.

(** X5: the analyzer works on a set of contexts that only grows: a
    visit removes no sighting, whatever the node and the context, and a
    second visit of a node adds nothing to what the first one
    recorded. *)
Theorem X5_second_visit_adds_nothing :
  (forall n v c,
      mem c (sightings (visit n (visit n v))) = mem c (sightings (visit n v)))
  /\ (forall n v c,
         mem c (sightings v) = true -> mem c (sightings (visit n v)) = true).
Proof.
  split.
  - intros n v c.
    rewrite (visit_tells _ _ c n _ (visit n v)
               (at_home_frame _ _ _ _ _ (walk.framed_visit n v) (at_home_self v))).
    rewrite (visit_tells _ _ c n _ v (at_home_self v)). btauto.
  - intros n v c Hc.
    rewrite (visit_tells _ _ c n _ v (at_home_self v)).
    now rewrite Hc.
Qed.

(** X6: [sightings] is a set: whatever node is visited, no context is
    recorded twice, the ungrouped one and each Set object being there at
    most once; so [_compile_group] meets each of them once in its loops
    over [group_uses]. *)
Theorem X6_sightings_have_no_duplicates :
  (forall tgt skip n,
      NoDup (map context_key (sightings (visit n (init tgt skip)))))
  /\ (forall stmt, NoDup (map context_key (compiler.group_uses_of stmt)))
  /\ (forall a b, same_context a b = true <-> context_key a = context_key b).
Proof.
  split; [|split].
  - intros tgt skip n. apply distinct_visit. constructor.
  - intros stmt. apply distinct_visit. constructor.
  - apply same_context_key.
Qed.

End AnalyzerProperties.

(** * Further properties of the grouping elements and the grouping value *)

Section GroupingProperties.
Import irast context compiler props.
Local Open Scope list_scope.

Lemma looked_up_app stmt r ns1 ns2 :
  looked_up stmt r (ns1 ++ ns2)
  = looked_up stmt r ns1
    ++ match first_unbound stmt ns1 with
       | Some _ => []
       | None => looked_up stmt r ns2
       end.
Proof.
  induction ns1 as [|n ns1 IH]; cbn; [reflexivity|].
  destruct (dict_lookup (GroupStmt.using_ stmt) n); [|reflexivity].
  cbn. now rewrite IH.
Qed.

Lemma first_unbound_app stmt ns1 ns2 :
  first_unbound stmt (ns1 ++ ns2)
  = match first_unbound stmt ns1 with
    | Some k => Some k
    | None => first_unbound stmt ns2
    end.
Proof.
  induction ns1 as [|n ns1 IH]; cbn; [reflexivity|].
  now destruct (dict_lookup (GroupStmt.using_ stmt) n).
Qed.

Lemma first_unbound_unbound stmt ns k :
  first_unbound stmt ns = Some k ->
  In k ns /\ dict_lookup (GroupStmt.using_ stmt) k = None.
Proof.
  induction ns as [|n ns IH]; cbn; [discriminate|].
  destruct (dict_lookup (GroupStmt.using_ stmt) n) eqn:E.
  - intros H. destruct (IH H). auto.
  - intros H. inversion H; subst. auto.
Qed.

Lemma first_unbound_none stmt ns :
  first_unbound stmt ns = None <->
  forall k, In k ns -> dict_lookup (GroupStmt.using_ stmt) k <> None.
Proof.
  induction ns as [|n ns IH]; cbn.
  - split; [intros _ k []|reflexivity].
  - destruct (dict_lookup (GroupStmt.using_ stmt) n) eqn:E.
    + rewrite IH. split.
      * intros H k [<-|Hk]; [congruence|auto].
      * intros H k Hk. apply H. now right.
    + split; [discriminate|]. intros H. exfalso. apply (H n); auto.
Qed.

Lemma looks_up_comprehension {A B : Type} stmt r (names : A -> list string)
      (f : A -> M B) l :
  Forall (fun x => looks_up stmt r (names x) (f x)) l ->
  looks_up stmt r (flat_map names l) (comprehension f l).
Proof.
  induction 1 as [|x l Hx Hl IH]; intros e.
  - cbn. repeat split. now exists [].
  - change (comprehension f (x :: l))
      with (bind (f x) (fun y => bind (comprehension f l)
                                      (fun ys => ret (y :: ys)))).
    cbn [flat_map]. rewrite looked_up_app, first_unbound_app.
    rewrite run.effects_bind, run.env_after_bind, run.outcome_bind.
    specialize (Hx e).
    destruct (f x e) as [ox ex fx]. cbn [outcome env_after effects] in Hx |- *.
    destruct Hx as (-> & -> & Ox).
    destruct (first_unbound stmt (names x)) as [k|].
    + rewrite Ox. auto.
    + destruct Ox as [y ->].
      rewrite run.effects_bind, run.env_after_bind, run.outcome_bind.
      specialize (IH e).
      destruct (comprehension f l e) as [ol el fl].
      cbn [outcome env_after effects] in IH |- *.
      destruct IH as (-> & -> & Ol).
      destruct (first_unbound stmt (flat_map names l)) as [k|].
      * rewrite Ol. rewrite app_nil_r. auto.
      * destruct Ol as [ys ->]. cbn. rewrite app_nil_r.
        repeat split. now exists (y :: ys).
Qed.

Lemma looks_up_return {A B : Type} stmt r names (m : M A) (g : A -> B) :
  looks_up stmt r names m ->
  looks_up stmt r names (bind m (fun x => ret (g x))).
Proof.
  intros Hm e. specialize (Hm e).
  rewrite run.effects_bind, run.env_after_bind, run.outcome_bind.
  destruct (m e) as [o ev ef]. cbn [outcome env_after effects] in Hm |- *.
  destruct Hm as (-> & -> & O).
  destruct (first_unbound stmt names) as [k|].
  - rewrite O. rewrite app_nil_r. auto.
  - destruct O as [v ->]. cbn. rewrite app_nil_r.
    repeat split. now exists (g v).
Qed.

Lemma looks_up_atom stmt ctx :
  forall el, recognized_atom el = true ->
             looks_up stmt (rel ctx) (atom_refs el)
                      (compile_grouping_atom el stmt ctx).
Proof.
  induction el as [name|elements IH|]; intros Hrec.
  - intros e. cbn [compile_grouping_atom atom_refs looked_up first_unbound].
    unfold dict_get.
    destruct (dict_lookup (GroupStmt.using_ stmt) name) as [a|]; cbn.
    + repeat split. now eexists.
    + repeat split.
  - cbn [compile_grouping_atom atom_refs]. apply looks_up_return.
    apply looks_up_comprehension.
    cbn [recognized_atom] in Hrec. rewrite forallb_forall in Hrec.
    apply walk.all_Forall_gen in IH. rewrite Forall_forall in IH.
    apply Forall_forall. intros x Hx. exact (IH x Hx (Hrec x Hx)).
  - discriminate.
Qed.

Lemma looks_up_el stmt ctx :
  forall el, recognized_el el = true ->
             looks_up stmt (rel ctx) (el_refs el)
                      (compile_grouping_el el stmt ctx).
Proof.
  induction el as [element|sets IH|oper elements|]; intros Hrec.
  - now apply looks_up_atom.
  - cbn [compile_grouping_el el_refs]. apply looks_up_return.
    apply looks_up_comprehension.
    cbn [recognized_el] in Hrec. rewrite forallb_forall in Hrec.
    apply walk.all_Forall_gen in IH. rewrite Forall_forall in IH.
    apply Forall_forall. intros x Hx. exact (IH x Hx (Hrec x Hx)).
  - cbn [compile_grouping_el el_refs]. apply looks_up_return.
    apply looks_up_comprehension.
    cbn [recognized_el] in Hrec. rewrite forallb_forall in Hrec.
    apply Forall_forall. intros x Hx. apply looks_up_atom. exact (Hrec x Hx).
  - discriminate.
Qed.

(** X7: on a grouping element made of the recognized shapes,
    [compile_grouping_el] looks the references to keys up one by one, in
    the order written and repeats included, each by one
    [pathctx.get_path_var] on [ctx.rel] for the Set [stmt.using] binds
    to the name; at the first name [stmt.using] does not bind it stops
    with the [KeyError] of that name, the lookups made before staying
    made.  It draws no alias and opens no scope. *)
Theorem X7_grouping_element_lookups :
  forall el stmt ctx e,
    recognized_el el = true ->
    effects (compile_grouping_el el stmt ctx e)
    = looked_up stmt (rel ctx) (el_refs el)
    /\ env_after (compile_grouping_el el stmt ctx e) = e
    /\ match first_unbound stmt (el_refs el) with
       | Some k =>
           outcome (compile_grouping_el el stmt ctx e) = inl (KeyError k)
           /\ In k (el_refs el)
           /\ dict_lookup (GroupStmt.using_ stmt) k = None
       | None =>
           (exists v, outcome (compile_grouping_el el stmt ctx e) = inr v)
           /\ List.length (effects (compile_grouping_el el stmt ctx e))
              = List.length (el_refs el)
       end.
Proof.
  intros el stmt ctx e Hrec.
  destruct (looks_up_el stmt ctx el Hrec e) as (E & Ev & O).
  split; [exact E|]. split; [exact Ev|].
  destruct (first_unbound stmt (el_refs el)) as [k|] eqn:Hk.
  - split; [exact O|]. now apply first_unbound_unbound.
  - split; [exact O|]. rewrite E.
    clear - Hk. induction (el_refs el) as [|n ns IH]; [reflexivity|].
    cbn in *. destruct (dict_lookup (GroupStmt.using_ stmt) n); [|discriminate].
    cbn. now rewrite IH.
Qed.

(** The witness of X7: [{a, c, b}] where [using] binds [a] and [b] only:
    one lookup, for [a], then the [KeyError] of [c]. *)
Lemma X7_witness :
  let el := qlast.GroupingSets [qlast.GroupingSimple (qlast.ObjectRef "a");
                                qlast.GroupingSimple (qlast.ObjectRef "c");
                                qlast.GroupingSimple (qlast.ObjectRef "b")] in
  recognized_el el = true
  /\ effects (compile_grouping_el el examples.scenario_B examples.ctx
                                  examples.env)
     = [get_path_var (ScopeRel 0) 2 pgast.value]
  /\ outcome (compile_grouping_el el examples.scenario_B examples.ctx
                                  examples.env)
     = inl (KeyError "c").
Proof.
  split; [reflexivity|].
  destruct (X7_grouping_element_lookups
              (qlast.GroupingSets [qlast.GroupingSimple (qlast.ObjectRef "a");
                                   qlast.GroupingSimple (qlast.ObjectRef "c");
                                   qlast.GroupingSimple (qlast.ObjectRef "b")])
              examples.scenario_B examples.ctx examples.env eq_refl)
    as (E & _ & O).
  split; [exact E|]. exact (proj1 O).
Defined.

Lemma bind_value {A B : Type} (m : M A) (k : A -> M B) e a e' effs :
  m e = MkOutcome (inr a) e' effs ->
  bind m k e
  = MkOutcome (outcome (k a e')) (env_after (k a e'))
              (effs ++ effects (k a e')).
Proof. intros H. unfold bind. now rewrite H. Qed.

Lemma used_bindings_fail stmt keys k :
  first_unbound stmt keys = Some k ->
  forall acc e,
    used_bindings stmt keys acc e = MkOutcome (inl (KeyError k)) e [].
Proof.
  induction keys as [|n keys IH]; cbn [first_unbound]; [discriminate|].
  intros H acc e.
  change (used_bindings stmt (n :: keys) acc)
    with (bind (dict_get (GroupStmt.using_ stmt) n)
               (fun v => used_bindings stmt keys (dict_put acc n v))).
  unfold dict_get, bind.
  destruct (dict_lookup (GroupStmt.using_ stmt) n) as [v|].
  - cbn [ret outcome env_after effects]. now rewrite (IH H).
  - inversion H; subst. reflexivity.
Qed.

Lemma bound_sets_cons stmt k keys a :
  dict_lookup (GroupStmt.using_ stmt) k = Some a ->
  bound_sets stmt (k :: keys) = a :: bound_sets stmt keys.
Proof. intros H. unfold bound_sets. cbn. now rewrite H. Qed.

Lemma used_bindings_exact stmt keys :
  first_unbound stmt keys = None ->
  NoDup keys ->
  forall acc e,
    (forall k, In k keys -> ~ In k (map fst acc)) ->
    used_bindings stmt keys acc e
    = MkOutcome (inr (acc ++ combine keys (bound_sets stmt keys))) e [].
Proof.
  induction keys as [|k keys IH]; intros Hb Hn acc e Hacc.
  - cbn. now rewrite app_nil_r.
  - change (used_bindings stmt (k :: keys) acc)
      with (bind (dict_get (GroupStmt.using_ stmt) k)
                 (fun v => used_bindings stmt keys (dict_put acc k v))).
    cbn [first_unbound] in Hb. unfold dict_get, bind.
    destruct (dict_lookup (GroupStmt.using_ stmt) k) as [v|] eqn:Hk;
      [|discriminate].
    cbn [ret outcome env_after effects].
    inversion Hn as [|? ? Hnk Hn']; subst.
    rewrite (IH Hb Hn').
    + rewrite (bound_sets_cons _ _ _ _ Hk). cbn [combine app].
      rewrite dict_put_new by (apply Hacc; left; reflexivity).
      now rewrite <- app_assoc.
    + intros k' Hk'. rewrite dict_put_new by (apply Hacc; left; reflexivity).
      rewrite map_app, in_app_iff. cbn. intros [H|[<-|[]]].
      * exact (Hacc k' (or_intror Hk') H).
      * exact (Hnk Hk').
Qed.

Lemma bound_sets_bound stmt keys :
  first_unbound stmt keys = None ->
  Forall2 (fun k a => dict_lookup (GroupStmt.using_ stmt) k = Some a)
          keys (bound_sets stmt keys).
Proof.
  induction keys as [|k keys IH]; cbn [first_unbound]; [constructor|].
  destruct (dict_lookup (GroupStmt.using_ stmt) k) as [a|] eqn:Hk;
    [|discriminate].
  intros H. rewrite (bound_sets_cons _ _ _ _ Hk). constructor; auto.
Qed.

Lemma combine_fst {A B : Type} (l1 : list A) (l2 : list B) :
  List.length l1 = List.length l2 -> map fst (combine l1 l2) = l1.
Proof.
  revert l2. induction l1 as [|x l1 IH]; intros [|y l2] H; cbn in *;
    try discriminate; [reflexivity|]. now rewrite IH by lia.
Qed.

Lemma combine_snd {A B : Type} (l1 : list A) (l2 : list B) :
  List.length l1 = List.length l2 -> map snd (combine l1 l2) = l2.
Proof.
  revert l2. induction l1 as [|x l1 IH]; intros [|y l2] H; cbn in *;
    try discriminate; [reflexivity|]. now rewrite IH by lia.
Qed.

(** The general path of [_compile_grouping_value], run. *)
Lemma general_path stmt ctx e gb keys :
  GroupStmt.grouping_binding stmt = Some gb ->
  collect_grouping_atoms (GroupStmt.by_ stmt) = keys ->
  List.length keys <> 1 ->
  first_unbound stmt keys = None ->
  let g := pgast.Generated "g" (aliases e) in
  let sets := bound_sets stmt keys in
  _compile_grouping_value stmt ctx e
  = MkOutcome
      (inr (pgast.SelectStmt
              [pgast.ResTarget None
                 (pgast.FuncCall ["array_remove"]
                    [pgast.ArrayExpr
                       (map (fun '(i, name) =>
                               grouping_case (pgast.ColumnRef [g] false)
                                             (List.length keys) i name)
                            (enumerate keys));
                     pgast.NullConstant])]
              [pgast.RangeSubselect
                 (pgast.SelectStmt
                    [pgast.ResTarget (Some g)
                       (pgast.FuncCall ["grouping"]
                          (map (fun a => pgast.PathVar (rel ctx) (path_id_of a)
                                                       pgast.value) sets))] [])
                 (pgast.Alias (pgast.Generated "" (S (aliases e))))]))
      (MkEnv (S (S (aliases e))) (scopes e))
      (map (fun a => get_path_var (rel ctx) (path_id_of a) pgast.value) sets).
Proof.
  intros Hgb Hkeys Hlen Hb g sets.
  assert (Hl : List.length keys = List.length sets).
  { exact (Forall2_length (bound_sets_bound stmt keys Hb)). }
  pose proof (used_bindings_exact stmt keys Hb
                ltac:(rewrite <- Hkeys; apply collect_grouping_atoms_NoDup)
                [] e (fun _ _ H => H)) as Hrun.
  cbn [app] in Hrun.
  unfold _compile_grouping_value. rewrite Hgb. cbn [truthy_opt negb].
  rewrite Hkeys.
  assert (General :
    (using_ <- used_bindings stmt keys [] ;;
     args <- comprehension
               (fun alias_set =>
                  path_var (rel ctx) (path_id_of alias_set) pgast.value)
               (map snd using_) ;;
     grouping_alias <- aliases_get "g" ;;
     subq_alias <- aliases_get "" ;;
     ret (pgast.SelectStmt
            [pgast.ResTarget None
               (pgast.FuncCall ["array_remove"]
                  [pgast.ArrayExpr
                     (map (fun '(i, name) =>
                             grouping_case
                               (pgast.ColumnRef [grouping_alias] false)
                               (List.length using_) i name)
                          (enumerate (map fst using_)));
                   pgast.NullConstant])]
            [pgast.RangeSubselect
               (pgast.SelectStmt
                  [pgast.ResTarget (Some grouping_alias)
                     (pgast.FuncCall ["grouping"] args)] [])
               (pgast.Alias subq_alias)])) e
    = MkOutcome
      (inr (pgast.SelectStmt
              [pgast.ResTarget None
                 (pgast.FuncCall ["array_remove"]
                    [pgast.ArrayExpr
                       (map (fun '(i, name) =>
                               grouping_case (pgast.ColumnRef [g] false)
                                             (List.length keys) i name)
                            (enumerate keys));
                     pgast.NullConstant])]
              [pgast.RangeSubselect
                 (pgast.SelectStmt
                    [pgast.ResTarget (Some g)
                       (pgast.FuncCall ["grouping"]
                          (map (fun a => pgast.PathVar (rel ctx) (path_id_of a)
                                                       pgast.value) sets))] [])
                 (pgast.Alias (pgast.Generated "" (S (aliases e))))]))
      (MkEnv (S (S (aliases e))) (scopes e))
      (map (fun a => get_path_var (rel ctx) (path_id_of a) pgast.value) sets)).
  { subst sets g. unfold bind. rewrite Hrun.
    cbn [outcome env_after effects app]. rewrite !path_vars_run.
    cbn [outcome env_after effects aliases_get ret aliases scopes].
    rewrite (combine_fst _ _ Hl), (combine_snd _ _ Hl).
    rewrite length_combine, <- Hl, Nat.min_id.
    now rewrite !app_nil_r. }
  destruct keys as [|k1 [|k2 rest]]; [exact General|cbn in Hlen; lia|exact General].
Qed.

(** ** The grouping indicator *)

Lemma indicator_range l :
  (0 <= grouping_indicator l < 2 ^ Z.of_nat (List.length l))%Z.
Proof.
  induction l as [|b l IH]; [cbn; lia|].
  cbn [grouping_indicator List.length]. rewrite Z.shiftl_1_l.
  rewrite Nat2Z.inj_succ, Z.pow_succ_r by lia.
  destruct b; lia.
Qed.

Lemma land_pow2 y n :
  (0 <= n)%Z -> (Z.land y (2 ^ n) =? 0)%Z = negb (Z.testbit y n).
Proof.
  intros Hn.
  assert (E : Z.land y (2 ^ n) = if Z.testbit y n then (2 ^ n)%Z else 0%Z).
  { apply Z.bits_inj'. intros k Hk. rewrite Z.land_spec, Z.pow2_bits_eqb by lia.
    destruct (Z.eqb_spec n k) as [->|Hne].
    - destruct (Z.testbit y k); cbn.
      + rewrite Z.pow2_bits_eqb by lia. now rewrite Z.eqb_refl.
      + now rewrite Z.bits_0.
    - rewrite andb_false_r. destruct (Z.testbit y n).
      + rewrite Z.pow2_bits_eqb by lia. symmetry. now apply Z.eqb_neq.
      + now rewrite Z.bits_0. }
  rewrite E. destruct (Z.testbit y n); cbn.
  - apply Z.eqb_neq. pose proof (Z.pow_pos_nonneg 2 n). lia.
  - reflexivity.
Qed.

Lemma testbit_high x n :
  (0 <= x < 2 ^ n)%Z -> (0 <= n)%Z -> Z.testbit x n = false.
Proof.
  intros Hx Hn. destruct (Z.eq_dec x 0) as [->|Hne]; [apply Z.bits_0|].
  apply Z.bits_above_log2; [lia|]. apply Z.log2_lt_pow2; lia.
Qed.

Lemma testbit_add_pow2 x n :
  (0 <= x < 2 ^ n)%Z -> (0 <= n)%Z ->
  Z.testbit (2 ^ n + x) n = true
  /\ forall k, (0 <= k < n)%Z -> Z.testbit (2 ^ n + x) k = Z.testbit x k.
Proof.
  intros Hx Hn.
  assert (E : (2 ^ n + x)%Z = Z.lor (2 ^ n) x).
  { assert (H0 : Z.land (2 ^ n) x = 0%Z).
    { apply Z.bits_inj'. intros k Hk. rewrite Z.land_spec, Z.bits_0.
      rewrite Z.pow2_bits_eqb by lia.
      destruct (Z.eqb_spec n k) as [->|Hne]; [|reflexivity].
      now rewrite (testbit_high x k Hx Hk). }
    rewrite (Z.add_nocarry_lxor _ _ H0). now apply Z.lxor_lor. }
  rewrite E. split.
  - rewrite Z.lor_spec, Z.pow2_bits_eqb, Z.eqb_refl by lia. reflexivity.
  - intros k Hk. rewrite Z.lor_spec, Z.pow2_bits_eqb by lia.
    destruct (Z.eqb_spec n k); [lia|reflexivity].
Qed.

Lemma indicator_bit l :
  forall i, i < List.length l ->
            Z.testbit (grouping_indicator l)
                      (Z.of_nat (List.length l - 1 - i))
            = negb (nth i l true).
Proof.
  induction l as [|b l IH]; intros i Hi; [cbn in Hi; lia|].
  cbn [grouping_indicator List.length] in *. rewrite Z.shiftl_1_l.
  pose proof (indicator_range l) as Hr.
  destruct (testbit_add_pow2 (grouping_indicator l) (Z.of_nat (List.length l)))
    as [Htop Hlow]; [exact Hr|lia|].
  destruct i as [|i]; cbn [nth].
  - replace (S (List.length l) - 1 - 0) with (List.length l) by lia.
    destruct b; cbn [negb].
    + rewrite Z.add_0_l. apply testbit_high; [exact Hr|lia].
    + exact Htop.
  - replace (S (List.length l) - 1 - S i) with (List.length l - 1 - i) by lia.
    rewrite <- (IH i) by lia.
    destruct b; [now rewrite Z.add_0_l|].
    apply Hlow. lia.
Qed.

Lemma grouped_on_from indicator n :
  forall keys included j,
    List.length included = List.length keys ->
    j + List.length keys = n ->
    (forall i, i < List.length keys ->
               Z.testbit indicator (Z.of_nat (n - 1 - (j + i)))
               = negb (nth i included true)) ->
    map (fun '(i, name) => split_head tilde name)
        (filter (fun '(i, _) =>
                   Z.eqb (Z.land indicator (Z.of_N (mask_of n i))) 0)
                (enumerate_from j keys))
    = map (split_head tilde) (selected included keys).
Proof.
  induction keys as [|k keys IH]; intros [|b included] j Hlen Hn Hbits;
    cbn in Hlen; try discriminate; [reflexivity|].
  cbn [enumerate_from filter]. unfold selected. cbn [combine filter fst].
  rewrite mask_of_power, land_pow2 by lia.
  replace (n - j - 1) with (n - 1 - (j + 0)) by lia.
  rewrite (Hbits 0) by (cbn; lia). cbn [nth]. rewrite negb_involutive.
  assert (Hrest :
    map (fun '(i, name) => split_head tilde name)
        (filter (fun '(i, _) =>
                   Z.eqb (Z.land indicator (Z.of_N (mask_of n i))) 0)
                (enumerate_from (S j) keys))
    = map (split_head tilde) (selected included keys)).
  { apply IH; [lia|cbn in Hn; lia|].
    intros i Hi. replace (S j + i) with (j + S i) by lia.
    rewrite (Hbits (S i)) by (cbn; lia). reflexivity. }
  destruct b; cbn [map snd]; now rewrite Hrest.
Qed.

Lemma grouped_on_indicator keys included :
  List.length included = List.length keys ->
  grouped_on (grouping_indicator included) keys
  = map (split_head tilde) (selected included keys).
Proof.
  intros Hlen. unfold grouped_on, enumerate.
  apply grouped_on_from; [exact Hlen|reflexivity|].
  intros i Hi. rewrite <- Hlen in *. cbn [Nat.add]. now apply indicator_bit.
Qed.

(** X8: in the general path of [_compile_grouping_value] (the [by]
    elements reference no key, or more than one), every referenced key is
    first looked up in [stmt.using]: when one of them is not bound, the
    [KeyError] of the first such key is raised before any path variable
    is asked for and before any alias is drawn, and
    [_compile_grouping_binding] registers nothing. *)
Theorem X8_unbound_key_fails_before_any_lookup :
  forall stmt ctx e gb k,
    GroupStmt.grouping_binding stmt = Some gb ->
    List.length (collect_grouping_atoms (GroupStmt.by_ stmt)) <> 1 ->
    first_unbound stmt (collect_grouping_atoms (GroupStmt.by_ stmt)) = Some k ->
    _compile_grouping_value stmt ctx e = MkOutcome (inl (KeyError k)) e []
    /\ _compile_grouping_binding stmt ctx e = MkOutcome (inl (KeyError k)) e []
    /\ dict_lookup (GroupStmt.using_ stmt) k = None.
Proof.
  intros stmt ctx e gb k Hgb Hlen Hk.
  assert (Hv : _compile_grouping_value stmt ctx e
               = MkOutcome (inl (KeyError k)) e []).
  { unfold _compile_grouping_value. rewrite Hgb. cbn [truthy_opt negb].
    destruct (collect_grouping_atoms (GroupStmt.by_ stmt)) as [|k1 [|k2 rest]];
      [discriminate Hk|cbn in Hlen; lia|].
    unfold bind at 1. now rewrite (used_bindings_fail _ _ _ Hk). }
  split; [exact Hv|]. split.
  - unfold _compile_grouping_binding. rewrite Hgb. unfold bind. now rewrite Hv.
  - exact (proj2 (first_unbound_unbound _ _ _ Hk)).
Qed.

(** The witness of X8: [GROUP x BY {x.a, x.c}] with no [c] in [using]. *)
Lemma X8_witness :
  collect_grouping_atoms (GroupStmt.by_ examples.unbound_key) = ["a"; "c"]
  /\ _compile_grouping_value examples.unbound_key examples.ctx examples.env
     = MkOutcome (inl (KeyError "c")) examples.env [].
Proof.
  split; [reflexivity|].
  refine (proj1 (X8_unbound_key_fails_before_any_lookup
                   examples.unbound_key examples.ctx examples.env
                   examples.grouping "c" eq_refl _ eq_refl)).
  cbn. lia.
Defined.

(** X9: in the general path, with every referenced key bound, the
    grouping value is a query over the one-column sub-query
    [SELECT grouping(k_0, ..., k_{N-1}) AS g]: the arguments of
    [grouping] are the path variables of the Sets bound to the keys, in
    the order of the collected keys (the order the masks count in), each
    got by one [pathctx.get_path_var] on [ctx.rel]; two aliases are
    drawn, first the one of the indicator column, then a different one
    for the sub-query; each element of the array reads the indicator
    under the alias the sub-query gives it; and
    [_compile_grouping_binding] registers that query, after the lookups,
    as the value of the grouping binding in [ctx.rel]. *)
Theorem X9_grouping_value_subquery :
  forall stmt ctx e gb keys,
    GroupStmt.grouping_binding stmt = Some gb ->
    collect_grouping_atoms (GroupStmt.by_ stmt) = keys ->
    List.length keys <> 1 ->
    first_unbound stmt keys = None ->
    let g := pgast.Generated "g" (aliases e) in
    let sub := pgast.Generated "" (S (aliases e)) in
    let sets := bound_sets stmt keys in
    let lookups :=
      map (fun a => get_path_var (rel ctx) (path_id_of a) pgast.value) sets in
    exists els query,
      query
      = pgast.SelectStmt
          [pgast.ResTarget None
             (pgast.FuncCall ["array_remove"]
                             [pgast.ArrayExpr els; pgast.NullConstant])]
          [pgast.RangeSubselect
             (pgast.SelectStmt
                [pgast.ResTarget (Some g)
                   (pgast.FuncCall ["grouping"]
                      (map (fun a => pgast.PathVar (rel ctx) (path_id_of a)
                                                   pgast.value) sets))] [])
             (pgast.Alias sub)]
      /\ _compile_grouping_value stmt ctx e
         = MkOutcome (inr query) (MkEnv (S (S (aliases e))) (scopes e)) lookups
      /\ _compile_grouping_binding stmt ctx e
         = MkOutcome (inr tt) (MkEnv (S (S (aliases e))) (scopes e))
             (lookups
                ++ [put_path_var (rel ctx) (path_id_of gb) query
                                 pgast.value pgast.normal])
      /\ Forall2 (fun k a => dict_lookup (GroupStmt.using_ stmt) k = Some a)
                 keys sets
      /\ pgast.Name_eqb g sub = false
      /\ List.length els = List.length keys
      /\ Forall (fun el => exists mask when_,
                     el = pgast.CaseExpr
                            (pgast.Expr pgast.OP "&"
                                        (pgast.ColumnRef [g] false) mask)
                            when_ pgast.NullConstant) els.
Proof.
  intros stmt ctx e gb keys Hgb Hkeys Hlen Hb g sub sets lookups.
  pose proof (general_path stmt ctx e gb keys Hgb Hkeys Hlen Hb) as Hrun.
  cbn zeta in Hrun. fold g sets lookups in Hrun.
  eexists. eexists. split; [reflexivity|].
  split; [exact Hrun|]. split.
  - unfold _compile_grouping_binding. rewrite Hgb.
    now rewrite (bind_value _ _ _ _ _ _ Hrun).
  - split; [exact (bound_sets_bound stmt keys Hb)|].
    split; [reflexivity|]. split.
    + unfold enumerate. now rewrite length_map, length_enumerate_from.
    + apply Forall_forall. intros el Hel. apply in_map_iff in Hel.
      destruct Hel as ([i name] & <- & _). unfold grouping_case. eauto.
Qed.

(** The witness of X9: scenario B, [GROUP x BY {x.a, x.b}]. *)
Lemma X9_witness :
  collect_grouping_atoms (GroupStmt.by_ examples.scenario_B) = ["a"; "b"]
  /\ effects (_compile_grouping_value examples.scenario_B examples.ctx
                                      examples.env)
     = [get_path_var (ScopeRel 0) 2 pgast.value;
        get_path_var (ScopeRel 0) 3 pgast.value]
  /\ env_after (_compile_grouping_value examples.scenario_B examples.ctx
                                        examples.env)
     = MkEnv 2 1.
Proof.
  split; [reflexivity|].
  destruct (X9_grouping_value_subquery
              examples.scenario_B examples.ctx examples.env examples.grouping
              ["a"; "b"] eq_refl eq_refl ltac:(cbn; lia) eq_refl)
    as (els & query & _ & E & _).
  rewrite E. split; reflexivity.
Defined.

(** X10: decoding undoes the engine's encoding.  In the general path,
    on a row of the grouping set that includes the key at position [i]
    exactly when [included[i]] holds, where the indicator column holds
    the engine's [GROUPING] of the keys (bit [N - 1 - i] set when key [i]
    is not in the set), the value evaluates to the array of the names of
    the included keys, in the order of the keys, each name being the key
    up to its first [~]. *)
Theorem X10_grouping_value_round_trip :
  forall stmt ctx e gb keys included,
    GroupStmt.grouping_binding stmt = Some gb ->
    collect_grouping_atoms (GroupStmt.by_ stmt) = keys ->
    List.length keys <> 1 ->
    first_unbound stmt keys = None ->
    List.length included = List.length keys ->
    exists val from_clause,
      outcome (_compile_grouping_value stmt ctx e)
      = inr (pgast.SelectStmt [pgast.ResTarget None val] from_clause)
      /\ sql.eval (sql.indicator_column (pgast.Generated "g" (aliases e))
                                        (grouping_indicator included)) val
         = Some (sql.VArray
                   (map sql.VText
                        (map (split_head tilde) (selected included keys)))).
Proof.
  intros stmt ctx e gb keys included Hgb Hkeys Hlen Hb Hinc.
  rewrite (general_path stmt ctx e gb keys Hgb Hkeys Hlen Hb).
  eexists. eexists. split; [reflexivity|].
  cbn [sql.eval sql.is_name String.eqb Ascii.eqb Bool.eqb].
  rewrite eval_cases. cbn [option_map].
  rewrite remove_nulls.
  change (map (fun '(_, name) => split_head tilde name)
              (filter (fun '(i, _) =>
                         (Z.land (grouping_indicator included)
                                 (Z.of_N (mask_of (List.length keys) i)) =? 0)%Z)
                      (enumerate keys)))
    with (grouped_on (grouping_indicator included) keys).
  now rewrite (grouped_on_indicator keys included Hinc).
Qed.

(** The witness of X10: scenario B on a row grouped on [b] only; the
    indicator is 2. *)
Lemma X10_witness :
  grouping_indicator [false; true] = 2%Z
  /\ exists val from_clause,
      outcome (_compile_grouping_value examples.scenario_B examples.ctx
                                       examples.env)
      = inr (pgast.SelectStmt [pgast.ResTarget None val] from_clause)
      /\ sql.eval (sql.indicator_column (pgast.Generated "g" 0) 2) val
         = Some (sql.VArray [sql.VText "b"]).
Proof.
  split; [reflexivity|].
  exact (X10_grouping_value_round_trip
           examples.scenario_B examples.ctx examples.env examples.grouping
           ["a"; "b"] [false; true] eq_refl eq_refl ltac:(cbn; lia)
           eq_refl eq_refl).
Defined.

(** X11: when the [by] elements reference no key at all, for instance
    when there is none, the general path is taken, not the one of the
    single key, with nothing to look up: what is emitted is
    [array_remove(ARRAY[], NULL)], an array literal with no element,
    over the sub-query [SELECT grouping() AS g], a call of [grouping]
    with no argument; no path variable is asked for, two aliases are
    drawn, and that query is what [_compile_grouping_binding] registers
    as the value of the grouping binding.  What the engine makes of such
    a query is not stated. *)
Theorem X11_no_key_referenced :
  forall stmt ctx e gb,
    GroupStmt.grouping_binding stmt = Some gb ->
    collect_grouping_atoms (GroupStmt.by_ stmt) = [] ->
    let g := pgast.Generated "g" (aliases e) in
    let query :=
      pgast.SelectStmt
        [pgast.ResTarget
           None
           (pgast.FuncCall ["array_remove"]
                           [pgast.ArrayExpr []; pgast.NullConstant])]
        [pgast.RangeSubselect
           (pgast.SelectStmt
              [pgast.ResTarget (Some g) (pgast.FuncCall ["grouping"] [])] [])
           (pgast.Alias (pgast.Generated "" (S (aliases e))))] in
    _compile_grouping_value stmt ctx e
    = MkOutcome (inr query) (MkEnv (S (S (aliases e))) (scopes e)) []
    /\ _compile_grouping_binding stmt ctx e
       = MkOutcome (inr tt) (MkEnv (S (S (aliases e))) (scopes e))
           [put_path_var (rel ctx) (path_id_of gb) query
                         pgast.value pgast.normal].
Proof.
  intros stmt ctx e gb Hgb Hkeys g query.
  assert (Hvalue :
            _compile_grouping_value stmt ctx e
            = MkOutcome (inr query) (MkEnv (S (S (aliases e))) (scopes e)) [])
    by exact (general_path stmt ctx e gb [] Hgb Hkeys ltac:(cbn; lia) eq_refl).
  split; [exact Hvalue|].
  unfold _compile_grouping_binding. rewrite Hgb.
  rewrite (bind_value _ _ _ _ _ _ Hvalue). reflexivity.
Qed.

(** The witness of X11: a GROUP with no grouping element. *)
Lemma X11_witness :
  GroupStmt.by_ examples.no_key = []
  /\ effects (_compile_grouping_value examples.no_key examples.ctx examples.env)
     = []
  /\ env_after (_compile_grouping_value examples.no_key examples.ctx
                                        examples.env)
     = MkEnv 2 1.
Proof.
  split; [reflexivity|].
  rewrite (proj1 (X11_no_key_referenced
                    examples.no_key examples.ctx examples.env examples.grouping
                    eq_refl eq_refl)).
  split; reflexivity.
Defined.





End GroupingProperties.

(** * Further properties of the orchestrator *)

Section OrchestratorProperties.
Import irast context compiler props.
Local Open Scope list_scope.

Variable first_target_name : Rel -> option pgast.Name.

Lemma bind_case {A B : Type} (m : M A) (k : A -> M B) e :
  bind m k e
  = match outcome (m e) with
    | inr a =>
        MkOutcome (outcome (k a (env_after (m e))))
                  (env_after (k a (env_after (m e))))
                  (effects (m e) ++ effects (k a (env_after (m e))))
    | inl x => MkOutcome (inl x) (env_after (m e)) (effects (m e))
    end.
Proof. unfold bind. destruct (outcome (m e)); reflexivity. Qed.

Lemma hoists_run grouprel hoistctx uses :
  forall e,
    for_each (hoist grouprel hoistctx) uses e
    = MkOutcome (inr tt)
        (MkEnv (aliases e) (scopes e + List.length (aggregates uses)))
        (hoisted grouprel hoistctx (scopes e) (aggregates uses)).
Proof.
  induction uses as [|u uses IH]; intros e.
  - cbn. rewrite Nat.add_0_r. now destruct e.
  - change (for_each (hoist grouprel hoistctx) (u :: uses))
      with (hoist grouprel hoistctx u ;; for_each (hoist grouprel hoistctx) uses).
    destruct u as [s|].
    + unfold bind at 1.
      cbn [hoist subrel call bind ret outcome env_after effects].
      rewrite IH. cbn [outcome env_after effects aliases scopes rel with_rel].
      unfold aggregates, hoisted. cbn [flat_map app enumerate_from List.length].
      f_equal. f_equal. lia.
    + unfold bind at 1. cbn [hoist ret outcome env_after effects].
      rewrite IH. reflexivity.
Qed.

Lemma visits_run (ctx' : CompilerContextLevel) (l : list Base) e :
  for_each (fun value => call (dispatch_visit value ctx')) l e
  = MkOutcome (inr tt) e (map (fun v => dispatch_visit v ctx') l).
Proof.
  induction l as [|v l IH]; [reflexivity|].
  change (for_each (fun value => call (dispatch_visit value ctx')) (v :: l))
    with (call (dispatch_visit v ctx') ;;
          for_each (fun value => call (dispatch_visit value ctx')) l).
  unfold bind. cbn [call outcome env_after effects]. now rewrite IH.
Qed.

(** The group scope, run up to the end of the hoisting; what follows is
    the materialization, the grouping binding and the grouping clause. *)
Lemma scope_run stmt uses ctx groupctx e :
  let o :=
    scope_end first_target_name stmt uses ctx groupctx
              (MkEnv (aliases e)
                     (S (scopes e) + List.length (aggregates uses))) in
  compile_group_scope first_target_name stmt uses ctx groupctx e
  = MkOutcome (outcome o) (env_after o)
              (scope_front stmt uses groupctx (scopes e) ++ effects o).
Proof.
  cbn zeta. unfold compile_group_scope.
  rewrite (bind_value _ _ _ _ _ _ (run.compile_subject_run stmt groupctx e)).
  cbn beta.
  do 3 (rewrite (bind_value _ _ _ _ _ _ eq_refl); cbn beta).
  rewrite (bind_value _ _ _ _ _ _ (visits_run _ _ _)).
  rewrite (bind_value _ _ _ _ _ _ (hoists_run _ _ _ _)).
  cbn [aliases scopes].
  unfold scope_end, scope_front, closing_context, subject_context,
    hoist_context, binding_context.
  cbn [rel path_scope materializing with_expr_exposed with_path_scope
       with_rel with_materializing].
  f_equal. rewrite <- !app_assoc. reflexivity.
Qed.

Lemma registrations_run query rvar (l : list FindAggregatingUses.Context) e :
  for_each
    (fun group_use : FindAggregatingUses.Context =>
       match group_use with
       | Some group_use =>
           call (put_path_rvar query (path_id_of group_use) rvar pgast.value)
       | None => ret tt
       end) l e
  = MkOutcome (inr tt) e
      (map (fun s => put_path_rvar query (path_id_of s) rvar pgast.value)
           (aggregates l)).
Proof.
  induction l as [|u l IH]; [reflexivity|].
  match goal with
  | |- for_each ?body _ _ = _ =>
      change (for_each body (u :: l)) with (body u ;; for_each body l)
  end.
  destruct u as [s|].
  - rewrite (bind_value _ _ _ _ _ _ eq_refl). now rewrite IH.
  - rewrite (bind_value _ _ _ _ _ _ eq_refl). now rewrite IH.
Qed.

(** [_compile_group], run after the group scope. *)
Lemma group_run stmt ctx parent_ctx e :
  let grouprel := ScopeRel (scopes e) in
  let groupctx := with_rel grouprel ctx in
  let scope :=
    compile_group_scope first_target_name stmt (group_uses_of stmt)
                        ctx groupctx (MkEnv (aliases e) (S (scopes e))) in
  let query := context.stmt ctx in
  let group_rvar := pgast.RvarForRel grouprel true in
  _compile_group first_target_name stmt ctx parent_ctx e
  = match outcome scope with
    | inl x => MkOutcome (inl x) (env_after scope) (effects scope)
    | inr packed =>
        MkOutcome
          (inr (pgast.RelRef query)) (env_after scope)
          (effects scope
             ++ [rvar_for_rel grouprel ctx true;
                 if packed : bool
                 then include_rvar
                        query group_rvar
                        (path_id_of (GroupStmt.group_binding stmt))
                        pgast.packed false false (Some [pgast.value]) ctx
                 else rel_join query group_rvar ctx]
             ++ registrations query group_rvar stmt (group_uses_of stmt)
             ++ [compile_materialized_exprs query stmt ctx;
                 compile_output (GroupStmt.result stmt) ctx;
                 setup_iterator_volatility (GroupStmt.result stmt) ctx]
             ++ where_effects query stmt ctx
             ++ orderby_effects query stmt ctx)
    end.
Proof.
  intros grouprel groupctx scope query group_rvar.
  unfold _compile_group.
  rewrite (bind_value _ _ _ _ _ _ eq_refl). cbn [app].
  fold grouprel groupctx. cbn [rel with_rel]. fold grouprel.
  rewrite bind_case. fold scope.
  destruct (outcome scope) as [x|packed].
  - reflexivity.
  - cbn [outcome env_after effects].
    rewrite (bind_value _ _ _ _ _ _ eq_refl).
    assert (Hattach :
      (if packed
       then call (include_rvar
                    (context.stmt ctx) (pgast.RvarForRel grouprel true)
                    (path_id_of (GroupStmt.group_binding stmt))
                    pgast.packed false false (Some [pgast.value]) ctx)
       else call (rel_join (context.stmt ctx)
                           (pgast.RvarForRel grouprel true) ctx))
        (env_after scope)
      = MkOutcome (inr tt) (env_after scope)
          [if packed
           then include_rvar
                  (context.stmt ctx) (pgast.RvarForRel grouprel true)
                  (path_id_of (GroupStmt.group_binding stmt))
                  pgast.packed false false (Some [pgast.value]) ctx
           else rel_join (context.stmt ctx)
                         (pgast.RvarForRel grouprel true) ctx])
      by (destruct packed; reflexivity).
    rewrite (bind_value _ _ _ _ _ _ Hattach).
    rewrite (bind_value _ _ _ _ _ _ (registrations_run _ _ _ _)).
    do 2 rewrite (bind_value _ _ _ _ _ _ eq_refl).
    rewrite (bind_value _ _ _ _ _ _ eq_refl).
    rewrite (bind_value _ _ _ _ _ _ eq_refl).
    unfold where_effects, orderby_effects, registrations, query, group_rvar.
    destruct (GroupStmt.where_ stmt) as [w|], (GroupStmt.orderby stmt) as [ob|];
      cbn; rewrite <- ?app_assoc; reflexivity.
Qed.

Lemma only_weaken {A : Type} (P Q : Effect -> bool) (m : M A) :
  (forall c, P c = true -> Q c = true) -> only P m -> only Q m.
Proof.
  intros HPQ Hm e. eapply Forall_impl; [|exact (Hm e)]. exact HPQ.
Qed.

Lemma only_materialize stmt grouprel ctx :
  only is_materialize_effect (materialize first_target_name stmt grouprel ctx).
Proof.
  intros e.
  destruct (run.materialize_run first_target_name stmt grouprel ctx e)
    as (naming & name & E & [-> | ->]); rewrite E; repeat constructor.
Qed.

Lemma only_scope_end stmt uses ctx groupctx :
  only is_closing_effect (scope_end first_target_name stmt uses ctx groupctx).
Proof.
  assert (Hm : forall c, is_materialize_effect c = true ->
                         is_closing_effect c = true)
    by (intros c H; unfold is_closing_effect; now rewrite H).
  assert (Hg : forall c, is_grouping_effect c = true ->
                         is_closing_effect c = true)
    by (intros c H; unfold is_closing_effect; rewrite H; apply orb_true_r).
  unfold scope_end. apply run.only_bind.
  - destruct (has_ungrouped uses); [|apply run.only_ret].
    apply run.only_bind; [|intros; apply run.only_ret].
    apply (only_weaken is_materialize_effect); [exact Hm|].
    apply only_materialize.
  - intros packed. apply (only_weaken is_grouping_effect); [exact Hg|].
    apply (run.only_bind is_grouping_effect).
    + destruct (truthy_opt (GroupStmt.grouping_binding stmt));
        [|apply run.only_ret].
      apply run.only__compile_grouping_binding; reflexivity.
    + intros _. apply (run.only_bind is_grouping_effect).
      * apply run.only_comprehension. apply Forall_forall. intros el _.
        apply run.only_compile_grouping_el. reflexivity.
      * intros clause. apply (run.only_bind is_grouping_effect).
        -- now apply run.only_call.
        -- intros _. apply run.only_ret.
Qed.

(** A class of effects that the end of the group scope, the attachment
    to the parent query and the compilation downstream never emit is met
    in the front of the group scope only. *)
Lemma front_filter (Q : Effect -> bool) stmt ctx parent_ctx e :
  (forall c, is_closing_effect c = true -> Q c = false) ->
  (forall c, is_parent_attachment c = true -> Q c = false) ->
  (forall c, is_downstream_effect c = true -> Q c = false) ->
  (forall r c l, Q (rvar_for_rel r c l) = false) ->
  filter Q (effects (_compile_group first_target_name stmt ctx parent_ctx e))
  = filter Q (scope_front stmt (group_uses_of stmt)
                          (with_rel (ScopeRel (scopes e)) ctx)
                          (S (scopes e))).
Proof.
  intros Qc Qa Qd Qr.
  destruct (run.group_effects first_target_name stmt ctx parent_ctx e)
    as (rest & -> & Hrest).
  cbn zeta in Hrest. rewrite scope_run in Hrest |- *.
  cbn [outcome effects aliases scopes] in Hrest |- *.
  rewrite !filter_app.
  rewrite (run.filter_class _ _ _ (only_scope_end _ _ _ _ _) Qc).
  assert (Hr : filter Q rest = []).
  { destruct (outcome _) as [x|packed] in Hrest.
    - now rewrite Hrest.
    - destruct Hrest as (downstream & -> & Hdown).
      change (?a :: ?b :: downstream) with ([a; b] ++ downstream).
      rewrite filter_app, (run.filter_class _ _ _ Hdown Qd), app_nil_r.
      cbn [filter]. rewrite Qr.
      destruct packed; now rewrite Qa. }
  rewrite Hr. now rewrite !app_nil_r.
Qed.

Lemma filter_all {A : Type} (Q : A -> bool) l :
  Forall (fun c => Q c = true) l -> filter Q l = l.
Proof.
  induction 1 as [|c l Hc Hl IH]; [reflexivity|]. cbn. now rewrite Hc, IH.
Qed.

Lemma filter_nothing {A : Type} (Q : A -> bool) l :
  Forall (fun c => Q c = false) l -> filter Q l = [].
Proof.
  induction 1 as [|c l Hc Hl IH]; [reflexivity|]. cbn. now rewrite Hc.
Qed.

Lemma hoisted_class grouprel hctx aggs :
  forall first,
    Forall (fun c => is_hoist_effect c = true
                     /\ is_dispatch_visit c = false)
           (hoisted grouprel hctx first aggs).
Proof.
  unfold hoisted. induction aggs as [|s aggs IH]; intros first; [constructor|].
  cbn [enumerate_from flat_map app]. repeat (constructor; [split; reflexivity|]).
  apply IH.
Qed.

Lemma hoisted_length grouprel hctx aggs :
  forall first,
    List.length (hoisted grouprel hctx first aggs) = 3 * List.length aggs.
Proof.
  unfold hoisted. induction aggs as [|s aggs IH]; intros first; [reflexivity|].
  cbn [enumerate_from flat_map app List.length]. rewrite IH. lia.
Qed.

Lemma aggregates_distinct (uses : list FindAggregatingUses.Context) :
  NoDup (map context_key uses) -> NoDup (map uid_of (aggregates uses)).
Proof.
  assert (Hin : forall u l, In u (map uid_of (aggregates l)) ->
                            In (Some u) (map context_key l)).
  { intros u l. induction l as [|[s|] l IH]; cbn; [auto| |auto].
    intros [H|H]; [left; now rewrite H|right; auto]. }
  induction uses as [|[s|] uses IH]; cbn; intros Hn; [constructor| |].
  - inversion Hn as [|? ? Hnot Hn']; subst. constructor; [|auto].
    intros H. apply Hnot. now apply Hin.
  - inversion Hn; auto.
Qed.

Lemma aggregates_aggregate (uses : list FindAggregatingUses.Context) :
  Forall aggregate_context uses ->
  Forall (fun s => is_aggregate_use s = true) (aggregates uses).
Proof.
  induction 1 as [|[s|] uses Hs Hl IH]; cbn; auto.
Qed.

(** X13: whatever comes of the rest, [_compile_group] hands to
    [dispatch.visit] the subject first, once, in a relation of its own
    where its PathId is masked in a new level of the path scope and
    nothing is exposed, and then each [using] value once, in the order
    of the dict, in the group relation under a child of the subject's
    scope; it dispatches nothing else. *)
Theorem X13_subject_then_bindings_dispatched :
  forall stmt ctx parent_ctx e,
    let groupctx := with_rel (ScopeRel (scopes e)) ctx in
    let subjctx := subject_context stmt groupctx (S (scopes e)) in
    let bindctx := binding_context stmt groupctx in
    filter is_dispatch_visit
           (effects (_compile_group first_target_name stmt ctx parent_ctx e))
    = dispatch_visit (GroupStmt.subject stmt) subjctx
      :: map (fun v => dispatch_visit v bindctx) (GroupStmt.using_values stmt)
    /\ rel subjctx = ScopeRel (S (scopes e))
    /\ rel bindctx = ScopeRel (scopes e)
    /\ expr_exposed subjctx = Some false
    /\ path_scope subjctx
       = [(path_id_of (GroupStmt.subject stmt), None)] :: path_scope groupctx
    /\ path_scope bindctx = [] :: path_scope subjctx.
Proof.
  intros stmt ctx parent_ctx e groupctx subjctx bindctx.
  split; [|repeat split].
  rewrite front_filter;
    try (intros c; destruct c; cbn; intros; try congruence;
         repeat match goal with
                | x : pgast.Aspect |- _ => destruct x
                | x : pgast.Flavor |- _ => destruct x
                end; cbn in *; congruence);
    try reflexivity.
  unfold scope_front. fold groupctx subjctx bindctx.
  rewrite !filter_app. cbn [filter is_dispatch_visit app].
  rewrite filter_all
    by (apply Forall_forall; intros c Hc; apply in_map_iff in Hc;
        destruct Hc as (v & <- & _); reflexivity).
  rewrite filter_nothing
    by (eapply Forall_impl; [|apply hoisted_class]; intros c Hc; apply Hc).
  now rewrite app_nil_r.
Qed.

Lemma aggregates_In (uses : list FindAggregatingUses.Context) s :
  In s (aggregates uses) <-> In (Some s) uses.
Proof.
  unfold aggregates. rewrite in_flat_map. split.
  - intros ([x|] & Hin & Hx); cbn in Hx; [|contradiction].
    destruct Hx as [->|[]]. exact Hin.
  - intros Hin. exists (Some s). split; [exact Hin|now left].
Qed.

(** The three calls of one hoisting, in the relation numbered [serial]. *)
Lemma hoisted_In grouprel hctx aggs :
  forall first c,
    In c (hoisted grouprel hctx first aggs) ->
    exists i s,
      nth_error aggs i = Some s
      /\ In c [process_set_as_agg_expr_inner
                 s (ScopeRel (first + i)) pgast.value true
                 (with_rel (ScopeRel (first + i)) hctx);
               get_path_value_output (ScopeRel (first + i)) (path_id_of s);
               put_path_value_var grouprel (path_id_of s)
                                  (pgast.RelRef (ScopeRel (first + i)))].
Proof.
  unfold hoisted. induction aggs as [|s aggs IH]; intros first c Hc;
    [destruct Hc|].
  cbn [enumerate_from flat_map] in Hc. apply in_app_or in Hc.
  destruct Hc as [Hc|Hc].
  - exists 0, s. rewrite Nat.add_0_r. split; [reflexivity|exact Hc].
  - destruct (IH (S first) c Hc) as (i & s' & Hi & Hin).
    exists (S i), s'. rewrite Nat.add_succ_r. split; [exact Hi|exact Hin].
Qed.

Lemma hoisted_nth grouprel hctx aggs :
  forall first i s,
    nth_error aggs i = Some s ->
    incl [process_set_as_agg_expr_inner
            s (ScopeRel (first + i)) pgast.value true
            (with_rel (ScopeRel (first + i)) hctx);
          get_path_value_output (ScopeRel (first + i)) (path_id_of s);
          put_path_value_var grouprel (path_id_of s)
                             (pgast.RelRef (ScopeRel (first + i)))]
         (hoisted grouprel hctx first aggs).
Proof.
  unfold hoisted. induction aggs as [|s0 aggs IH]; intros first i s Hi c Hc;
    [destruct i; discriminate Hi|].
  cbn [enumerate_from flat_map]. apply in_or_app.
  destruct i as [|i].
  - injection Hi as ->. rewrite Nat.add_0_r in Hc. left. exact Hc.
  - right. apply (IH (S first) i s Hi). rewrite Nat.add_succ_r in Hc.
    exact Hc.
Qed.

(** The hoisting calls of [_compile_group], whatever comes of the rest. *)
Lemma hoisting_trace stmt ctx parent_ctx e :
  filter is_hoist_effect
         (effects (_compile_group first_target_name stmt ctx parent_ctx e))
  = hoisted (ScopeRel (scopes e))
            (hoist_context stmt (with_rel (ScopeRel (scopes e)) ctx))
            (S (S (scopes e))) (aggregates (group_uses_of stmt)).
Proof.
  rewrite front_filter;
    try (intros c; destruct c; cbn; intros; try congruence;
         repeat match goal with
                | x : pgast.Aspect |- _ => destruct x
                | x : pgast.Flavor |- _ => destruct x
                end; cbn in *; congruence);
    try reflexivity.
  unfold scope_front.
  rewrite !filter_app. cbn [filter is_hoist_effect app].
  rewrite filter_nothing
    by (apply Forall_forall; intros c Hc; apply in_map_iff in Hc;
        destruct Hc as (v & <- & _); reflexivity).
  rewrite filter_all
    by (eapply Forall_impl; [|apply hoisted_class]; intros c Hc; apply Hc).
  reflexivity.
Qed.

(** X14: whatever comes of the rest, each aggregate context recorded by
    the analyzer is hoisted once and once only.  [group_uses] is a set,
    walked in an order of its own: in some order of the Sets among it,
    the hoisting calls of [_compile_group] are the three calls of one
    hoisting each, in a relation of its own, numbered after the group
    relation and the subject's in the order of the walk, with [None]
    among [materializing].  So there are three hoisting calls to the
    aggregate, every aggregate has its calls, a call that hoists is for
    an aggregate recorded, no two hoistings share a relation, and the
    Sets are pairwise different objects, each an aggregate call. *)
Theorem X14_each_aggregate_hoisted_once :
  forall stmt ctx parent_ctx e,
    let groupctx := with_rel (ScopeRel (scopes e)) ctx in
    let aggs := aggregates (group_uses_of stmt) in
    let effs :=
      effects (_compile_group first_target_name stmt ctx parent_ctx e) in
    (exists order,
        Permutation order aggs
        /\ filter is_hoist_effect effs
           = hoisted (ScopeRel (scopes e)) (hoist_context stmt groupctx)
                     (S (S (scopes e))) order)
    /\ List.length (filter is_hoist_effect effs) = 3 * List.length aggs
    /\ (forall s, In s aggs ->
          exists n,
            S (scopes e) < n
            /\ In (process_set_as_agg_expr_inner
                     s (ScopeRel n) pgast.value true
                     (with_rel (ScopeRel n) (hoist_context stmt groupctx)))
                  effs
            /\ In (get_path_value_output (ScopeRel n) (path_id_of s)) effs
            /\ In (put_path_value_var (ScopeRel (scopes e)) (path_id_of s)
                                      (pgast.RelRef (ScopeRel n))) effs)
    /\ (forall s r a w hctx,
          In (process_set_as_agg_expr_inner s r a w hctx) effs ->
          In s aggs
          /\ forall s' a' w' hctx',
              In (process_set_as_agg_expr_inner s' r a' w' hctx') effs ->
              s' = s)
    /\ NoDup (map uid_of aggs)
    /\ Forall (fun s => is_aggregate_use s = true) aggs
    /\ In Unscoped (materializing (hoist_context stmt groupctx)).
Proof.
  intros stmt ctx parent_ctx e groupctx aggs effs.
  pose proof (hoisting_trace stmt ctx parent_ctx e) as E.
  fold groupctx aggs effs in E.
  assert (Hcall : forall s r a w hctx,
             In (process_set_as_agg_expr_inner s r a w hctx) effs ->
             exists i, nth_error aggs i = Some s
                       /\ r = ScopeRel (S (S (scopes e)) + i)).
  { intros s r a w hctx Hin.
    assert (Hf : In (process_set_as_agg_expr_inner s r a w hctx)
                    (filter is_hoist_effect effs))
      by (apply filter_In; split; [exact Hin|reflexivity]).
    rewrite E in Hf. apply hoisted_In in Hf.
    destruct Hf as (i & s0 & Hi & [H|[H|[H|[]]]]); try discriminate H.
    injection H as Hs Hr _ _ _. subst s0.
    exists i. split; [exact Hi|symmetry; exact Hr]. }
  split; [exists aggs; split; [apply Permutation_refl|exact E]|].
  split; [rewrite E; apply hoisted_length|].
  split; [|split; [|split; [|split]]].
  - intros s Hs. apply In_nth_error in Hs. destruct Hs as (i & Hi).
    exists (S (S (scopes e)) + i). split; [lia|].
    pose proof (hoisted_nth (ScopeRel (scopes e))
                            (hoist_context stmt groupctx) aggs
                            (S (S (scopes e))) i s Hi) as Hincl.
    rewrite <- E in Hincl.
    repeat split;
      refine (proj1 (proj1 (filter_In _ _ _) (Hincl _ _)));
      cbn; auto.
  - intros s r a w hctx Hin.
    destruct (Hcall _ _ _ _ _ Hin) as (i & Hi & Hr).
    split; [exact (nth_error_In _ _ Hi)|].
    intros s' a' w' hctx' Hin'.
    destruct (Hcall _ _ _ _ _ Hin') as (i' & Hi' & Hr').
    rewrite Hr in Hr'. injection Hr' as Hii.
    assert (i' = i) by lia. subst i'. congruence.
  - apply aggregates_distinct. apply distinct_visit. constructor.
  - apply aggregates_aggregate. unfold group_uses_of.
    destruct (walk.keeps_visit (GroupStmt.result stmt)) as [_ Hk].
    apply Hk; cbn; [exact I|constructor].
  - left. reflexivity.
Qed.

(** ** When the group compiles *)

Lemma bound_atom_refs stmt :
  forall el, bound_atom stmt el = true
             <-> first_unbound stmt (atom_refs el) = None.
Proof.
  induction el as [name|elements IH|].
  - cbn. destruct (dict_lookup (GroupStmt.using_ stmt) name); cbn;
      split; congruence.
  - cbn [bound_atom atom_refs]. apply walk.all_Forall_gen in IH.
    induction IH as [|x l Hx Hl IHl]; cbn; [tauto|].
    rewrite first_unbound_app, andb_true_iff, Hx, IHl.
    destruct (first_unbound stmt (atom_refs x)); split;
      try tauto; try (intros [H _]; discriminate H); discriminate.
  - cbn. tauto.
Qed.

Lemma bound_atoms_refs stmt (l : list qlast.GroupingAtom) :
  forallb (bound_atom stmt) l = true
  <-> first_unbound stmt (flat_map atom_refs l) = None.
Proof.
  induction l as [|x l IH]; cbn; [tauto|].
  rewrite first_unbound_app, andb_true_iff, bound_atom_refs, IH.
  destruct (first_unbound stmt (atom_refs x)); split;
    try tauto; try (intros [H _]; discriminate H); discriminate.
Qed.

Lemma bound_el_refs stmt :
  forall el, bound_el stmt el = true
             <-> first_unbound stmt (el_refs el) = None.
Proof.
  induction el as [element|sets IH|oper elements|].
  - apply bound_atom_refs.
  - cbn [bound_el el_refs]. apply walk.all_Forall_gen in IH.
    induction IH as [|x l Hx Hl IHl]; cbn; [tauto|].
    rewrite first_unbound_app, andb_true_iff, Hx, IHl.
    destruct (first_unbound stmt (el_refs x)); split;
      try tauto; try (intros [H _]; discriminate H); discriminate.
  - apply bound_atoms_refs.
  - cbn. tauto.
Qed.

Lemma bound_els_refs stmt (l : list qlast.GroupingElement) :
  forallb (bound_el stmt) l = true
  <-> first_unbound stmt (flat_map el_refs l) = None.
Proof.
  induction l as [|x l IH]; cbn; [tauto|].
  rewrite first_unbound_app, andb_true_iff, bound_el_refs, IH.
  destruct (first_unbound stmt (el_refs x)); split;
    try tauto; try (intros [H _]; discriminate H); discriminate.
Qed.

Lemma ordered_add_In k name atoms :
  In k (ordered_add name atoms) -> In k atoms \/ k = name.
Proof.
  unfold ordered_add. destruct (existsb _ _); [auto|].
  rewrite in_app_iff. cbn. intuition.
Qed.

Lemma fold_In {A : Type} (f : A -> list string -> list string)
      (refs : A -> list string) l :
  Forall (fun x => forall k atoms, In k (f x atoms) ->
                                   In k atoms \/ In k (refs x)) l ->
  forall k atoms,
    In k (fold_left (fun acc x => f x acc) l atoms) ->
    In k atoms \/ In k (flat_map refs l).
Proof.
  induction 1 as [|x l Hx Hl IH]; intros k atoms Hk; [auto|].
  cbn in Hk. apply IH in Hk. cbn. rewrite in_app_iff.
  destruct Hk as [Hk|Hk]; [|auto]. apply Hx in Hk. tauto.
Qed.

Lemma collect_atom_In :
  forall el k atoms, In k (collect_atom el atoms) ->
                     In k atoms \/ In k (atom_refs el).
Proof.
  induction el as [name|elements IH|]; intros k atoms Hk.
  - apply ordered_add_In in Hk. destruct Hk as [Hk| ->]; cbn; auto.
  - cbn [collect_atom atom_refs] in *.
    apply (fold_In collect_atom atom_refs) in Hk; [exact Hk|].
    now apply walk.all_Forall_gen in IH.
  - auto.
Qed.

Lemma collect_el_In :
  forall el k atoms, In k (collect_el el atoms) ->
                     In k atoms \/ In k (el_refs el).
Proof.
  induction el as [element|sets IH|oper elements|]; intros k atoms Hk.
  - now apply collect_atom_In.
  - cbn [collect_el el_refs] in *.
    apply (fold_In collect_el el_refs) in Hk; [exact Hk|].
    now apply walk.all_Forall_gen in IH.
  - cbn [collect_el el_refs] in *.
    apply (fold_In collect_atom atom_refs) in Hk; [exact Hk|].
    apply Forall_forall. intros x _. apply collect_atom_In.
  - auto.
Qed.

Lemma collected_referenced els k :
  In k (collect_grouping_atoms els) -> In k (flat_map el_refs els).
Proof.
  intros Hk. apply (fold_In collect_el el_refs) in Hk.
  - destruct Hk as [[]|Hk]. exact Hk.
  - apply Forall_forall. intros x _. apply collect_el_In.
Qed.

(** The outcome of the grouping binding: the [KeyError] of the first
    key missing from [using] in the general path, and success else. *)
Lemma binding_outcome stmt c gb e :
  GroupStmt.grouping_binding stmt = Some gb ->
  let keys := collect_grouping_atoms (GroupStmt.by_ stmt) in
  outcome (_compile_grouping_binding stmt c e)
  = match keys with
    | [_] => inr tt
    | _ => match first_unbound stmt keys with
           | Some k => inl (KeyError k)
           | None => inr tt
           end
    end.
Proof.
  intros Hgb keys.
  unfold _compile_grouping_binding. rewrite Hgb. rewrite run.outcome_bind.
  destruct (Nat.eq_dec (List.length keys) 1) as [Hone|Hlen].
  - destruct keys as [|k1 [|k2 rest]] eqn:Hkeys; try discriminate Hone.
    unfold _compile_grouping_value. rewrite Hgb. cbn [truthy_opt negb].
    fold keys. rewrite Hkeys. reflexivity.
  - destruct (first_unbound stmt keys) as [k|] eqn:Hk.
    + unfold _compile_grouping_value. rewrite Hgb. cbn [truthy_opt negb].
      fold keys.
      destruct keys as [|k1 [|k2 rest]]; [discriminate Hk|cbn in Hlen; lia|].
      rewrite run.outcome_bind. now rewrite (used_bindings_fail _ _ _ Hk).
    + rewrite (general_path stmt c e gb keys Hgb eq_refl Hlen Hk).
      cbn [outcome env_after call].
      destruct keys as [|k1 [|k2 rest]]; [reflexivity|cbn in Hlen; lia|reflexivity].
Qed.

(** The outcome of the end of the group scope, for grouping elements of
    the recognized shapes. *)
Lemma scope_end_outcome stmt uses ctx groupctx e :
  forallb recognized_el (GroupStmt.by_ stmt) = true ->
  if forallb (bound_el stmt) (GroupStmt.by_ stmt)
  then outcome (scope_end first_target_name stmt uses ctx groupctx e)
       = inr (has_ungrouped uses)
  else exists k,
      outcome (scope_end first_target_name stmt uses ctx groupctx e)
      = inl (KeyError k)
      /\ dict_lookup (GroupStmt.using_ stmt) k = None.
Proof.
  intros Hrec. rewrite forallb_forall in Hrec.
  unfold scope_end. rewrite run.outcome_bind.
  destruct (run.packed_run first_target_name stmt (rel groupctx) ctx uses e)
    as [Hpo _].
  cbn zeta in Hpo. rewrite Hpo. rewrite run.outcome_bind.
  set (c := closing_context stmt groupctx).
  set (e1 := env_after _).
  assert (HC : looks_up stmt (rel c)
                        (flat_map el_refs (GroupStmt.by_ stmt))
                        (comprehension (fun el => compile_grouping_el el stmt c)
                                       (GroupStmt.by_ stmt))).
  { apply looks_up_comprehension. apply Forall_forall. intros el Hel.
    apply looks_up_el. now apply Hrec. }
  set (B := if truthy_opt (GroupStmt.grouping_binding stmt)
            then _compile_grouping_binding stmt c else ret tt).
  destruct (forallb (bound_el stmt) (GroupStmt.by_ stmt)) eqn:Hbound.
  - apply bound_els_refs in Hbound.
    assert (HB : outcome (B e1) = inr tt).
    { unfold B. destruct (GroupStmt.grouping_binding stmt) as [gb|] eqn:Hgb;
        [|reflexivity].
      cbn [truthy_opt]. rewrite (binding_outcome stmt c gb e1 Hgb). cbn zeta.
      assert (Hk : first_unbound stmt
                     (collect_grouping_atoms (GroupStmt.by_ stmt)) = None).
      { apply first_unbound_none. intros k Hk.
        apply (proj1 (first_unbound_none _ _) Hbound).
        now apply collected_referenced. }
      rewrite Hk.
      now destruct (collect_grouping_atoms (GroupStmt.by_ stmt))
        as [|k1 [|k2 rest]]. }
    rewrite HB. rewrite run.outcome_bind.
    destruct (HC (env_after (B e1))) as (_ & _ & O). rewrite Hbound in O.
    destruct O as [v ->]. reflexivity.
  - assert (Hr : first_unbound stmt (flat_map el_refs (GroupStmt.by_ stmt))
                 <> None).
    { intros H. apply bound_els_refs in H. congruence. }
    destruct (outcome (B e1)) as [x|[]] eqn:HB.
    + unfold B in HB.
      destruct (GroupStmt.grouping_binding stmt) as [gb|] eqn:Hgb;
        [|discriminate HB].
      cbn [truthy_opt] in HB.
      rewrite (binding_outcome stmt c gb e1 Hgb) in HB. cbn zeta in HB.
      destruct (first_unbound stmt (collect_grouping_atoms (GroupStmt.by_ stmt)))
        as [k|] eqn:Hk.
      * exists k. split; [|exact (proj2 (first_unbound_unbound _ _ _ Hk))].
        destruct (collect_grouping_atoms (GroupStmt.by_ stmt))
          as [|k1 [|k2 rest]]; congruence.
      * destruct (collect_grouping_atoms (GroupStmt.by_ stmt))
          as [|k1 [|k2 rest]]; discriminate HB.
    + rewrite run.outcome_bind.
      destruct (HC (env_after (B e1))) as (_ & _ & O).
      destruct (first_unbound stmt (flat_map el_refs (GroupStmt.by_ stmt)))
        as [k|] eqn:Hk; [|congruence].
      exists k. rewrite O. split; [reflexivity|].
      exact (proj2 (first_unbound_unbound _ _ _ Hk)).
Qed.

Lemma group_outcome stmt ctx parent_ctx e :
  outcome (_compile_group first_target_name stmt ctx parent_ctx e)
  = match outcome (scope_end first_target_name stmt (group_uses_of stmt) ctx
                             (with_rel (ScopeRel (scopes e)) ctx)
                             (MkEnv (aliases e)
                                    (S (S (scopes e))
                                     + List.length
                                         (aggregates (group_uses_of stmt)))))
    with
    | inl x => inl x
    | inr _ => inr (pgast.RelRef (context.stmt ctx))
    end.
Proof.
  rewrite group_run. cbn zeta. rewrite scope_run.
  cbn [outcome aliases scopes].
  match goal with
  | |- context [outcome (scope_end ?a ?b ?c ?d ?g ?h)] =>
      destruct (outcome (scope_end a b c d g h))
  end; reflexivity.
Qed.

(** X15: with grouping elements of the recognized shapes,
    [_compile_group] returns exactly when [stmt.using] binds every key
    the [by] elements refer to, and what it returns is the query of the
    context it was given, [ctx.stmt]; when some reference is not bound it
    raises the [KeyError] of a key that [stmt.using] does not bind. *)
Theorem X15_group_compiles_iff_keys_bound :
  forall stmt ctx parent_ctx e,
    forallb recognized_el (GroupStmt.by_ stmt) = true ->
    if forallb (bound_el stmt) (GroupStmt.by_ stmt)
    then outcome (_compile_group first_target_name stmt ctx parent_ctx e)
         = inr (pgast.RelRef (context.stmt ctx))
    else exists k,
        outcome (_compile_group first_target_name stmt ctx parent_ctx e)
        = inl (KeyError k)
        /\ dict_lookup (GroupStmt.using_ stmt) k = None.
Proof.
  intros stmt ctx parent_ctx e Hrec. rewrite group_outcome.
  pose proof (scope_end_outcome stmt (group_uses_of stmt) ctx
                (with_rel (ScopeRel (scopes e)) ctx)
                (MkEnv (aliases e)
                       (S (S (scopes e))
                        + List.length (aggregates (group_uses_of stmt))))
                Hrec) as H.
  destruct (forallb (bound_el stmt) (GroupStmt.by_ stmt)).
  - now rewrite H.
  - destruct H as (k & -> & Hk). now exists k.
Qed.

(** ** After the group scope *)

Lemma front_class stmt uses groupctx serial :
  Forall (fun c => is_front_effect c = true)
         (scope_front stmt uses groupctx serial).
Proof.
  unfold scope_front. apply Forall_app. split; [repeat constructor|].
  apply Forall_app. split.
  - apply Forall_forall. intros c Hc. apply in_map_iff in Hc.
    destruct Hc as (v & <- & _). reflexivity.
  - eapply Forall_impl; [|apply hoisted_class]. intros c [Hc _].
    unfold is_front_effect. rewrite Hc. now rewrite orb_true_r.
Qed.

(** The effects of [_compile_group] in full: the front of the group
    scope, its end, and after a group scope that raised nothing the
    attachment to the parent query and the compilation downstream. *)
Lemma group_trace stmt ctx parent_ctx e :
  let grouprel := ScopeRel (scopes e) in
  let groupctx := with_rel grouprel ctx in
  let uses := group_uses_of stmt in
  let o :=
    scope_end first_target_name stmt uses ctx groupctx
              (MkEnv (aliases e)
                     (S (S (scopes e)) + List.length (aggregates uses))) in
  let query := context.stmt ctx in
  let run := _compile_group first_target_name stmt ctx parent_ctx e in
  effects run
  = scope_front stmt uses groupctx (S (scopes e))
    ++ effects o
    ++ match outcome run with
       | inl _ => []
       | inr _ =>
           [rvar_for_rel grouprel ctx true;
            attachment stmt ctx grouprel (has_ungrouped uses)]
             ++ registrations query (pgast.RvarForRel grouprel true) stmt uses
             ++ [compile_materialized_exprs query stmt ctx;
                 compile_output (GroupStmt.result stmt) ctx;
                 setup_iterator_volatility (GroupStmt.result stmt) ctx]
             ++ where_effects query stmt ctx
             ++ orderby_effects query stmt ctx
       end
  /\ Forall (fun c => is_closing_effect c = true) (effects o).
Proof.
  intros grouprel groupctx uses o query run.
  split; [|apply only_scope_end].
  unfold run. rewrite group_run. cbn zeta.
  pose proof (run.scope_packed first_target_name stmt uses ctx groupctx
                (MkEnv (aliases e) (S (scopes e)))) as Hp.
  fold grouprel groupctx uses in Hp |- *.
  rewrite scope_run in Hp |- *.
  cbn [outcome env_after effects aliases scopes] in Hp |- *. fold o in Hp |- *.
  destruct (outcome o) as [x|packed].
  - cbn [outcome effects]. now rewrite app_nil_r.
  - cbn [outcome effects]. rewrite (Hp packed eq_refl).
    unfold attachment, query. now rewrite <- !app_assoc.
Qed.

(** A class of effects that neither the group scope nor the making of
    the range variable of the group relation emits is met, if at all,
    after a group scope that raised nothing. *)
Lemma back_filter (Q : Effect -> bool) stmt ctx parent_ctx e :
  (forall c, is_front_effect c = true -> Q c = false) ->
  (forall c, is_closing_effect c = true -> Q c = false) ->
  (forall r c l, Q (rvar_for_rel r c l) = false) ->
  let grouprel := ScopeRel (scopes e) in
  let uses := group_uses_of stmt in
  let query := context.stmt ctx in
  let run := _compile_group first_target_name stmt ctx parent_ctx e in
  filter Q (effects run)
  = match outcome run with
    | inl _ => []
    | inr _ =>
        filter Q
          ([attachment stmt ctx grouprel (has_ungrouped uses)]
             ++ registrations query (pgast.RvarForRel grouprel true) stmt uses
             ++ [compile_materialized_exprs query stmt ctx;
                 compile_output (GroupStmt.result stmt) ctx;
                 setup_iterator_volatility (GroupStmt.result stmt) ctx]
             ++ where_effects query stmt ctx
             ++ orderby_effects query stmt ctx)
    end.
Proof.
  intros Qf Qc Qr grouprel uses query run.
  destruct (group_trace stmt ctx parent_ctx e) as [E Hclosing].
  subst grouprel uses query run. cbn zeta in E, Hclosing.
  rewrite E at 1.
  rewrite (filter_app Q (scope_front _ _ _ _)), (filter_app Q (effects _)).
  rewrite (run.filter_class _ _ _ (front_class _ _ _ _) Qf).
  rewrite (run.filter_class _ _ _ Hclosing Qc).
  destruct (outcome (_compile_group first_target_name stmt ctx parent_ctx e));
    [reflexivity|].
  cbn [app filter]. now rewrite Qr.
Qed.

Ltac excluded :=
  try (intros c; destruct c; cbn; intros; try congruence;
       repeat match goal with
              | x : pgast.Aspect |- _ => destruct x
              | x : pgast.Flavor |- _ => destruct x
              end; cbn in *; congruence);
  try reflexivity.

Lemma registrations_class query rvar stmt uses :
  Forall (fun c => is_put_path_rvar c = true /\ touches_query c = true
                   /\ is_clause_effect c = false)
         (registrations query rvar stmt uses).
Proof.
  apply Forall_forall. intros c Hc. apply in_map_iff in Hc.
  destruct Hc as (s & <- & _). repeat split.
Qed.

Lemma aggregates_app (l1 l2 : list FindAggregatingUses.Context) :
  aggregates (l1 ++ l2) = aggregates l1 ++ aggregates l2.
Proof. apply flat_map_app. Qed.

Lemma aggregates_Some (l : list Base) : aggregates (map Some l) = l.
Proof.
  induction l as [|x l IH]; [reflexivity|].
  change (aggregates (map Some (x :: l))) with (x :: aggregates (map Some l)).
  now rewrite IH.
Qed.

(** The attachment of the group relation to the parent query. *)
Lemma parent_attachment stmt ctx parent_ctx e :
  let run := _compile_group first_target_name stmt ctx parent_ctx e in
  match outcome run with
  | inr v =>
      v = pgast.RelRef (context.stmt ctx)
      /\ filter is_parent_attachment (effects run)
         = [attachment stmt ctx (ScopeRel (scopes e))
                       (has_ungrouped (group_uses_of stmt))]
  | inl _ => filter is_parent_attachment (effects run) = []
  end.
Proof.
  intros run.
  pose proof (back_filter is_parent_attachment stmt ctx parent_ctx e) as Ha.
  pose proof (group_outcome stmt ctx parent_ctx e) as Ho.
  cbn zeta in Ha. fold run in Ha, Ho.
  destruct (outcome run) as [x|v].
  - apply Ha; excluded.
  - split.
    + destruct (outcome (scope_end _ _ _ _ _ _)); congruence.
    + rewrite Ha by excluded.
      rewrite !filter_app.
      rewrite (filter_nothing is_parent_attachment (registrations _ _ _ _))
        by (eapply Forall_impl; [|apply registrations_class];
            intros c (Hc & _ & _); now destruct c).
      unfold where_effects, orderby_effects, attachment.
      destruct (has_ungrouped _), (GroupStmt.where_ stmt),
        (GroupStmt.orderby stmt); reflexivity.
Qed.

(** X16: an exception of the module's own leaves the parent query
    untouched.  The calls into the other modules of the compiler are
    recorded as calls that return; the exceptions are those that
    [group.py] raises by itself, on a grouping key that [using] does not
    bind and on a grouping element of an unknown class.  When
    [_compile_group] raises one of them, it has attached nothing to the
    parent query, registered no range variable in it, compiled neither
    the output nor a clause: all it has done lies in the group scope,
    whose calls up to the end of the hoisting were all made, the
    aggregates hoisted in some order of the set.  When it returns, the
    group relation has been attached to the parent query exactly once. *)
Theorem X16_own_exception_leaves_the_parent_query_untouched :
  forall stmt ctx parent_ctx e,
    let groupctx := with_rel (ScopeRel (scopes e)) ctx in
    let run := _compile_group first_target_name stmt ctx parent_ctx e in
    match outcome run with
    | inl _ =>
        filter touches_query (effects run) = []
        /\ exists uses rest,
            Permutation uses (group_uses_of stmt)
            /\ effects run
               = scope_front stmt uses groupctx (S (scopes e)) ++ rest
            /\ Forall (fun c => is_closing_effect c = true) rest
    | inr v =>
        v = pgast.RelRef (context.stmt ctx)
        /\ List.length (filter is_parent_attachment (effects run)) = 1
        /\ In (compile_output (GroupStmt.result stmt) ctx) (effects run)
    end.
Proof.
  intros stmt ctx parent_ctx e groupctx run.
  pose proof (back_filter touches_query stmt ctx parent_ctx e) as Ht.
  pose proof (back_filter is_parent_attachment stmt ctx parent_ctx e) as Ha.
  destruct (group_trace stmt ctx parent_ctx e) as [E Hclosing].
  pose proof (group_outcome stmt ctx parent_ctx e) as Ho.
  cbn zeta in Ht, Ha, E. fold groupctx run in Ht, Ha, E, Ho.
  destruct (outcome run) as [x|v].
  - split.
    + apply Ht; unfold touches_query; excluded.
    + exists (group_uses_of stmt). eexists.
      split; [apply Permutation_refl|].
      split; [rewrite E, app_nil_r; reflexivity|exact Hclosing].
  - split; [|split].
    + destruct (outcome (scope_end _ _ _ _ _ _)); congruence.
    + rewrite Ha by excluded.
      rewrite !filter_app.
      rewrite (filter_nothing is_parent_attachment (registrations _ _ _ _))
        by (eapply Forall_impl; [|apply registrations_class];
            intros c (Hc & _ & _); now destruct c).
      unfold where_effects, orderby_effects, attachment.
      destruct (has_ungrouped _), (GroupStmt.where_ stmt),
        (GroupStmt.orderby stmt); reflexivity.
    + rewrite E. apply in_or_app. right. apply in_or_app. right.
      apply in_or_app. right. apply in_or_app. right.
      apply in_or_app. left. right. left. reflexivity.
Qed.

(** X17: when [_compile_group] returns, the range variable of the
    group relation has been registered in the parent query, by
    [pathctx.put_path_rvar] with the aspect [value], under the PathId of
    each aggregate context recorded, in some order of the set, then of
    each [using] value in the order of the dict, then of the grouping
    binding when there is one, and under no other; the ungrouped context
    is passed over.  When it raises, nothing has been registered. *)
Theorem X17_group_relation_registered :
  forall stmt ctx parent_ctx e,
    let grouprel := ScopeRel (scopes e) in
    let group_rvar := pgast.RvarForRel grouprel true in
    let query := context.stmt ctx in
    let run := _compile_group first_target_name stmt ctx parent_ctx e in
    exists order,
      Permutation order (aggregates (group_uses_of stmt))
      /\ filter is_put_path_rvar (effects run)
         = match outcome run with
           | inl _ => []
           | inr _ =>
               map (fun s => put_path_rvar query (path_id_of s) group_rvar
                                           pgast.value)
                   (order ++ GroupStmt.using_values stmt
                    ++ match GroupStmt.grouping_binding stmt with
                       | Some grouping_binding => [grouping_binding]
                       | None => []
                       end)
           end.
Proof.
  intros stmt ctx parent_ctx e grouprel group_rvar query run.
  exists (aggregates (group_uses_of stmt)).
  split; [apply Permutation_refl|].
  unfold run. rewrite back_filter by excluded.
  fold run. destruct (outcome run); [reflexivity|].
  rewrite !filter_app.
  rewrite (filter_all is_put_path_rvar (registrations _ _ _ _))
    by (eapply Forall_impl; [|apply registrations_class];
        intros c (Hc & _ & _); exact Hc).
  assert (Hnone :
    filter is_put_path_rvar
           [attachment stmt ctx (ScopeRel (scopes e))
                       (has_ungrouped (group_uses_of stmt))] = []
    /\ filter is_put_path_rvar (where_effects (context.stmt ctx) stmt ctx) = []
    /\ filter is_put_path_rvar (orderby_effects (context.stmt ctx) stmt ctx)
       = []).
  { unfold where_effects, orderby_effects, attachment.
    destruct (has_ungrouped _), (GroupStmt.where_ stmt),
      (GroupStmt.orderby stmt); repeat split. }
  destruct Hnone as (-> & -> & ->). cbn [filter is_put_path_rvar app].
  rewrite app_nil_r. unfold registrations.
  rewrite !aggregates_app, aggregates_Some.
  fold grouprel group_rvar query.
  now destruct (GroupStmt.grouping_binding stmt).
Qed.

(** X18: the clauses.  When [_compile_group] returns, the filter has
    been compiled exactly when [stmt.where] is not None, with the
    cardinality [stmt.where_card], and the clause it gives extends the
    [where_clause] the query already has; the ordering has been compiled
    exactly when [stmt.orderby] is not None, be it the empty list, and
    the clause it gives replaces the [sort_clause] of the query; the
    filter comes before the ordering.  When it raises, no clause has
    been compiled.  The context levels handed to the two compilations
    are left open. *)
Theorem X18_filter_and_order_clauses :
  forall stmt ctx parent_ctx e,
    let query := context.stmt ctx in
    let run := _compile_group first_target_name stmt ctx parent_ctx e in
    exists filterctx orderctx,
      filter is_clause_effect (effects run)
      = match outcome run with
        | inl _ => []
        | inr _ =>
            match GroupStmt.where_ stmt with
            | Some where_ =>
                [compile_filter_clause where_ (GroupStmt.where_card stmt)
                                       filterctx;
                 assign_where_clause
                   query
                   (pgast.ExtendBinop
                      (pgast.WhereClauseOf query)
                      (pgast.FilterClause where_ (GroupStmt.where_card stmt)
                                          filterctx))]
            | None => []
            end
              ++ match GroupStmt.orderby stmt with
                 | Some orderby =>
                     [compile_orderby_clause orderby orderctx;
                      assign_sort_clause
                        query (pgast.OrderbyClause orderby orderctx)]
                 | None => []
                 end
        end.
Proof.
  intros stmt ctx parent_ctx e query run.
  exists ctx, ctx.
  unfold run. rewrite back_filter by excluded.
  fold run. destruct (outcome run); [reflexivity|].
  rewrite !filter_app.
  rewrite (filter_nothing is_clause_effect (registrations _ _ _ _))
    by (eapply Forall_impl; [|apply registrations_class];
        intros c (_ & _ & Hc); exact Hc).
  unfold where_effects, orderby_effects, attachment. fold query.
  destruct (has_ungrouped _), (GroupStmt.where_ stmt),
    (GroupStmt.orderby stmt); reflexivity.
Qed.

(** ** The materialization *)

Lemma scope_end_effects stmt uses ctx groupctx e :
  exists tail,
    effects (scope_end first_target_name stmt uses ctx groupctx e)
    = (if has_ungrouped uses
       then effects (materialize first_target_name stmt (rel groupctx) ctx e)
       else [])
      ++ tail
    /\ Forall (fun c => is_grouping_effect c = true) tail.
Proof.
  unfold scope_end. rewrite run.effects_bind.
  destruct (run.packed_run first_target_name stmt (rel groupctx) ctx uses e)
    as [Hpo Hpe].
  cbn zeta in Hpo, Hpe. rewrite Hpo, Hpe.
  eexists. split; [reflexivity|].
  apply (run.only_bind is_grouping_effect).
  - destruct (truthy_opt (GroupStmt.grouping_binding stmt));
      [|apply run.only_ret].
    apply run.only__compile_grouping_binding; reflexivity.
  - intros _. apply (run.only_bind is_grouping_effect).
    + apply run.only_comprehension. apply Forall_forall. intros el _.
      apply run.only_compile_grouping_el. reflexivity.
    + intros clause. apply (run.only_bind is_grouping_effect).
      * now apply run.only_call.
      * intros _. apply run.only_ret.
Qed.

Lemma materialize_naming stmt grouprel ctx e :
  let gb := GroupStmt.group_binding stmt in
  let mat_qry := ArrayOf (path_id_of gb) (SubqueryOf gb (rel ctx)) in
  let fresh_name := pgast.Generated "v" (aliases e) in
  let column name :=
    put_path_packed_output mat_qry (path_id_of gb)
                           (pgast.ColumnRef [name] true) in
  filter is_naming_effect
         (effects (materialize first_target_name stmt grouprel ctx e))
  = match first_target_name mat_qry with
    | Some name =>
        if truthy_name (Some name) then [column name]
        else [assign_target_name mat_qry fresh_name; column fresh_name]
    | None => [assign_target_name mat_qry fresh_name; column fresh_name]
    end.
Proof.
  intros gb mat_qry fresh_name column. unfold materialize.
  fold gb. cbn [new ret bind call outcome effects env_after rel
                with_expr_exposed with_materializing with_output_format
                materializing app].
  fold mat_qry.
  destruct (first_target_name mat_qry) as [[s|h n]|]; cbn.
  - destruct (negb (s =? "")%string); reflexivity.
  - reflexivity.
  - reflexivity.
Qed.

(** X19: the column of the materialized array is named once.  When the
    sightings hold the ungrouped context, the first target of the query
    [relctx.set_to_array] returns keeps the name it has, and is given a
    name drawn from the aliases with the hint [v] only when it has none
    or an empty one; that alias is the first [_compile_group] draws.
    The packed output of the query is registered under the PathId of the
    group binding as a reference to that column.  Otherwise no column is
    named and no packed output registered. *)
Theorem X19_materialized_column_named_once :
  forall stmt ctx parent_ctx e,
    let gb := GroupStmt.group_binding stmt in
    let mat_qry := ArrayOf (path_id_of gb) (SubqueryOf gb (rel ctx)) in
    let fresh_name := pgast.Generated "v" (aliases e) in
    let column name :=
      put_path_packed_output mat_qry (path_id_of gb)
                             (pgast.ColumnRef [name] true) in
    filter is_naming_effect
           (effects (_compile_group first_target_name stmt ctx parent_ctx e))
    = (if has_ungrouped (group_uses_of stmt)
       then match first_target_name mat_qry with
            | Some name =>
                if truthy_name (Some name) then [column name]
                else [assign_target_name mat_qry fresh_name; column fresh_name]
            | None => [assign_target_name mat_qry fresh_name; column fresh_name]
            end
       else [])
    /\ truthy_name (Some (pgast.Str "")) = false
    /\ (forall hint serial,
           truthy_name (Some (pgast.Generated hint serial)) = true).
Proof.
  intros stmt ctx parent_ctx e gb mat_qry fresh_name column.
  split; [|split; reflexivity].
  destruct (group_trace stmt ctx parent_ctx e) as [E _].
  cbn zeta in E. rewrite E.
  rewrite (filter_app _ (scope_front _ _ _ _)), (filter_app _ (effects _)).
  rewrite (run.filter_class _ _ _ (front_class _ _ _ _))
    by (intros c; destruct c; cbn; intros; try congruence;
        repeat match goal with
               | x : pgast.Aspect |- _ => destruct x
               | x : pgast.Flavor |- _ => destruct x
               end; cbn in *; congruence).
  assert (Hback :
    filter is_naming_effect
      match outcome (_compile_group first_target_name stmt ctx parent_ctx e)
      with
      | inl _ => []
      | inr _ =>
          [rvar_for_rel (ScopeRel (scopes e)) ctx true;
           attachment stmt ctx (ScopeRel (scopes e))
                      (has_ungrouped (group_uses_of stmt))]
            ++ registrations (context.stmt ctx)
                 (pgast.RvarForRel (ScopeRel (scopes e)) true) stmt
                 (group_uses_of stmt)
            ++ [compile_materialized_exprs (context.stmt ctx) stmt ctx;
                compile_output (GroupStmt.result stmt) ctx;
                setup_iterator_volatility (GroupStmt.result stmt) ctx]
            ++ where_effects (context.stmt ctx) stmt ctx
            ++ orderby_effects (context.stmt ctx) stmt ctx
      end = []).
  { destruct (outcome _); [reflexivity|].
    rewrite !filter_app.
    rewrite (filter_nothing is_naming_effect (registrations _ _ _ _))
      by (eapply Forall_impl; [|apply registrations_class];
          intros c (Hc & _ & _); now destruct c).
    unfold where_effects, orderby_effects, attachment.
    destruct (has_ungrouped _), (GroupStmt.where_ stmt),
      (GroupStmt.orderby stmt); reflexivity. }
  rewrite Hback.
  destruct (scope_end_effects stmt (group_uses_of stmt) ctx
              (with_rel (ScopeRel (scopes e)) ctx)
              (MkEnv (aliases e)
                     (S (S (scopes e))
                      + List.length (aggregates (group_uses_of stmt)))))
    as (tail & -> & Htail).
  rewrite filter_app.
  rewrite (run.filter_class _ _ _ Htail)
    by (intros c; destruct c; cbn; intros; try congruence;
        repeat match goal with
               | x : pgast.Aspect |- _ => destruct x
               | x : pgast.Flavor |- _ => destruct x
               end; cbn in *; congruence).
  cbn [app]. rewrite !app_nil_r.
  destruct (has_ungrouped (group_uses_of stmt)); [|reflexivity].
  exact (materialize_naming stmt _ ctx _).
Qed.

(** ** The whole of it *)

Lemma front_keeps_mask stmt uses groupctx serial :
  Forall (fun c => keeps_mask c = true) (scope_front stmt uses groupctx serial).
Proof.
  unfold scope_front. apply Forall_app. split; [repeat constructor|].
  apply Forall_app. split.
  - apply Forall_forall. intros c Hc. apply in_map_iff in Hc.
    destruct Hc as (v & <- & _). reflexivity.
  - eapply Forall_impl; [|apply hoisted_class]. intros c [Hc _].
    now destruct c.
Qed.

Lemma keeps_mask_fold (Mask : Type)
      (update : Rel -> PathId -> Mask -> Mask) effs :
  Forall (fun c => keeps_mask c = true) effs ->
  forall m, fold_left (mask_after Mask update) effs m = m.
Proof.
  induction 1 as [|c l Hc Hl IH]; intros m; [reflexivity|].
  cbn [fold_left]. rewrite <- (IH m) at 2. f_equal.
  destruct c; try reflexivity.
  destruct update_mask; [discriminate Hc|reflexivity].
Qed.

(** X20: [_compile_group] updates no mask of output columns.  Every
    [relctx.include_rvar] it calls, for the subject in the group
    relation and for the packed group relation in the parent query,
    passes [update_mask=False], whatever the statement and whether it
    returns or raises; with the mask update suppressed an attachment
    leaves the mask as it is, so the masks of the group relation and of
    the parent query are after the call what they were before. *)
Theorem X20_no_mask_is_updated :
  forall stmt ctx parent_ctx e,
    let effs :=
      effects (_compile_group first_target_name stmt ctx parent_ctx e) in
    Forall (fun c => keeps_mask c = true) effs
    /\ (forall r rvar path_id flavor update_mask pull aspects ctx',
           In (include_rvar r rvar path_id flavor update_mask pull aspects ctx')
              effs ->
           update_mask = false)
    /\ (forall (Mask : Type) (update : Rel -> PathId -> Mask -> Mask) m,
           fold_left (mask_after Mask update) effs m = m).
Proof.
  intros stmt ctx parent_ctx e effs.
  assert (H : Forall (fun c => keeps_mask c = true) effs).
  { unfold effs.
    destruct (group_trace stmt ctx parent_ctx e) as [E Hclosing].
    cbn zeta in E. rewrite E.
    apply Forall_app. split; [apply front_keeps_mask|].
    apply Forall_app. split.
    - eapply Forall_impl; [|exact Hclosing].
      intros c Hc. destruct c; try reflexivity; discriminate Hc.
    - destruct (outcome _); [constructor|].
      constructor; [reflexivity|].
      constructor; [unfold attachment; now destruct (has_ungrouped _)|].
      apply Forall_app. split.
      + eapply Forall_impl; [|apply registrations_class].
        intros c (Hc & _ & _). now destruct c.
      + unfold where_effects, orderby_effects.
        destruct (GroupStmt.where_ stmt), (GroupStmt.orderby stmt);
          repeat constructor. }
  split; [exact H|]. split.
  - intros r rvar path_id flavor update_mask pull aspects ctx' Hin.
    rewrite Forall_forall in H. specialize (H _ Hin). cbn in H.
    now destruct update_mask.
  - intros Mask update m. now apply keeps_mask_fold.
Qed.

(** X21: [compile_group] works in a statement of its own.  It opens a
    new statement level and hands it to [_compile_group], which makes no
    use of the parent context it is also given; when it returns, what it
    returns is the statement it opened, not the caller's, and it is to
    that statement that the group relation has been attached, packed or
    joined; when it raises, nothing has been attached. *)
Theorem X21_compile_group_in_a_statement_of_its_own :
  forall stmt ctx e,
    let query := ScopeRel (scopes e) in
    let sctx := with_stmt query (with_rel query ctx) in
    let run := compile_group first_target_name stmt ctx e in
    (forall parent_ctx,
        run = _compile_group first_target_name stmt sctx parent_ctx
                             (MkEnv (aliases e) (S (scopes e))))
    /\ match outcome run with
       | inr v =>
           v = pgast.RelRef query
           /\ filter is_parent_attachment (effects run)
              = [attachment stmt sctx (ScopeRel (S (scopes e)))
                            (has_ungrouped (group_uses_of stmt))]
       | inl _ => filter is_parent_attachment (effects run) = []
       end.
Proof.
  intros stmt ctx e query sctx run.
  assert (Hrun : forall parent_ctx,
             run = _compile_group first_target_name stmt sctx parent_ctx
                                  (MkEnv (aliases e) (S (scopes e)))).
  { intros parent_ctx. unfold run, compile_group.
    rewrite (bind_value _ _ _ _ _ _ eq_refl). cbn [app].
    fold query sctx.
    change (_compile_group first_target_name stmt sctx parent_ctx)
      with (_compile_group first_target_name stmt sctx ctx).
    now destruct (_compile_group first_target_name stmt sctx ctx _). }
  split; [exact Hrun|].
  rewrite (Hrun ctx).
  exact (parent_attachment stmt sctx ctx (MkEnv (aliases e) (S (scopes e)))).
Qed.

(** ** The grouping clause *)

Lemma comprehension_length {A B : Type} (f : A -> M B) l :
  forall e ys, outcome (comprehension f l e) = inr ys ->
               List.length ys = List.length l.
Proof.
  induction l as [|x l IH]; intros e ys.
  - cbn. intros H. now inversion H.
  - change (comprehension f (x :: l))
      with (bind (f x) (fun y => bind (comprehension f l)
                                      (fun zs => ret (y :: zs)))).
    rewrite run.outcome_bind. destruct (outcome (f x e)); [discriminate|].
    rewrite run.outcome_bind.
    destruct (outcome (comprehension f l (env_after (f x e)))) as [|zs] eqn:E;
      [discriminate|].
    cbn. intros H. inversion H; subst. cbn. f_equal. exact (IH _ _ E).
Qed.

Lemma scope_end_clause stmt uses ctx groupctx e :
  let o := scope_end first_target_name stmt uses ctx groupctx e in
  match outcome o with
  | inr _ =>
      exists clause,
      filter is_assign_group_clause (effects o)
      = [assign_group_clause (rel groupctx) clause]
      /\ List.length clause = List.length (GroupStmt.by_ stmt)
      /\ exists before,
          effects o = before ++ [assign_group_clause (rel groupctx) clause]
  | inl _ => filter is_assign_group_clause (effects o) = []
  end.
Proof.
  cbn zeta. unfold scope_end.
  set (c := closing_context stmt groupctx).
  set (P := if has_ungrouped uses
            then materialize first_target_name stmt (rel groupctx) ctx ;;
                 ret true
            else ret false).
  set (B := if truthy_opt (GroupStmt.grouping_binding stmt)
            then _compile_grouping_binding stmt c else ret tt).
  set (C := comprehension (fun el => compile_grouping_el el stmt c)
                          (GroupStmt.by_ stmt)).
  assert (HP : forall e0, filter is_assign_group_clause (effects (P e0)) = []).
  { intros e0. unfold P.
    destruct (run.packed_run first_target_name stmt (rel groupctx) ctx uses e0)
      as [_ Hpe].
    cbn zeta in Hpe. rewrite Hpe. destruct (has_ungrouped uses); [|reflexivity].
    apply (run.filter_class is_materialize_effect);
      [apply only_materialize|].
    intros c0; destruct c0; cbn; congruence. }
  assert (HPo : forall e0, exists p, outcome (P e0) = inr p).
  { intros e0. unfold P.
    destruct (run.packed_run first_target_name stmt (rel groupctx) ctx uses e0)
      as [Hpo _].
    cbn zeta in Hpo. eauto. }
  assert (HB : forall e0, filter is_assign_group_clause (effects (B e0)) = []).
  { intros e0. apply (run.only_none is_lookup_effect).
    - unfold B. destruct (truthy_opt _); [|apply run.only_ret].
      apply run.only__compile_grouping_binding; reflexivity.
    - intros c0; destruct c0; cbn; congruence. }
  assert (HC : forall e0, filter is_assign_group_clause (effects (C e0)) = []).
  { intros e0. apply (run.only_none is_lookup_effect).
    - unfold C. apply run.only_comprehension. apply Forall_forall.
      intros el _. apply run.only_compile_grouping_el. reflexivity.
    - intros c0; destruct c0; cbn; congruence. }
  rewrite run.outcome_bind, run.effects_bind.
  destruct (HPo e) as [p Hp]. rewrite Hp.
  rewrite run.outcome_bind, run.effects_bind.
  set (e1 := env_after (P e)).
  destruct (outcome (B e1)) as [x|[]] eqn:HBo.
  - rewrite !filter_app, HP, HB. reflexivity.
  - rewrite run.outcome_bind, run.effects_bind.
    set (e2 := env_after (B e1)).
    destruct (outcome (C e2)) as [x|clause] eqn:HCo.
    + rewrite !filter_app, HP, HB, HC. reflexivity.
    + cbn [bind call ret outcome effects env_after app].
      exists clause. split; [|split].
      * rewrite !filter_app, HP, HB, HC. reflexivity.
      * exact (comprehension_length _ _ _ _ HCo).
      * exists (effects (P e) ++ effects (B e1) ++ effects (C e2)).
        now rewrite <- !app_assoc.
Qed.

(** X22: the grouping clause is assigned once, at the end of a group
    scope that raised nothing.  When [_compile_group] returns, the
    [group_clause] of the group relation has been assigned exactly once,
    a list with one entry for each element of [stmt.by], and that
    assignment is the last thing done in the group scope, right before
    the range variable of the group relation is made; when it raises,
    the [group_clause] has not been assigned. *)
Theorem X22_group_clause_assigned_on_success :
  forall stmt ctx parent_ctx e,
    let grouprel := ScopeRel (scopes e) in
    let run := _compile_group first_target_name stmt ctx parent_ctx e in
    match outcome run with
    | inr _ =>
        exists clause before after,
        filter is_assign_group_clause (effects run)
        = [assign_group_clause grouprel clause]
        /\ List.length clause = List.length (GroupStmt.by_ stmt)
        /\ effects run
           = before
             ++ [assign_group_clause grouprel clause;
                 rvar_for_rel grouprel ctx true]
             ++ after
    | inl _ => filter is_assign_group_clause (effects run) = []
    end.
Proof.
  intros stmt ctx parent_ctx e grouprel run.
  destruct (group_trace stmt ctx parent_ctx e) as [E _].
  pose proof (group_outcome stmt ctx parent_ctx e) as Ho.
  cbn zeta in E. fold run in E, Ho.
  pose proof (scope_end_clause stmt (group_uses_of stmt) ctx
                (with_rel (ScopeRel (scopes e)) ctx)
                (MkEnv (aliases e)
                       (S (S (scopes e))
                        + List.length (aggregates (group_uses_of stmt)))))
    as Hc.
  cbn zeta in Hc.
  assert (Hfront : forall l,
             filter is_assign_group_clause
                    (scope_front stmt (group_uses_of stmt)
                                 (with_rel (ScopeRel (scopes e)) ctx)
                                 (S (scopes e)) ++ l)
             = filter is_assign_group_clause l).
  { intros l. rewrite filter_app.
    rewrite (run.filter_class _ _ _ (front_class _ _ _ _)); [reflexivity|].
    intros c; destruct c; cbn; intros; try congruence;
      repeat match goal with
             | x : pgast.Aspect |- _ => destruct x
             | x : pgast.Flavor |- _ => destruct x
             end; cbn in *; congruence. }
  destruct (outcome (scope_end _ _ _ _ _ _)) as [x|packed].
  - rewrite Ho. rewrite Ho in E. rewrite E, Hfront, app_nil_r. exact Hc.
  - rewrite Ho. rewrite Ho in E.
    destruct Hc as (clause & Hf & Hlen & before & Hbefore).
    exists clause,
      (scope_front stmt (group_uses_of stmt)
                   (with_rel (ScopeRel (scopes e)) ctx) (S (scopes e))
       ++ before),
      (attachment stmt ctx (ScopeRel (scopes e))
                  (has_ungrouped (group_uses_of stmt))
       :: registrations (context.stmt ctx)
            (pgast.RvarForRel (ScopeRel (scopes e)) true) stmt
            (group_uses_of stmt)
       ++ [compile_materialized_exprs (context.stmt ctx) stmt ctx;
           compile_output (GroupStmt.result stmt) ctx;
           setup_iterator_volatility (GroupStmt.result stmt) ctx]
       ++ where_effects (context.stmt ctx) stmt ctx
       ++ orderby_effects (context.stmt ctx) stmt ctx).
    split; [|split; [exact Hlen|]].
    + rewrite E, Hfront, filter_app, Hf. cbn [rel with_rel].
      rewrite !filter_app.
      rewrite (filter_nothing is_assign_group_clause (registrations _ _ _ _))
        by (eapply Forall_impl; [|apply registrations_class];
            intros c (Hc & _ & _); now destruct c).
      unfold where_effects, orderby_effects, attachment.
      destruct (has_ungrouped _), (GroupStmt.where_ stmt),
        (GroupStmt.orderby stmt); reflexivity.
    + rewrite E, Hbefore. cbn [rel with_rel app].
      rewrite <- !app_assoc. reflexivity.
Qed.

(** ** The hoisting of the aggregates *)

(** C2, amended: for every GROUP statement for which the analyzer records
    no ungrouped sighting (every occurrence of the group binding it
    reaches in the result is recorded under a call that is backed by an
    SQL function, returns no set and takes it in a set-accepting
    parameter, with no reset of the context in between), [packed] is false
    and no array materialization is built; each recorded context is such
    a call, compiled as a hoisted aggregate in a scope of its own and
    registered in the group relation under the PathId of its Set.  The
    scope is of its own: the relation the aggregate is compiled in is
    the relation of the context it is compiled under, it is numbered
    after the group relation and the subject's, so it is neither of
    them nor a relation that was there before, and no other aggregate
    is compiled in it; and nothing is hoisted but the contexts
    recorded. *)
Theorem C2_aggregates_hoisted_not_packed :
  forall stmt ctx parent_ctx e,
    has_ungrouped (group_uses_of stmt) = false ->
    let effs := effects (_compile_group first_target_name stmt ctx parent_ctx e) in
    let grouprel := ScopeRel (scopes e) in
    let scope :=
      compile_group_scope first_target_name stmt (group_uses_of stmt) ctx
                          (with_rel grouprel ctx)
                          (MkEnv (aliases e) (S (scopes e))) in
    filter is_set_to_array effs = []
    /\ filter is_packed_put_path_var effs = []
    /\ match outcome scope with
       | inr packed => packed = false
       | inl _ => True
       end
    /\ (forall c, In c (group_uses_of stmt) ->
         exists ir_set,
           c = Some ir_set
           /\ is_aggregate_use ir_set = true
           /\ exists n hoistctx,
               rel hoistctx = ScopeRel n
               /\ S (scopes e) < n
               /\ hoistctx
                  = with_rel (ScopeRel n)
                             (hoist_context stmt (with_rel grouprel ctx))
               /\ In (process_set_as_agg_expr_inner
                        ir_set (ScopeRel n) pgast.value true hoistctx) effs
               /\ In (get_path_value_output
                        (ScopeRel n) (irast.path_id_of ir_set)) effs
               /\ In (put_path_value_var
                        grouprel (irast.path_id_of ir_set)
                        (pgast.RelRef (ScopeRel n))) effs)
    /\ (forall s r a w hctx,
          In (process_set_as_agg_expr_inner s r a w hctx) effs ->
          In (Some s) (group_uses_of stmt)
          /\ rel hctx = r
          /\ (exists n, r = ScopeRel n /\ S (scopes e) < n)
          /\ r <> grouprel
          /\ r <> ScopeRel (S (scopes e))
          /\ forall s' a' w' hctx',
              In (process_set_as_agg_expr_inner s' r a' w' hctx') effs ->
              s' = s).
Proof.
  intros stmt ctx parent_ctx e Hno effs grouprel scope.
  pose proof (hoisting_trace stmt ctx parent_ctx e) as E.
  fold effs grouprel in E.
  assert (Hcall : forall s r a w hctx,
             In (process_set_as_agg_expr_inner s r a w hctx) effs ->
             exists i, nth_error (aggregates (group_uses_of stmt)) i = Some s
                       /\ r = ScopeRel (S (S (scopes e)) + i)
                       /\ rel hctx = r).
  { intros s r a w hctx Hin.
    assert (Hf : In (process_set_as_agg_expr_inner s r a w hctx)
                    (filter is_hoist_effect effs))
      by (apply filter_In; split; [exact Hin|reflexivity]).
    rewrite E in Hf. apply hoisted_In in Hf.
    destruct Hf as (i & s0 & Hi & [H|[H|[H|[]]]]); try discriminate H.
    injection H as Hs Hr _ _ Hc. subst s0.
    exists i. split; [exact Hi|]. split; [symmetry; exact Hr|].
    rewrite <- Hc, <- Hr. reflexivity. }
  split; [|split; [|split; [|split]]].
  - destruct (group_filter is_set_to_array first_target_name
                           stmt ctx parent_ctx e)
      as (e2 & Eg); excluded.
    cbn zeta in Eg. fold effs grouprel scope in Eg. rewrite Hno in Eg.
    rewrite Eg. now destruct (outcome scope).
  - destruct (group_filter is_packed_put_path_var first_target_name
                           stmt ctx parent_ctx e)
      as (e2 & Eg); excluded.
    cbn zeta in Eg. fold effs grouprel scope in Eg. rewrite Hno in Eg.
    rewrite Eg. now destruct (outcome scope).
  - pose proof (run.scope_packed first_target_name stmt (group_uses_of stmt)
                  ctx (with_rel grouprel ctx)
                  (MkEnv (aliases e) (S (scopes e))))
      as Hp.
    fold scope in Hp. rewrite Hno in Hp.
    destruct (outcome scope) as [x|packed]; [exact I|].
    exact (Hp packed eq_refl).
  - intros c Hc.
    assert (Hagg : Forall aggregate_context (group_uses_of stmt)).
    { unfold group_uses_of.
      destruct (walk.keeps_visit (GroupStmt.result stmt)) as [_ Hk].
      apply Hk; cbn; [exact I|constructor]. }
    destruct c as [ir_set|].
    + exists ir_set. split; [reflexivity|]. split.
      * exact (proj1 (Forall_forall _ _) Hagg (Some ir_set) Hc).
      * apply aggregates_In, In_nth_error in Hc. destruct Hc as (i & Hi).
        exists (S (S (scopes e)) + i).
        exists (with_rel (ScopeRel (S (S (scopes e)) + i))
                         (hoist_context stmt (with_rel grouprel ctx))).
        split; [reflexivity|]. split; [lia|]. split; [reflexivity|].
        pose proof (hoisted_nth grouprel
                      (hoist_context stmt (with_rel grouprel ctx))
                      (aggregates (group_uses_of stmt))
                      (S (S (scopes e))) i ir_set Hi) as Hincl.
        rewrite <- E in Hincl.
        repeat split;
          refine (proj1 (proj1 (filter_In _ _ _) (Hincl _ _)));
          cbn; auto.
    + exfalso. unfold has_ungrouped, FindAggregatingUses.mem in Hno.
      assert (Ht : existsb (FindAggregatingUses.same_context None)
                           (group_uses_of stmt) = true).
      { apply existsb_exists. exists None. split; [exact Hc|reflexivity]. }
      congruence.
  - intros s r a w hctx Hin.
    destruct (Hcall _ _ _ _ _ Hin) as (i & Hi & Hr & Hrel).
    split; [apply aggregates_In; exact (nth_error_In _ _ Hi)|].
    split; [exact Hrel|].
    split; [exists (S (S (scopes e)) + i); split; [exact Hr|lia]|].
    split; [rewrite Hr; unfold grouprel; intros H; injection H; lia|].
    split; [rewrite Hr; intros H; injection H; lia|].
    intros s' a' w' hctx' Hin'.
    destruct (Hcall _ _ _ _ _ Hin') as (i' & Hi' & Hr' & _).
    rewrite Hr in Hr'. injection Hr' as Hii.
    assert (i' = i) by lia. subst i'. congruence.
Qed.

End OrchestratorProperties.

(** The witness of X15: scenario D compiles to the query of its
    context. *)
Lemma X15_witness :
  forallb props.recognized_el (GroupStmt.by_ examples.scenario_D) = true
  /\ compiler.outcome
       (compiler._compile_group examples.unnamed examples.scenario_D
                                examples.ctx examples.ctx examples.env)
     = inr (pgast.RelRef (context.ScopeRel 0)).
Proof.
  split; [reflexivity|].
  exact (X15_group_compiles_iff_keys_bound
           examples.unnamed examples.scenario_D examples.ctx examples.ctx
           examples.env eq_refl).
Defined.

(** The witness of C2: scenario C, [(count(g), g.a)]. *)
Lemma C2_witness :
  compiler.has_ungrouped (compiler.group_uses_of examples.scenario_C) = false
  /\ compiler.group_uses_of examples.scenario_C
     = [Some (examples.count 31 (examples.g 2))]
  /\ filter props.is_set_to_array
            (compiler.effects
               (compiler._compile_group examples.unnamed examples.scenario_C
                                        examples.ctx examples.ctx examples.env))
     = [].
Proof.
  split; [reflexivity|]. split; [reflexivity|].
  exact (proj1 (C2_aggregates_hoisted_not_packed
                  examples.unnamed examples.scenario_C examples.ctx
                  examples.ctx examples.env eq_refl)).
Defined.
